(** * bclustering.metric: covariance algebra, error-aware dataset and
      pairwise chi-squared metric

    Shallow embedding of [src/bclustering/metric.py].

    Numbers.  The source computes on numpy [float64] arrays.  A number is
    modelled as an extended real: a finite real, one of the two infinities,
    or NaN.  Finite values follow exact real arithmetic (no rounding, no
    overflow); the special values follow IEEE 754 as numpy applies it
    (division by zero and invalid operations yield inf / NaN and do not
    raise).  Zero carries no sign: a non-zero finite value divided by zero
    gives the infinity of the sign of the numerator.

    Arrays.  A numpy array is its shape together with its row-major buffer.
    The numpy operations the source calls are modelled on that
    representation, with numpy's broadcasting rule and its [ValueError]
    where shapes do not fit; [einsum] is modelled for any explicit subscript
    string.

    Exceptions.  A function that can raise returns a [result]; a method that
    mutates the dataset returns its outcome together with the dataset
    afterwards, so that what an exception leaves behind can be stated.

    Aliasing.  Where it matters whether a returned array is the stored one,
    arrays live in a heap and the dataset holds references to them.

    Layout: the definitions first (numbers, arrays and numpy, the functions
    of the module, the notions used in the statements, the examples), then
    the lemmas and the properties C1 to C10. *)

From Stdlib Require Import String Ascii.
From Stdlib Require Import Reals Lra Lia List Arith Bool ZArith.
Import ListNotations.

Local Open Scope R_scope.

(* ------------------------------------------------------------------ *)
(** ** Numbers *)

Inductive num : Type :=
| Fin (r : R)
| PInf
| NInf
| NaN.

(** Sign of a real, decided by the total order of R. *)
Definition Rsign (x : R) : comparison :=
  match total_order_T x 0 with
  | inleft (left _) => Lt
  | inleft (right _) => Eq
  | inright _ => Gt
  end.

Definition fneg (a : num) : num :=
  match a with
  | Fin x => Fin (- x)
  | PInf => NInf
  | NInf => PInf
  | NaN => NaN
  end.

Definition fadd (a b : num) : num :=
  match a, b with
  | NaN, _ | _, NaN => NaN
  | Fin x, Fin y => Fin (x + y)
  | PInf, NInf | NInf, PInf => NaN
  | PInf, _ | _, PInf => PInf
  | NInf, _ | _, NInf => NInf
  end.

Definition fsub (a b : num) : num := fadd a (fneg b).

(** The infinity of a given sign; NaN for "0 * inf". *)
Definition inf_of_sign (s : comparison) : num :=
  match s with
  | Gt => PInf
  | Lt => NInf
  | Eq => NaN
  end.

Definition fmul (a b : num) : num :=
  match a, b with
  | NaN, _ | _, NaN => NaN
  | Fin x, Fin y => Fin (x * y)
  | Fin x, PInf | PInf, Fin x => inf_of_sign (Rsign x)
  | Fin x, NInf | NInf, Fin x => inf_of_sign (CompOpp (Rsign x))
  | PInf, PInf | NInf, NInf => PInf
  | PInf, NInf | NInf, PInf => NInf
  end.

Definition fdiv (a b : num) : num :=
  match a, b with
  | NaN, _ | _, NaN => NaN
  | Fin x, Fin y =>
      match Rsign y with
      | Eq => inf_of_sign (Rsign x)
      | _ => Fin (x / y)
      end
  | Fin _, (PInf | NInf) => Fin 0
  | (PInf | NInf), (PInf | NInf) => NaN
  | PInf, Fin y => match Rsign y with Lt => NInf | _ => PInf end
  | NInf, Fin y => match Rsign y with Lt => PInf | _ => NInf end
  end.

Definition fsqrt (a : num) : num :=
  match a with
  | Fin x => match Rsign x with Lt => NaN | _ => Fin (sqrt x) end
  | PInf => PInf
  | NInf | NaN => NaN
  end.

(** [np.square] *)
Definition fsquare (a : num) : num := fmul a a.

Definition fsum (l : list num) : num := fold_left fadd l (Fin 0).

(* ------------------------------------------------------------------ *)
(** ** Exceptions and results *)

Inductive exn : Type :=
| ValueError
| TypeError
| IndexError
| AxisError
| LinAlgError
| NotImplementedError.

Inductive result (A : Type) : Type :=
| Ok (a : A)
| Raise (e : exn).
Arguments Ok {A} a.
Arguments Raise {A} e.

Definition bind {A B : Type} (m : result A) (k : A -> result B) : result B :=
  match m with
  | Ok a => k a
  | Raise e => Raise e
  end.

Notation "x <- m ;; k" := (bind m (fun x => k))
  (at level 61, m at next level, right associativity).

(* ------------------------------------------------------------------ *)
(** ** Arrays: shape and row-major buffer *)

Record ndarray : Type := mkarr { shape : list nat; buf : list num }.

Definition size (s : list nat) : nat := fold_right Nat.mul 1%nat s.

Fixpoint offset (s idx : list nat) : nat :=
  match s, idx with
  | _ :: s', i :: idx' => (i * size s' + offset s' idx')%nat
  | _, _ => 0%nat
  end.

(** All multi-indices of a shape, in row-major order. *)
Fixpoint indices (s : list nat) : list (list nat) :=
  match s with
  | [] => [[]]
  | d :: s' => flat_map (fun i => map (cons i) (indices s')) (seq 0 d)
  end.

Definition item (a : ndarray) (idx : list nat) : num :=
  nth (offset (shape a) idx) (buf a) NaN.

Definition tabulate (s : list nat) (f : list nat -> num) : ndarray :=
  mkarr s (map f (indices s)).

(** A multi-index is in range for a shape. *)
Definition in_range (s idx : list nat) : Prop := Forall2 lt idx s.

(** The buffer of a numpy array holds exactly one number per index. *)
Definition wf_array (a : ndarray) : Prop :=
  length (buf a) = size (shape a).

Definition rank (a : ndarray) : nat := length (shape a).

(** A Python scalar used as an operand is a rank-0 array. *)
Definition scalar (x : num) : ndarray := mkarr [] [x].

Definition map_arr (f : num -> num) (a : ndarray) : ndarray :=
  mkarr (shape a) (map f (buf a)).

Fixpoint shape_eqb (s t : list nat) : bool :=
  match s, t with
  | [], [] => true
  | d :: s', e :: t' => (d =? e)%nat && shape_eqb s' t'
  | _, _ => false
  end.

Definition map2 {A B C : Type} (f : A -> B -> C) (l : list A) (l' : list B)
  : list C :=
  map (fun p => f (fst p) (snd p)) (combine l l').

(* ------------------------------------------------------------------ *)
(** ** numpy: element-wise operations with broadcasting *)

(** Two axis lengths are compatible when they are equal or one of them
    is 1. *)
Definition bdim (a b : nat) : option nat :=
  if a =? b then Some a
  else if a =? 1 then Some b
  else if b =? 1 then Some a
  else None.

(** Broadcast of two shapes given innermost axis first. *)
Fixpoint bshape_rev (s1 s2 : list nat) : option (list nat) :=
  match s1, s2 with
  | [], s => Some s
  | s, [] => Some s
  | d1 :: t1, d2 :: t2 =>
      match bdim d1 d2, bshape_rev t1 t2 with
      | Some d, Some t => Some (d :: t)
      | _, _ => None
      end
  end.

Definition broadcast_shapes (s1 s2 : list nat) : option (list nat) :=
  option_map (@rev nat) (bshape_rev (rev s1) (rev s2)).

(** The index an operand of shape [s] is read at, for an index [idx] of the
    broadcast result: leading axes the operand lacks are dropped and an axis
    of length 1 is read at 0. *)
Definition bindex (s idx : list nat) : list nat :=
  map2 (fun d i => if d =? 1 then 0 else i)%nat
       s (skipn (length idx - length s) idx).

Definition broadcast_op (f : num -> num -> num) (a b : ndarray)
  : result ndarray :=
  match broadcast_shapes (shape a) (shape b) with
  | Some s =>
      Ok (tabulate s (fun idx =>
            f (item a (bindex (shape a) idx)) (item b (bindex (shape b) idx))))
  | None => Raise ValueError
  end.

(** [a op= b]: as [broadcast_op], but the result has to fit the left operand,
    which is checked before anything is written. *)
Definition inplace_op (f : num -> num -> num) (a b : ndarray)
  : result ndarray :=
  match broadcast_shapes (shape a) (shape b) with
  | Some s =>
      if shape_eqb s (shape a)
      then Ok (tabulate s (fun idx =>
             f (item a (bindex (shape a) idx)) (item b (bindex (shape b) idx))))
      else Raise ValueError
  | None => Raise ValueError
  end.

Definition np_sqrt (a : ndarray) : ndarray := map_arr fsqrt a.
Definition np_square (a : ndarray) : ndarray := map_arr fsquare a.

(** [np.array(a)]: a copy; on values, the same array. *)
Definition np_array (a : ndarray) : ndarray := a.

Definition np_zeros (s : list nat) : ndarray := tabulate s (fun _ => Fin 0).
Definition np_ones (s : list nat) : ndarray := tabulate s (fun _ => Fin 1).

Definition np_identity (b : nat) : ndarray :=
  tabulate [b; b] (fun idx =>
    if (nth 0 idx 0 =? nth 1 idx 0)%nat then Fin 1 else Fin 0).

(** [np.sum(a, axis=1)] *)
Definition np_sum_axis1 (a : ndarray) : result ndarray :=
  match shape a with
  | d0 :: d1 :: rest =>
      Ok (tabulate (d0 :: rest) (fun idx =>
            fsum (map (fun i => item a (hd 0%nat idx :: i :: tl idx))
                      (seq 0 d1))))
  | _ => Raise AxisError
  end.

(** [a.diagonal(axis1, axis2)], for the two axis pairs the source uses:
    the defaults (0, 1) on a matrix and (1, 2) on a batch of matrices. *)
Definition diagonal (a : ndarray) (axis1 axis2 : nat) : result ndarray :=
  match shape a, axis1, axis2 with
  | [b; c], 0%nat, 1%nat =>
      Ok (tabulate [Nat.min b c] (fun idx =>
            item a [nth 0 idx 0; nth 0 idx 0]%nat))
  | [n; b; c], 1%nat, 2%nat =>
      Ok (tabulate [n; Nat.min b c] (fun idx =>
            item a [nth 0 idx 0; nth 1 idx 0; nth 1 idx 0]%nat))
  | _, _, _ => Raise AxisError
  end.

(** [np.outer(u, v)]: both operands are flattened. *)
Definition np_outer (u v : ndarray) : ndarray :=
  tabulate [length (buf u); length (buf v)] (fun idx =>
    fmul (nth (nth 0 idx 0%nat) (buf u) NaN) (nth (nth 1 idx 0%nat) (buf v) NaN)).

(** Position of [p] in [axes]. *)
Fixpoint index_of (p : nat) (axes : list nat) : nat :=
  match axes with
  | [] => 0
  | x :: r => if (x =? p)%nat then 0 else S (index_of p r)
  end.

Definition is_permutation (axes : list nat) (r : nat) : bool :=
  (length axes =? r)%nat
  && forallb (fun p => existsb (Nat.eqb p) axes) (seq 0 r).

(** [np.transpose(a, axes)]: axis [i] of the result is axis [axes[i]] of
    [a]. *)
Definition np_transpose (a : ndarray) (axes : list nat) : result ndarray :=
  if is_permutation axes (rank a)
  then Ok (tabulate (map (fun ax => nth ax (shape a) 0%nat) axes) (fun idx =>
             item a (map (fun p => nth (index_of p axes) idx 0%nat)
                         (seq 0 (rank a)))))
  else Raise ValueError.

(** [a.T] *)
Definition np_T (a : ndarray) : result ndarray :=
  np_transpose a (rev (seq 0 (rank a))).

Definition pad_left (k : nat) (l : list nat) : list nat :=
  repeat 1%nat (k - length l) ++ l.

(** [np.tile(a, reps)] *)
Definition np_tile (a : ndarray) (reps : list nat) : ndarray :=
  let d := Nat.max (rank a) (length reps) in
  let s := pad_left d (shape a) in
  let r := pad_left d reps in
  tabulate (map2 Nat.mul s r) (fun idx =>
    item (mkarr s (buf a)) (map2 Nat.modulo idx s)).

(* ------------------------------------------------------------------ *)
(** ** numpy: einsum, explicit form ["in1,in2,...->out"] *)

Fixpoint split_comma (cs cur : list ascii) : list (list ascii) :=
  match cs with
  | [] => [rev cur]
  | c :: r =>
      if Ascii.eqb c ","%char then rev cur :: split_comma r []
      else split_comma r (c :: cur)
  end.

Fixpoint split_arrow (cs acc : list ascii)
  : option (list ascii * list ascii) :=
  match cs with
  | [] => None
  | c :: r =>
      match r with
      | c' :: r' =>
          if Ascii.eqb c "-"%char && Ascii.eqb c' ">"%char
          then Some (rev acc, r')
          else split_arrow r (c :: acc)
      | [] => None
      end
  end.

Definition parse_subscripts (s : string)
  : option (list (list ascii) * list ascii) :=
  match split_arrow (list_ascii_of_string s) [] with
  | Some (ins, out) => Some (split_comma ins [], out)
  | None => None
  end.

Definition mem_label (l : ascii) (ls : list ascii) : bool :=
  existsb (Ascii.eqb l) ls.

Fixpoint dedup (ls : list ascii) : list ascii :=
  match ls with
  | [] => []
  | l :: r => if mem_label l r then dedup r else l :: dedup r
  end.

Fixpoint no_repeat (ls : list ascii) : bool :=
  match ls with
  | [] => true
  | l :: r => negb (mem_label l r) && no_repeat r
  end.

Definition lookup (env : list (ascii * nat)) (l : ascii) : nat :=
  match find (fun p => Ascii.eqb (fst p) l) env with
  | Some p => snd p
  | None => 0
  end.

(** Common length of a list of axes, axes of length 1 broadcasting. *)
Definition unify (ds : list nat) : option nat :=
  fold_left (fun acc d => match acc with
                          | Some a => bdim a d
                          | None => None
                          end) ds (Some 1%nat).

Definition label_dims (binds : list (ascii * nat)) (l : ascii) : list nat :=
  map snd (filter (fun p => Ascii.eqb (fst p) l) binds).

Fixpoint dims_of (binds : list (ascii * nat)) (ls : list ascii)
  : option (list nat) :=
  match ls with
  | [] => Some []
  | l :: r =>
      match unify (label_dims binds l), dims_of binds r with
      | Some d, Some ds => Some (d :: ds)
      | _, _ => None
      end
  end.

(** Product of the operand entries, left to right. *)
Definition fprod (l : list num) : num :=
  match l with
  | [] => Fin 1
  | x :: r => fold_left fmul r x
  end.

(** The index an operand with axis labels [ls] and shape [s] is read at
    under the label assignment [env]. *)
Definition operand_index (env : list (ascii * nat)) (ls : list ascii)
  (s : list nat) : list nat :=
  map2 (fun l d => if d =? 1 then 0 else lookup env l)%nat ls s.

Definition einsum_labels (ins : list (list ascii)) (out : list ascii)
  (ops : list ndarray) : result ndarray :=
  if negb (length ins =? length ops)%nat then Raise ValueError else
  if negb (forallb (fun p => length (fst p) =? rank (snd p))%nat
                   (combine ins ops)) then Raise ValueError else
  let binds :=
    flat_map (fun p => combine (fst p) (shape (snd p))) (combine ins ops) in
  let all := dedup (concat ins) in
  if negb (forallb (fun l => mem_label l all) out && no_repeat out)
  then Raise ValueError else
  let summed := filter (fun l => negb (mem_label l out)) all in
  match dims_of binds out, dims_of binds summed with
  | Some so, Some ss =>
      Ok (tabulate so (fun io =>
            fsum (map (fun js =>
                    let env := combine out io ++ combine summed js in
                    fprod (map (fun p =>
                             item (snd p)
                                  (operand_index env (fst p) (shape (snd p))))
                           (combine ins ops)))
                  (indices ss))))
  | _, _ => Raise ValueError
  end.

Definition einsum (subscripts : string) (ops : list ndarray)
  : result ndarray :=
  match parse_subscripts subscripts with
  | Some (ins, out) => einsum_labels ins out ops
  | None => Raise ValueError
  end.

(* ------------------------------------------------------------------ *)
(** ** numpy: triu_indices and indexing by a pair of index arrays *)

(** [np.tri(N, M, k)]: entry (i, j) is true when [j - k <= i]. *)
Definition tri (k : Z) (i j : nat) : bool :=
  (Z.of_nat j - k <=? Z.of_nat i)%Z.

(** [np.triu_indices(n, k)]: the coordinates, in row-major order, of the
    entries of an n x n array where [~tri(n, n, k-1)] holds. *)
Definition triu_indices (n : nat) (k : Z) : list nat * list nat :=
  let hits :=
    filter (fun idx => negb (tri (k - 1) (nth 0 idx 0%nat) (nth 1 idx 0%nat)))
           (indices [n; n]) in
  (map (fun idx => nth 0 idx 0%nat) hits, map (fun idx => nth 1 idx 0%nat) hits).

(** [a[(rows, cols)]] for two index arrays of one length: entry [p] of the
    result is [a[rows[p], cols[p]]]. *)
Definition take_pairs (a : ndarray) (rows cols : list nat) : result ndarray :=
  match shape a with
  | d0 :: d1 :: rest =>
      if forallb (fun r => r <? d0)%nat rows && forallb (fun c => c <? d1)%nat cols
      then Ok (tabulate (length rows :: rest) (fun idx =>
                 item a (nth (hd 0%nat idx) rows 0%nat
                           :: nth (hd 0%nat idx) cols 0%nat :: tl idx)))
      else Raise IndexError
  | _ => Raise IndexError
  end.

(* ------------------------------------------------------------------ *)
(** ** Covariance algebra *)


Definition cov2err (cov : ndarray) : result ndarray :=
  if (rank cov =? 2)%nat then
    d <- diagonal cov 0 1 ;; Ok (np_sqrt d)
  else if (rank cov =? 3)%nat then
    d <- diagonal cov 1 2 ;; Ok (np_sqrt d)
  else Raise ValueError.

Definition cov2corr (cov : ndarray) : result ndarray :=
  err <- cov2err cov ;;
  if (rank cov =? 2)%nat then
    broadcast_op fdiv cov (np_outer err err)
  else if (rank cov =? 3)%nat then
    o <- einsum "ki,kj->kij"%string [err; err] ;; broadcast_op fdiv cov o
  else Raise ValueError.

Definition corr2cov (corr err : ndarray) : result ndarray :=
  if (rank corr =? 2)%nat then
    einsum "ij,i,j->ij"%string [corr; err; err]
  else if (rank corr =? 3)%nat then
    einsum "kij,ki,kj->kij"%string [corr; err; err]
  else Raise ValueError.

Definition rel2abs_cov (cov data : ndarray) : result ndarray :=
  einsum "ij,ki,kj->kij"%string [cov; data; data].

Definition abs2rel_cov {A : Type} (cov : ndarray) (data : A)
  : result ndarray :=
  Raise NotImplementedError.

(* ------------------------------------------------------------------ *)
(** ** The error-aware dataset *)

Record DataWithErrors : Type := mkDWE {
  _data : ndarray;
  n : nat;
  nbins : nat;
  _cov : ndarray
}.

Definition __init__ (data : ndarray) : result DataWithErrors :=
  match shape data with
  | [n_; nbins_] =>
      Ok (mkDWE data n_ nbins_ (np_zeros [n_; nbins_; nbins_]))
  | _ => Raise ValueError
  end.

(** What construction and the methods maintain. *)
Definition wf_dwe (dwe : DataWithErrors) : Prop :=
  shape (_data dwe) = [n dwe; nbins dwe] /\ wf_array (_data dwe) /\
  shape (_cov dwe) = [n dwe; nbins dwe; nbins dwe] /\ wf_array (_cov dwe).

Definition norms (dwe : DataWithErrors) : result ndarray :=
  np_sum_axis1 (_data dwe).

Definition normalized (dwe : DataWithErrors) : result ndarray :=
  nm <- norms dwe ;; broadcast_op fdiv (_data dwe) nm.

Definition corr (dwe : DataWithErrors) : result ndarray :=
  cov2corr (_cov dwe).

Definition err (dwe : DataWithErrors) (relative : bool) : result ndarray :=
  if negb relative then cov2err (_cov dwe)
  else
    e <- cov2err (_cov dwe) ;;
    nm <- norms dwe ;;
    t <- np_T (np_tile nm [nbins dwe; 1%nat]) ;;
    broadcast_op fdiv e t.

Section Inverse.

(** [np.linalg.inv] is a library routine; the dataset code only passes it
    the correlation tensor and contracts its result with the data. *)
Variable linalg_inv : ndarray -> result ndarray.

Definition data (dwe : DataWithErrors) (normalize decorrelate : bool)
  : result ndarray :=
  let ret := np_array (_data dwe) in
  ret <- (if normalize
          then nm <- norms dwe ;; inplace_op fdiv ret nm
          else Ok ret) ;;
  if decorrelate then
    c <- corr dwe ;;
    inverses <- linalg_inv c ;;
    einsum "kij,kj->ki"%string [inverses; ret]
  else Ok ret.

(** [cov(relative=True)] hands the stored covariance and the bound method
    [self.data] to [abs2rel_cov]. *)
Definition cov (dwe : DataWithErrors) (relative : bool) : result ndarray :=
  if negb relative then Ok (_cov dwe)
  else abs2rel_cov (_cov dwe) (data dwe).

Definition chi2_metric (dwe : DataWithErrors) : result ndarray :=
  n_ <- norms dwe ;;
  d <- data dwe false true ;;
  e <- err dwe false ;;
  nom1 <- einsum "k,li->kli"%string [n_; d] ;;
  nom2 <- np_transpose nom1 [1; 0; 2]%nat ;;
  diff <- broadcast_op fsub nom1 nom2 ;;
  let nominator := np_square diff in
  den1 <- einsum "k,li->kli"%string [n_; e] ;;
  den2 <- np_transpose den1 [1; 0; 2]%nat ;;
  denominator <- broadcast_op fadd (np_square den1) (np_square den2) ;;
  summand <- broadcast_op fdiv nominator denominator ;;
  chi2 <- einsum "kli->kl"%string [summand] ;;
  broadcast_op fdiv chi2 (scalar (Fin (INR (nbins dwe)))).

End Inverse.

(** *** Error injection

    A method that raises leaves the object as it is at the point of the
    exception: a call yields its outcome and the object afterwards. *)

Definition action : Type := DataWithErrors -> result unit * DataWithErrors.

Definition with_value {A : Type} (r : result A) (k : A -> action) : action :=
  fun dwe =>
    match r with
    | Ok a => k a dwe
    | Raise e => (Raise e, dwe)
    end.

Definition set_cov (dwe : DataWithErrors) (c : ndarray) : DataWithErrors :=
  mkDWE (_data dwe) (n dwe) (nbins dwe) c.

(** [self._cov += cov] *)
Definition add_err_cov (cov : ndarray) : action :=
  fun dwe =>
    with_value (inplace_op fadd (_cov dwe) cov)
               (fun c dwe => (Ok tt, set_cov dwe c)) dwe.

Definition add_err_corr (err corr : ndarray) : action :=
  with_value (corr2cov corr err) add_err_cov.

Definition add_err_uncorr (err : ndarray) : action :=
  fun dwe =>
    let corr := np_tile (np_identity (nbins dwe)) [n dwe; 1; 1]%nat in
    add_err_corr err corr dwe.

Definition add_rel_err_cov (cov : ndarray) : action :=
  fun dwe => with_value (rel2abs_cov cov (_data dwe)) add_err_cov dwe.

Definition add_rel_err_corr (err corr : ndarray) : action :=
  with_value (corr2cov corr err) add_rel_err_cov.

Definition add_rel_err_uncorr (err : ndarray) : action :=
  fun dwe =>
    let corr := np_identity (nbins dwe) in
    add_rel_err_corr err corr dwe.

(** The argument of [add_rel_err_maxcorr]: a Python float or an array. *)
Inductive pyarg : Type :=
| PyFloat (x : num)
| PyArray (a : ndarray).

Definition add_rel_err_maxcorr (err : pyarg) : action :=
  fun dwe =>
    let err := match err with
               | PyFloat x => tabulate [nbins dwe] (fun _ => x)
               | PyArray a => a
               end in
    let corr := np_ones [nbins dwe; nbins dwe] in
    add_rel_err_corr err corr dwe.

Definition add_poisson_error : action :=
  fun dwe => add_err_uncorr (np_sqrt (_data dwe)) dwe.

(* ------------------------------------------------------------------ *)
(** ** Condensed distance matrix *)

Definition condense_distance_matrix (matrix : ndarray) : result ndarray :=
  match shape matrix with
  | [] => Raise TypeError
  | len :: _ =>
      let (rows, cols) := triu_indices len 1 in
      take_pairs matrix rows cols
  end.

(* ------------------------------------------------------------------ *)
(** ** Tables of fixed rank, used to state what an operation returns *)

Definition tab1 (d : nat) (f : nat -> num) : ndarray :=
  tabulate [d] (fun idx => f (nth 0 idx 0%nat)).

Definition tab2 (d0 d1 : nat) (f : nat -> nat -> num) : ndarray :=
  tabulate [d0; d1] (fun idx => f (nth 0 idx 0%nat) (nth 1 idx 0%nat)).

Definition tab3 (d0 d1 d2 : nat) (f : nat -> nat -> nat -> num) : ndarray :=
  tabulate [d0; d1; d2]
    (fun idx => f (nth 0 idx 0%nat) (nth 1 idx 0%nat) (nth 2 idx 0%nat)).

(* ------------------------------------------------------------------ *)
(** ** Notions used to state the properties *)

(** An array of finite, non-negative numbers. *)
Definition nonneg_entries (a : ndarray) : Prop :=
  Forall (fun x => exists r, x = Fin r /\ 0 <= r) (buf a).

(** [np.sqrt(e1**2 + e2**2)]: two errors added in quadrature. *)
Definition quadrature (e1 e2 : ndarray) : result ndarray :=
  s <- broadcast_op fadd (np_square e1) (np_square e2) ;; Ok (np_sqrt s).

(** The entry (k, l) of the chi-squared metric as the specification words
    it: (1/b) times the sum over the bins of
    (N[k] D[l,i] - N[l] D[k,i])^2 / ((N[k] E[l,i])^2 + (N[l] E[k,i])^2). *)
Definition chi2_formula (N D E : ndarray) (b k l : nat) : num :=
  fmul (fdiv (Fin 1) (Fin (INR b)))
       (fsum (map (fun i =>
          fdiv (fsquare (fsub (fmul (item N [k]) (item D [l; i]))
                              (fmul (item N [l]) (item D [k; i]))))
               (fadd (fsquare (fmul (item N [k]) (item E [l; i])))
                     (fsquare (fmul (item N [l]) (item E [k; i])))))
          (seq 0 b))).

(** The entries of an m x m matrix strictly above the diagonal, row after
    row, each row from left to right. *)
Definition strict_upper_row_major (M : ndarray) (m : nat) : list num :=
  flat_map (fun i => map (fun j => item M [i; j]) (seq (S i) (m - S i)))
           (seq 0 m).

(** The coordinates of the entries strictly above the diagonal of an
    m x m matrix, in row-major order. *)
Definition upper_hits (m : nat) : list (list nat) :=
  flat_map (fun i => map (fun j => [i; j]) (seq (S i) (m - S i))) (seq 0 m).

(** The error-injection calls. *)
Inductive injection : Type :=
| AddErrCov (cov : ndarray)
| AddErrUncorr (err : ndarray)
| AddErrCorr (err corr : ndarray)
| AddRelErrCov (cov : ndarray)
| AddRelErrUncorr (err : ndarray)
| AddRelErrMaxcorr (err : pyarg)
| AddRelErrCorr (err corr : ndarray).

Definition inject (c : injection) : action :=
  match c with
  | AddErrCov cov => add_err_cov cov
  | AddErrUncorr err => add_err_uncorr err
  | AddErrCorr err corr => add_err_corr err corr
  | AddRelErrCov cov => add_rel_err_cov cov
  | AddRelErrUncorr err => add_rel_err_uncorr err
  | AddRelErrMaxcorr err => add_rel_err_maxcorr err
  | AddRelErrCorr err corr => add_rel_err_corr err corr
  end.

(** The outcome of an action: it raised [ValueError] and changed nothing,
    or it returned and replaced the stored covariance, and nothing else, by
    an array of the same shape. *)
Definition frame_ok (a : action) : Prop :=
  forall dwe,
    (fst (a dwe) = Raise ValueError /\ snd (a dwe) = dwe) \/
    (fst (a dwe) = Ok tt /\
     exists c, snd (a dwe) = set_cov dwe c /\
               shape c = shape (_cov dwe) /\ wf_array c).

(* ------------------------------------------------------------------ *)
(** ** An exact matrix inverse

    [np.linalg.inv] is not part of the repository.  Where a closed example
    needs an inverse, the exact one is used: cofactor expansion in the
    arithmetic above, [LinAlgError] for a matrix that is not square or whose
    determinant is zero.  The source passes a matrix or a batch of matrices
    ([cov2corr] rejects every other rank before the inverse is taken). *)

Definition minor (A : nat -> nat -> num) (r c : nat) : nat -> nat -> num :=
  fun i j => A (if i <? r then i else S i)%nat (if j <? c then j else S j)%nat.

Definition alt_sign (k : nat) : num :=
  if Nat.even k then Fin 1 else Fin (-1).

Fixpoint det (m : nat) (A : nat -> nat -> num) : num :=
  match m with
  | O => Fin 1
  | S m' =>
      fsum (map (fun j => fmul (fmul (alt_sign j) (A 0%nat j))
                               (det m' (minor A 0 j)))
                (seq 0 m))
  end.

Definition singular (d : num) : bool :=
  match d with
  | Fin x => match Rsign x with Eq => true | _ => false end
  | _ => false
  end.

Definition inv_entry (m : nat) (A : nat -> nat -> num) (i j : nat) : num :=
  fdiv (fmul (alt_sign (i + j)) (det (m - 1) (minor A j i))) (det m A).

Definition linalg_inv_exact (a : ndarray) : result ndarray :=
  match shape a with
  | [b; c] =>
      let A := fun i j => item a [i; j] in
      if negb (b =? c)%nat || singular (det b A) then Raise LinAlgError
      else Ok (tabulate [b; c] (fun idx =>
                 inv_entry b A (nth 0 idx 0%nat) (nth 1 idx 0%nat)))
  | [m; b; c] =>
      let A := fun k i j => item a [k; i; j] in
      if negb (b =? c)%nat || existsb (fun k => singular (det b (A k))) (seq 0 m)
      then Raise LinAlgError
      else Ok (tabulate [m; b; c] (fun idx =>
                 inv_entry b (A (nth 0 idx 0%nat))
                           (nth 1 idx 0%nat) (nth 2 idx 0%nat)))
  | _ => Raise LinAlgError
  end.

(* ------------------------------------------------------------------ *)
(** ** Arrays as objects: who else holds what an accessor returns

    A numpy array is a mutable object.  The heap holds the arrays, an
    instance of [DataWithErrors] holds references to its two arrays, and an
    accessor returns a reference: to a newly allocated array where the
    source builds its result with an operation that allocates ([np.array],
    arithmetic, [np.sqrt], [einsum]), to the attribute itself where the
    source returns the attribute. *)

Definition loc : Type := nat.
Definition heap : Type := list ndarray.

Definition alloc (h : heap) (a : ndarray) : loc * heap := (length h, (h ++ [a])%list).

Definition deref (h : heap) (l : loc) : option ndarray := nth_error h l.

(** Overwriting the contents of the array at [l] (as [x[...] = v] does). *)
Fixpoint overwrite (h : heap) (l : loc) (a : ndarray) : heap :=
  match h, l with
  | [], _ => []
  | _ :: t, O => a :: t
  | x :: t, S l' => x :: overwrite t l' a
  end.

Record instance : Type := mkInstance {
  data_at : loc;
  cov_at : loc;
  n_of : nat;
  nbins_of : nat
}.

(** The dataset an instance stands for in a heap. *)
Definition view (h : heap) (o : instance) : option DataWithErrors :=
  match deref h (data_at o), deref h (cov_at o) with
  | Some d, Some c => Some (mkDWE d (n_of o) (nbins_of o) c)
  | _, _ => None
  end.

Inductive accessor : Type :=
| GetData (normalize decorrelate : bool)
| GetCov (relative : bool)
| GetCorr
| GetErr (relative : bool)
| GetChi2.

Definition fresh (h : heap) (r : result ndarray) : result loc * heap :=
  match r with
  | Ok a => let (l, h') := alloc h a in (Ok l, h')
  | Raise e => (Raise e, h)
  end.

(** An accessor call on the instance [o], which stands for [dwe] in [h]. *)
Definition call (linalg_inv : ndarray -> result ndarray) (acc : accessor)
  (o : instance) (dwe : DataWithErrors) (h : heap) : result loc * heap :=
  match acc with
  | GetData normalize decorrelate =>
      fresh h (data linalg_inv dwe normalize decorrelate)
  | GetCov relative =>
      if negb relative then (Ok (cov_at o), h)
      else fresh h (abs2rel_cov (_cov dwe) (data linalg_inv dwe))
  | GetCorr => fresh h (corr dwe)
  | GetErr relative => fresh h (err dwe relative)
  | GetChi2 => fresh h (chi2_metric linalg_inv dwe)
  end.

(* ------------------------------------------------------------------ *)
(** ** Example datasets *)

(** Two histograms of two bins, [[1, 1], [2, 2]], no error added yet. *)
Definition square_batch : DataWithErrors :=
  mkDWE (mkarr [2; 2]%nat [Fin 1; Fin 1; Fin 2; Fin 2]) 2 2
        (np_zeros [2; 2; 2]%nat).

(** Two histograms of one bin, [[0], [3]], with unit variance. *)
Definition empty_and_full : DataWithErrors :=
  mkDWE (mkarr [2; 1]%nat [Fin 0; Fin 3]) 2 1
        (mkarr [2; 1; 1]%nat [Fin 1; Fin 1]).

(** Two histograms of one bin, [[2], [3]], with unit variance. *)
Definition two_full : DataWithErrors :=
  mkDWE (mkarr [2; 1]%nat [Fin 2; Fin 3]) 2 1
        (mkarr [2; 1; 1]%nat [Fin 1; Fin 1]).

(** What the accessors return on [two_full]. *)
Definition two_full_norms : ndarray := mkarr [2]%nat [Fin 2; Fin 3].
Definition two_full_data : ndarray := mkarr [2; 1]%nat [Fin 2; Fin 3].
Definition two_full_err : ndarray := mkarr [2; 1]%nat [Fin 1; Fin 1].
Definition two_full_chi2 : ndarray := mkarr [2; 2]%nat [Fin 0; Fin 0; Fin 0; Fin 0].

(** A 2 x 2 covariance matrix, two 2 x 2 error arrays and a 3 x 3 distance
    matrix. *)
Definition cov_2x2 : ndarray := mkarr [2; 2]%nat [Fin 4; Fin 1; Fin 1; Fin 9].
Definition err_a : ndarray := mkarr [2; 2]%nat [Fin 1; Fin 2; Fin 3; Fin 4].
Definition err_b : ndarray := mkarr [2; 2]%nat [Fin 2; Fin 0; Fin 1; Fin 5].
Definition dist_3x3 : ndarray :=
  mkarr [3; 3]%nat [Fin 0; Fin 1; Fin 2; Fin 1; Fin 0; Fin 3; Fin 2; Fin 3; Fin 0].

(** A vector of three numbers: it does not broadcast against 2 x 2 x 2. *)
Definition vec_3 : ndarray := mkarr [3]%nat [Fin 1; Fin 1; Fin 1].

(** A heap holding the two arrays of [square_batch], and the instance. *)
Definition square_heap : heap := [_data square_batch; _cov square_batch].
Definition square_instance : instance := mkInstance 0%nat 1%nat 2%nat 2%nat.

(* ------------------------------------------------------------------ *)
(** ** Further notions and examples *)

(** An array of finite numbers. *)
Definition finite_entries (a : ndarray) : Prop :=
  Forall (fun x => exists r, x = Fin r) (buf a).

(** An array of finite, strictly positive numbers. *)
Definition positive_entries (a : ndarray) : Prop :=
  Forall (fun x => exists r, x = Fin r /\ 0 < r) (buf a).

(** The covariance an error-injection call adds: what the call computes
    from its arguments and the data before it reaches [add_err_cov]. *)
Definition increment (c : injection) (dwe : DataWithErrors) : result ndarray :=
  match c with
  | AddErrCov cov => Ok cov
  | AddErrUncorr err =>
      corr2cov (np_tile (np_identity (nbins dwe)) [n dwe; 1; 1]%nat) err
  | AddErrCorr err corr => corr2cov corr err
  | AddRelErrCov cov => rel2abs_cov cov (_data dwe)
  | AddRelErrUncorr err =>
      c <- corr2cov (np_identity (nbins dwe)) err ;; rel2abs_cov c (_data dwe)
  | AddRelErrMaxcorr err =>
      let err := match err with
                 | PyFloat x => tabulate [nbins dwe] (fun _ => x)
                 | PyArray a => a
                 end in
      c <- corr2cov (np_ones [nbins dwe; nbins dwe]) err ;;
      rel2abs_cov c (_data dwe)
  | AddRelErrCorr err corr =>
      c <- corr2cov corr err ;; rel2abs_cov c (_data dwe)
  end.

(** Every method that changes the dataset. *)
Inductive mutation : Type :=
| Inject (c : injection)
| AddPoissonError.

Definition mutate (m : mutation) : action :=
  match m with
  | Inject c => inject c
  | AddPoissonError => add_poisson_error
  end.

(** A sequence of calls, failed ones included. *)
Definition run_all (ms : list mutation) (dwe : DataWithErrors)
  : DataWithErrors :=
  fold_left (fun d m => snd (mutate m d)) ms dwe.

(** A batch of two 2 x 2 covariance matrices, a batch of two correlation
    matrices and a batch of positive errors. *)
Definition cov_batch : ndarray :=
  mkarr [2; 2; 2]%nat [Fin 4; Fin 1; Fin 1; Fin 9; Fin 1; Fin 0; Fin 0; Fin 1].
Definition corr_batch : ndarray :=
  mkarr [2; 2; 2]%nat
        [Fin 1; Fin (1 / 2); Fin (1 / 2); Fin 1; Fin 1; Fin 0; Fin 0; Fin 1].
Definition err_pos : ndarray := mkarr [2; 2]%nat [Fin 1; Fin 2; Fin 3; Fin 4].

(** A vector of two relative errors. *)
Definition rel_err_2 : ndarray := mkarr [2]%nat [Fin (1 / 10); Fin (1 / 5)].

(** One histogram of three bins, [[1, 2, 5]], no error added yet; two
    histograms of three bins; three histograms of one bin. *)
Definition single_histogram : DataWithErrors :=
  mkDWE (mkarr [1; 3]%nat [Fin 1; Fin 2; Fin 5]) 1 3 (np_zeros [1; 3; 3]%nat).
Definition wide_batch : DataWithErrors :=
  mkDWE (mkarr [2; 3]%nat [Fin 1; Fin 2; Fin 5; Fin 2; Fin 2; Fin 4]) 2 3
        (np_zeros [2; 3; 3]%nat).
Definition column_batch : DataWithErrors :=
  mkDWE (mkarr [3; 1]%nat [Fin 1; Fin 2; Fin 5]) 3 1 (np_zeros [3; 1; 1]%nat).

(** A 3 x 2 and a 2 x 3 array. *)
Definition tall_3x2 : ndarray :=
  mkarr [3; 2]%nat [Fin 0; Fin 1; Fin 1; Fin 0; Fin 2; Fin 3].
Definition wide_2x3 : ndarray :=
  mkarr [2; 3]%nat [Fin 0; Fin 1; Fin 2; Fin 1; Fin 0; Fin 3].

(** One histogram of two bins whose errors are fully correlated: its
    correlation matrix is singular. *)
Definition fully_correlated : DataWithErrors :=
  mkDWE (mkarr [1; 2]%nat [Fin 1; Fin 2]) 1 2
        (mkarr [1; 2; 2]%nat [Fin 1; Fin 1; Fin 1; Fin 1]).

(* ------------------------------------------------------------------ *)
(** * Row-major indexing *)

Lemma nth_flat_map_blocks {A : Type} (g : nat -> list A) (m : nat) (dflt : A) :
  forall d a i r,
    (forall x, length (g x) = m) ->
    (i < d)%nat -> (r < m)%nat ->
    nth (i * m + r) (flat_map g (seq a d)) dflt = nth r (g (a + i)%nat) dflt.
Proof.
  induction d as [|d IH]; intros a i r Hg Hi Hr; [lia|].
  cbn [seq flat_map].
  destruct i as [|i].
  - rewrite Nat.add_0_r. cbn. rewrite app_nth1 by (rewrite Hg; lia). reflexivity.
  - rewrite app_nth2 by (rewrite Hg; cbn; lia).
    rewrite Hg. replace (S i * m + r - m)%nat with (i * m + r)%nat by (cbn; lia).
    rewrite IH by (auto; lia). f_equal. f_equal. lia.
Qed.

Lemma length_flat_map_blocks {A : Type} (g : nat -> list A) (m : nat) :
  forall d a, (forall x, length (g x) = m) ->
    length (flat_map g (seq a d)) = (d * m)%nat.
Proof.
  induction d as [|d IH]; intros a Hg; [reflexivity|].
  cbn [seq flat_map]. rewrite length_app, Hg, IH by auto. cbn. lia.
Qed.

Lemma length_indices (s : list nat) : length (indices s) = size s.
Proof.
  induction s as [|d s IH]; [reflexivity|].
  cbn [indices size fold_right].
  rewrite (length_flat_map_blocks _ (size s)); [reflexivity|].
  intros x. rewrite length_map. exact IH.
Qed.

Lemma offset_lt (s idx : list nat) :
  in_range s idx -> (offset s idx < size s)%nat.
Proof.
  unfold in_range. intros H. induction H as [|i d idx s Hi H IH].
  - cbn. lia.
  - cbn [offset size fold_right]. fold (size s). nia.
Qed.

Lemma nth_offset_indices (s idx : list nat) (dflt : list nat) :
  in_range s idx -> nth (offset s idx) (indices s) dflt = idx.
Proof.
  unfold in_range. intros H. induction H as [|i d idx s Hi H IH].
  - reflexivity.
  - cbn [offset indices].
    rewrite (nth_flat_map_blocks _ (size s)).
    + cbn [Nat.add].
      rewrite (nth_indep _ dflt (i :: dflt)).
      * rewrite (map_nth (cons i)). rewrite IH. reflexivity.
      * rewrite length_map, length_indices. apply offset_lt. exact H.
    + intros x. rewrite length_map. apply length_indices.
    + exact Hi.
    + apply offset_lt. exact H.
Qed.

Lemma in_indices (s idx : list nat) :
  In idx (indices s) <-> in_range s idx.
Proof.
  unfold in_range. revert idx. induction s as [|d s IH]; intros idx.
  - cbn. split.
    + intros [<-|[]]. constructor.
    + intros H. inversion H. now left.
  - cbn [indices]. rewrite in_flat_map. split.
    + intros (i & Hi & Hin). apply in_map_iff in Hin as (idx' & <- & Hin).
      apply in_seq in Hi. constructor; [lia|]. now apply IH.
    + intros H. inversion H as [|i d' idx' s' Hi Hr]; subst.
      exists i. split; [apply in_seq; lia|].
      apply in_map. now apply IH.
Qed.

Lemma item_tabulate (s : list nat) (f : list nat -> num) (idx : list nat) :
  in_range s idx -> item (tabulate s f) idx = f idx.
Proof.
  intros H. unfold item, tabulate. cbn [shape buf].
  rewrite (nth_indep _ NaN (f idx)).
  - rewrite map_nth. f_equal. now apply nth_offset_indices.
  - rewrite length_map, length_indices. now apply offset_lt.
Qed.

Lemma shape_tabulate (s : list nat) f : shape (tabulate s f) = s.
Proof. reflexivity. Qed.

Lemma wf_tabulate (s : list nat) f : wf_array (tabulate s f).
Proof. unfold wf_array, tabulate. cbn. now rewrite length_map, length_indices. Qed.

Lemma tabulate_ext (s : list nat) (f g : list nat -> num) :
  (forall idx, in_range s idx -> f idx = g idx) ->
  tabulate s f = tabulate s g.
Proof.
  intros H. unfold tabulate. f_equal. apply map_ext_in.
  intros idx Hin. apply H. now apply in_indices.
Qed.

Lemma map_add_seq (k m a : nat) :
  map (fun o => (k + o)%nat) (seq a m) = seq (k + a) m.
Proof.
  revert a. induction m as [|m IH]; intros a; [reflexivity|].
  cbn [seq map]. f_equal. rewrite IH. f_equal. lia.
Qed.

Lemma map_offset_indices (s : list nat) :
  map (offset s) (indices s) = seq 0 (size s).
Proof.
  induction s as [|d s IH]; [reflexivity|].
  cbn [indices size fold_right]. fold (size s).
  rewrite flat_map_concat_map, concat_map, map_map.
  assert (E : forall a, concat (map (fun i =>
               map (offset (d :: s)) (map (cons i) (indices s))) (seq a d))
             = seq (a * size s) (d * size s)).
  { induction d as [|d' IHd]; intros a; [reflexivity|].
    cbn [seq map concat]. rewrite IHd.
    rewrite map_map. cbn [offset].
    rewrite <- (map_map (offset s) (fun o => (a * size s + o)%nat)), IH.
    replace (S d' * size s)%nat with (size s + d' * size s)%nat by (cbn; lia).
    rewrite seq_app. f_equal.
    - rewrite map_add_seq. f_equal. lia.
    - f_equal. cbn. lia. }
  apply (E 0%nat).
Qed.

(** A well-formed array is the table of its own entries. *)
Lemma tabulate_item (a : ndarray) :
  wf_array a -> tabulate (shape a) (item a) = a.
Proof.
  destruct a as [s b]. unfold wf_array, tabulate, item. cbn [shape buf].
  intros H. f_equal.
  rewrite <- (map_map (offset s) (fun o => nth o b NaN)), map_offset_indices.
  rewrite <- H. clear H.
  induction b as [|x b IH]; [reflexivity|].
  cbn [length seq map nth]. f_equal.
  rewrite <- seq_shift, map_map. exact IH.
Qed.

(** Arrays are equal when they have the same shape and the same entries. *)
Lemma array_ext (a b : ndarray) :
  wf_array a -> wf_array b -> shape a = shape b ->
  (forall idx, in_range (shape a) idx -> item a idx = item b idx) ->
  a = b.
Proof.
  intros Ha Hb Hs H.
  rewrite <- (tabulate_item a Ha), <- (tabulate_item b Hb), <- Hs.
  now apply tabulate_ext.
Qed.

Lemma in_range1 d i : (i < d)%nat -> in_range [d] [i].
Proof. intros. repeat constructor; assumption. Qed.
Lemma in_range2 d0 d1 i j : (i < d0)%nat -> (j < d1)%nat -> in_range [d0; d1] [i; j].
Proof. intros. repeat constructor; assumption. Qed.
Lemma in_range3 d0 d1 d2 k i j :
  (k < d0)%nat -> (i < d1)%nat -> (j < d2)%nat -> in_range [d0; d1; d2] [k; i; j].
Proof. intros. repeat constructor; assumption. Qed.

Lemma in_range1_inv d idx : in_range [d] idx -> exists i, idx = [i] /\ (i < d)%nat.
Proof.
  intros H. inversion H as [|i ? r ? Hi Hr]; subst. inversion Hr; subst. eauto.
Qed.
Lemma in_range2_inv d0 d1 idx :
  in_range [d0; d1] idx -> exists i j, idx = [i; j] /\ (i < d0)%nat /\ (j < d1)%nat.
Proof.
  intros H. inversion H as [|i ? r ? Hi Hr]; subst.
  apply in_range1_inv in Hr as (j & -> & Hj). eauto.
Qed.
Lemma in_range3_inv d0 d1 d2 idx :
  in_range [d0; d1; d2] idx ->
  exists k i j, idx = [k; i; j] /\ (k < d0)%nat /\ (i < d1)%nat /\ (j < d2)%nat.
Proof.
  intros H. inversion H as [|k ? r ? Hk Hr]; subst.
  apply in_range2_inv in Hr as (i & j & -> & Hi & Hj). eauto 7.
Qed.

Lemma item_tab1 d f i : (i < d)%nat -> item (tab1 d f) [i] = f i.
Proof. intros. unfold tab1. rewrite item_tabulate by now apply in_range1. reflexivity. Qed.
Lemma item_tab2 d0 d1 f i j :
  (i < d0)%nat -> (j < d1)%nat -> item (tab2 d0 d1 f) [i; j] = f i j.
Proof. intros. unfold tab2. rewrite item_tabulate by now apply in_range2. reflexivity. Qed.
Lemma item_tab3 d0 d1 d2 f k i j :
  (k < d0)%nat -> (i < d1)%nat -> (j < d2)%nat ->
  item (tab3 d0 d1 d2 f) [k; i; j] = f k i j.
Proof. intros. unfold tab3. rewrite item_tabulate by now apply in_range3. reflexivity. Qed.

Lemma tabulate_tab1 d g f :
  (forall i, (i < d)%nat -> g [i] = f i) -> tabulate [d] g = tab1 d f.
Proof.
  intros H. apply tabulate_ext. intros idx Hr.
  apply in_range1_inv in Hr as (i & -> & Hi). now apply H.
Qed.
Lemma tabulate_tab2 d0 d1 g f :
  (forall i j, (i < d0)%nat -> (j < d1)%nat -> g [i; j] = f i j) ->
  tabulate [d0; d1] g = tab2 d0 d1 f.
Proof.
  intros H. apply tabulate_ext. intros idx Hr.
  apply in_range2_inv in Hr as (i & j & -> & Hi & Hj). now apply H.
Qed.
Lemma tabulate_tab3 d0 d1 d2 g f :
  (forall k i j, (k < d0)%nat -> (i < d1)%nat -> (j < d2)%nat ->
                 g [k; i; j] = f k i j) ->
  tabulate [d0; d1; d2] g = tab3 d0 d1 d2 f.
Proof.
  intros H. apply tabulate_ext. intros idx Hr.
  apply in_range3_inv in Hr as (k & i & j & -> & Hk & Hi & Hj). now apply H.
Qed.

(** Reading a broadcast axis: within range the index is kept. *)
Lemma bsel (d i : nat) : (i < d)%nat -> (if (d =? 1)%nat then 0%nat else i) = i.
Proof. intros H. destruct (Nat.eqb_spec d 1); lia. Qed.

Lemma bdim_same d : bdim d d = Some d.
Proof. unfold bdim. now rewrite Nat.eqb_refl. Qed.

Lemma bdim_1_l d : bdim 1 d = Some d.
Proof. unfold bdim. destruct (Nat.eqb_spec 1 d); [now subst|reflexivity]. Qed.

Lemma unify_repeat d m : unify (d :: repeat d m) = Some d.
Proof.
  unfold unify. cbn [fold_left]. rewrite bdim_1_l.
  induction m as [|m IH]; [reflexivity|].
  cbn [repeat fold_left]. now rewrite bdim_same.
Qed.

Lemma unify1 d : unify [d] = Some d.
Proof. exact (unify_repeat d 0). Qed.
Lemma unify2 d : unify [d; d] = Some d.
Proof. exact (unify_repeat d 1). Qed.
Lemma unify3 d : unify [d; d; d] = Some d.
Proof. exact (unify_repeat d 2). Qed.

Lemma fadd_0_l a : fadd (Fin 0) a = a.
Proof. destruct a; cbn; try reflexivity. f_equal. lra. Qed.

Lemma fsum_single a : fsum [a] = a.
Proof. apply fadd_0_l. Qed.


Lemma indices1 (d : nat) : indices [d] = map (fun i => [i]) (seq 0 d).
Proof.
  cbn [indices]. generalize 0%nat as a.
  induction d as [|d IH]; intros a; [reflexivity|].
  cbn [seq flat_map map app]. now rewrite IH.
Qed.

Lemma fsum_indices1 (d : nat) (f : list nat -> num) (g : nat -> num) :
  (forall i, (i < d)%nat -> f [i] = g i) ->
  fsum (map f (indices [d])) = fsum (map g (seq 0 d)).
Proof.
  intros H. rewrite indices1, map_map. f_equal. apply map_ext_in.
  intros i Hi. apply in_seq in Hi. apply H. lia.
Qed.

(** Evaluate the subscript parser and the label bookkeeping of an [einsum]
    call whose operands have known shapes. *)
Ltac einsum_unfold :=
  unfold einsum;
  match goal with
  | |- context [parse_subscripts ?s] =>
      let p := eval vm_compute in (parse_subscripts s) in
      change (parse_subscripts s) with p
  end;
  cbv beta iota; unfold einsum_labels, rank;
  cbn -[unify tabulate indices item fsum];
  rewrite ?unify1, ?unify2, ?unify3; cbv beta iota.

Lemma einsum_kij_ki_kj (corr err : ndarray) (n b : nat) :
  shape corr = [n; b; b] -> shape err = [n; b] ->
  einsum "kij,ki,kj->kij"%string [corr; err; err]
  = Ok (tab3 n b b (fun k i j =>
          fmul (fmul (item corr [k; i; j]) (item err [k; i])) (item err [k; j]))).
Proof.
  destruct corr as [sc bc], err as [se be]. cbn [shape]. intros -> ->.
  einsum_unfold. f_equal. apply tabulate_tab3. intros k i j Hk Hi Hj.
  cbn -[item fsum fmul]. rewrite fsum_single, !(bsel _ _ Hk), !(bsel _ _ Hi), !(bsel _ _ Hj).
  reflexivity.
Qed.

Lemma einsum_ij_i_j (corr err : ndarray) (b : nat) :
  shape corr = [b; b] -> shape err = [b] ->
  einsum "ij,i,j->ij"%string [corr; err; err]
  = Ok (tab2 b b (fun i j =>
          fmul (fmul (item corr [i; j]) (item err [i])) (item err [j]))).
Proof.
  destruct corr as [sc bc], err as [se be]. cbn [shape]. intros -> ->.
  einsum_unfold. f_equal. apply tabulate_tab2. intros i j Hi Hj.
  cbn -[item fsum fmul]. rewrite fsum_single, !(bsel _ _ Hi), !(bsel _ _ Hj).
  reflexivity.
Qed.

Lemma einsum_ki_kj (err : ndarray) (n b : nat) :
  shape err = [n; b] ->
  einsum "ki,kj->kij"%string [err; err]
  = Ok (tab3 n b b (fun k i j => fmul (item err [k; i]) (item err [k; j]))).
Proof.
  destruct err as [se be]. cbn [shape]. intros ->.
  einsum_unfold. f_equal. apply tabulate_tab3. intros k i j Hk Hi Hj.
  cbn -[item fsum fmul]. rewrite fsum_single, !(bsel _ _ Hk), !(bsel _ _ Hi), !(bsel _ _ Hj).
  reflexivity.
Qed.

Lemma einsum_ij_ki_kj (cov data : ndarray) (n b : nat) :
  shape cov = [b; b] -> shape data = [n; b] ->
  einsum "ij,ki,kj->kij"%string [cov; data; data]
  = Ok (tab3 n b b (fun k i j =>
          fmul (fmul (item cov [i; j]) (item data [k; i])) (item data [k; j]))).
Proof.
  destruct cov as [sc bc], data as [sd bd]. cbn [shape]. intros -> ->.
  einsum_unfold. f_equal. apply tabulate_tab3. intros k i j Hk Hi Hj.
  cbn -[item fsum fmul]. rewrite fsum_single, !(bsel _ _ Hk), !(bsel _ _ Hi), !(bsel _ _ Hj).
  reflexivity.
Qed.

Lemma einsum_k_li (v d : ndarray) (n m b : nat) :
  shape v = [n] -> shape d = [m; b] ->
  einsum "k,li->kli"%string [v; d]
  = Ok (tab3 n m b (fun k l i => fmul (item v [k]) (item d [l; i]))).
Proof.
  destruct v as [sv bv], d as [sd bd]. cbn [shape]. intros -> ->.
  einsum_unfold. f_equal. apply tabulate_tab3. intros k l i Hk Hl Hi.
  cbn -[item fsum fmul]. rewrite fsum_single, !(bsel _ _ Hk), !(bsel _ _ Hi), !(bsel _ _ Hl).
  reflexivity.
Qed.

Lemma einsum_kij_kj (inverses ret : ndarray) (n b : nat) :
  shape inverses = [n; b; b] -> shape ret = [n; b] ->
  einsum "kij,kj->ki"%string [inverses; ret]
  = Ok (tab2 n b (fun k i =>
          fsum (map (fun j => fmul (item inverses [k; i; j]) (item ret [k; j]))
                    (seq 0 b)))).
Proof.
  destruct inverses as [si bi], ret as [sr br]. cbn [shape]. intros -> ->.
  einsum_unfold. f_equal. apply tabulate_tab2. intros k i Hk Hi.
  apply fsum_indices1. intros j Hj.
  cbn -[item fsum fmul]. rewrite !(bsel _ _ Hk), !(bsel _ _ Hi), !(bsel _ _ Hj).
  reflexivity.
Qed.

Lemma einsum_kli (summand : ndarray) (n m b : nat) :
  shape summand = [n; m; b] ->
  einsum "kli->kl"%string [summand]
  = Ok (tab2 n m (fun k l =>
          fsum (map (fun i => item summand [k; l; i]) (seq 0 b)))).
Proof.
  destruct summand as [ss bs]. cbn [shape]. intros ->.
  einsum_unfold. f_equal. apply tabulate_tab2. intros k l Hk Hl.
  apply fsum_indices1. intros i Hi.
  cbn -[item fsum fmul]. rewrite !(bsel _ _ Hk), !(bsel _ _ Hi), !(bsel _ _ Hl).
  reflexivity.
Qed.

(* ------------------------------------------------------------------ *)
(** * Broadcasting between operands of one shape, and against a scalar *)

Lemma bshape_rev_same (s : list nat) : bshape_rev s s = Some s.
Proof.
  induction s as [|d s IH]; [reflexivity|].
  cbn [bshape_rev]. now rewrite bdim_same, IH.
Qed.

Lemma broadcast_shapes_same (s : list nat) : broadcast_shapes s s = Some s.
Proof.
  unfold broadcast_shapes. rewrite bshape_rev_same. cbn. now rewrite rev_involutive.
Qed.

Lemma broadcast_shapes_nil_r (s : list nat) : broadcast_shapes s [] = Some s.
Proof.
  unfold broadcast_shapes. cbn [rev].
  replace (bshape_rev (rev s) []) with (Some (rev s)) by now destruct (rev s).
  cbn. now rewrite rev_involutive.
Qed.

Lemma bindex_same (s idx : list nat) : in_range s idx -> bindex s idx = idx.
Proof.
  intros H. unfold bindex.
  assert (L : length idx = length s) by (eapply Forall2_length; exact H).
  rewrite L, Nat.sub_diag. cbn [skipn]. unfold map2.
  induction H as [|i d idx s Hi H IH]; [reflexivity|].
  cbn [combine map fst snd]. rewrite bsel by assumption. f_equal.
  apply IH. now inversion L.
Qed.

Lemma shape_eqb_refl (s : list nat) : shape_eqb s s = true.
Proof. induction s; cbn; [reflexivity|]. now rewrite Nat.eqb_refl. Qed.

Lemma shape_eqb_eq (s t : list nat) : shape_eqb s t = true -> s = t.
Proof.
  revert t. induction s as [|d s IH]; intros [|e t]; cbn; try discriminate; auto.
  intros H. apply andb_prop in H as [H1 H2].
  apply Nat.eqb_eq in H1. subst. f_equal. auto.
Qed.

Lemma broadcast_op_same f (a b : ndarray) (s : list nat) :
  shape a = s -> shape b = s ->
  broadcast_op f a b = Ok (tabulate s (fun idx => f (item a idx) (item b idx))).
Proof.
  intros Ha Hb. unfold broadcast_op. rewrite Ha, Hb, broadcast_shapes_same.
  f_equal. apply tabulate_ext. intros idx Hr. now rewrite bindex_same.
Qed.

Lemma inplace_op_same f (a b : ndarray) (s : list nat) :
  shape a = s -> shape b = s ->
  inplace_op f a b = Ok (tabulate s (fun idx => f (item a idx) (item b idx))).
Proof.
  intros Ha Hb. unfold inplace_op.
  rewrite Ha, Hb, broadcast_shapes_same, shape_eqb_refl.
  f_equal. apply tabulate_ext. intros idx Hr. now rewrite bindex_same.
Qed.

Lemma broadcast_op_scalar f (a : ndarray) (x : num) :
  broadcast_op f a (scalar x)
  = Ok (tabulate (shape a) (fun idx => f (item a idx) x)).
Proof.
  unfold broadcast_op. cbn [scalar shape]. rewrite broadcast_shapes_nil_r.
  f_equal. apply tabulate_ext. intros idx Hr. now rewrite bindex_same.
Qed.

(** In-place operations either fail or keep the shape of the target. *)
Lemma inplace_op_shape f (a b r : ndarray) :
  inplace_op f a b = Ok r -> shape r = shape a /\ wf_array r.
Proof.
  unfold inplace_op. destruct (broadcast_shapes _ _) as [s|]; [|discriminate].
  destruct (shape_eqb s (shape a)) eqn:E; [|discriminate].
  intros [= <-]. apply shape_eqb_eq in E. split; [exact E|apply wf_tabulate].
Qed.

Lemma inplace_op_raises f (a b : ndarray) (e : exn) :
  inplace_op f a b = Raise e -> e = ValueError.
Proof.
  unfold inplace_op. destruct (broadcast_shapes _ _) as [s|]; [|congruence].
  destruct (shape_eqb s (shape a)); congruence.
Qed.

Lemma broadcast_op_raises f (a b : ndarray) (e : exn) :
  broadcast_op f a b = Raise e -> e = ValueError.
Proof.
  unfold broadcast_op. destruct (broadcast_shapes _ _) as [s|]; congruence.
Qed.

(* ------------------------------------------------------------------ *)
(** * Element-wise maps, diagonals, transposition, tiling *)

Lemma map_arr_tabulate (g : num -> num) (s : list nat) f :
  map_arr g (tabulate s f) = tabulate s (fun idx => g (f idx)).
Proof. unfold map_arr, tabulate. cbn [shape buf]. now rewrite map_map. Qed.

Lemma item_map_arr (g : num -> num) (a : ndarray) (idx : list nat) :
  g NaN = NaN -> item (map_arr g a) idx = g (item a idx).
Proof.
  intros H. unfold item, map_arr. cbn [shape buf].
  rewrite <- H at 1. apply map_nth.
Qed.

Lemma wf_map_arr g (a : ndarray) : wf_array a -> wf_array (map_arr g a).
Proof. unfold wf_array, map_arr. cbn. now rewrite length_map. Qed.

Lemma diagonal_2d (a : ndarray) (b : nat) :
  shape a = [b; b] ->
  diagonal a 0 1 = Ok (tab1 b (fun i => item a [i; i])).
Proof.
  intros H. unfold diagonal. rewrite H, Nat.min_id. reflexivity.
Qed.

Lemma diagonal_3d (a : ndarray) (n b : nat) :
  shape a = [n; b; b] ->
  diagonal a 1 2 = Ok (tab2 n b (fun k i => item a [k; i; i])).
Proof.
  intros H. unfold diagonal. rewrite H, Nat.min_id. reflexivity.
Qed.

Lemma np_sqrt_tab1 d f : np_sqrt (tab1 d f) = tab1 d (fun i => fsqrt (f i)).
Proof. apply map_arr_tabulate. Qed.
Lemma np_sqrt_tab2 d0 d1 f :
  np_sqrt (tab2 d0 d1 f) = tab2 d0 d1 (fun i j => fsqrt (f i j)).
Proof. apply map_arr_tabulate. Qed.
Lemma np_square_tab3 d0 d1 d2 f :
  np_square (tab3 d0 d1 d2 f) = tab3 d0 d1 d2 (fun k i j => fsquare (f k i j)).
Proof. apply map_arr_tabulate. Qed.
Lemma np_square_tab2 d0 d1 f :
  np_square (tab2 d0 d1 f) = tab2 d0 d1 (fun i j => fsquare (f i j)).
Proof. apply map_arr_tabulate. Qed.

Lemma length_buf_tab1 d f : length (buf (tab1 d f)) = d.
Proof.
  unfold tab1, tabulate. cbn [buf]. rewrite length_map, length_indices.
  cbn. lia.
Qed.

Lemma nth_buf_rank1 (a : ndarray) (d i : nat) :
  shape a = [d] -> nth i (buf a) NaN = item a [i].
Proof.
  intros H. unfold item. rewrite H. cbn [offset size fold_right].
  f_equal. lia.
Qed.

Lemma np_outer_tab1 d f :
  np_outer (tab1 d f) (tab1 d f)
  = tab2 d d (fun i j => fmul (f i) (f j)).
Proof.
  unfold np_outer. rewrite length_buf_tab1.
  apply tabulate_tab2. intros i j Hi Hj. cbn [nth].
  rewrite !(nth_buf_rank1 _ d) by reflexivity.
  now rewrite !item_tab1.
Qed.

Lemma np_transpose_102 (a : ndarray) (n m b : nat) :
  shape a = [n; m; b] ->
  np_transpose a [1; 0; 2]%nat = Ok (tab3 m n b (fun l k i => item a [k; l; i])).
Proof.
  destruct a as [s bf]. cbn [shape]. intros ->.
  unfold np_transpose, rank. cbn [shape length is_permutation].
  cbn -[tabulate item]. f_equal.
Qed.

(* ------------------------------------------------------------------ *)
(** * Arithmetic on finite values *)

Lemma Rsign_pos (x : R) : 0 < x -> Rsign x = Gt.
Proof. intros H. unfold Rsign. destruct (total_order_T x 0) as [[?|?]|?]; try lra; reflexivity. Qed.

Lemma Rsign_neg (x : R) : x < 0 -> Rsign x = Lt.
Proof. intros H. unfold Rsign. destruct (total_order_T x 0) as [[?|?]|?]; try lra; reflexivity. Qed.

Lemma Rsign_zero (x : R) : x = 0 -> Rsign x = Eq.
Proof. intros H. unfold Rsign. destruct (total_order_T x 0) as [[?|?]|?]; try lra; reflexivity. Qed.

Lemma Rsign_nonneg (x : R) : 0 <= x -> Rsign x <> Lt.
Proof. intros H. unfold Rsign. destruct (total_order_T x 0) as [[?|?]|?]; try lra; discriminate. Qed.

Lemma fsqrt_fin (x : R) : 0 <= x -> fsqrt (Fin x) = Fin (sqrt x).
Proof.
  intros H. cbn. pose proof (Rsign_nonneg x H).
  destruct (Rsign x); congruence.
Qed.

Lemma fdiv_fin (x y : R) : y <> 0 -> fdiv (Fin x) (Fin y) = Fin (x / y).
Proof.
  intros H. cbn. unfold Rsign.
  destruct (total_order_T y 0) as [[?|?]|?]; try lra; reflexivity.
Qed.

Lemma fdiv_0_0 (x y : R) : x = 0 -> y = 0 -> fdiv (Fin x) (Fin y) = NaN.
Proof. intros Hx Hy. cbn. now rewrite (Rsign_zero y Hy), (Rsign_zero x Hx). Qed.

Lemma tab1_ext d f g :
  (forall i, (i < d)%nat -> f i = g i) -> tab1 d f = tab1 d g.
Proof. intros H. apply tabulate_tab1. intros. cbn. auto. Qed.
Lemma tab2_ext d0 d1 f g :
  (forall i j, (i < d0)%nat -> (j < d1)%nat -> f i j = g i j) ->
  tab2 d0 d1 f = tab2 d0 d1 g.
Proof. intros H. apply tabulate_tab2. intros. cbn. auto. Qed.
Lemma tab3_ext d0 d1 d2 f g :
  (forall k i j, (k < d0)%nat -> (i < d1)%nat -> (j < d2)%nat -> f k i j = g k i j) ->
  tab3 d0 d1 d2 f = tab3 d0 d1 d2 g.
Proof. intros H. apply tabulate_tab3. intros. cbn. auto. Qed.

Lemma wf_tab1 d f : wf_array (tab1 d f). Proof. apply wf_tabulate. Qed.
Lemma wf_tab2 d0 d1 f : wf_array (tab2 d0 d1 f). Proof. apply wf_tabulate. Qed.
Lemma wf_tab3 d0 d1 d2 f : wf_array (tab3 d0 d1 d2 f). Proof. apply wf_tabulate. Qed.

(* ------------------------------------------------------------------ *)
(** * The covariance algebra on a matrix and on a batch *)

Lemma cov2err_2d (C : ndarray) (b : nat) :
  shape C = [b; b] ->
  cov2err C = Ok (tab1 b (fun i => fsqrt (item C [i; i]))).
Proof.
  intros H. unfold cov2err, rank. rewrite H. cbn [length Nat.eqb].
  rewrite (diagonal_2d _ b H). cbn [bind]. now rewrite np_sqrt_tab1.
Qed.

Lemma cov2err_3d (cov : ndarray) (n b : nat) :
  shape cov = [n; b; b] ->
  cov2err cov = Ok (tab2 n b (fun k i => fsqrt (item cov [k; i; i]))).
Proof.
  intros H. unfold cov2err, rank. rewrite H. cbn [length Nat.eqb].
  rewrite (diagonal_3d _ n b H). cbn [bind]. now rewrite np_sqrt_tab2.
Qed.

Lemma cov2corr_2d (C : ndarray) (b : nat) :
  shape C = [b; b] ->
  cov2corr C = Ok (tab2 b b (fun i j =>
    fdiv (item C [i; j]) (fmul (fsqrt (item C [i; i])) (fsqrt (item C [j; j]))))).
Proof.
  intros H. unfold cov2corr. rewrite (cov2err_2d _ b H). cbn [bind].
  unfold rank. rewrite H. cbn [length Nat.eqb].
  rewrite np_outer_tab1.
  rewrite (broadcast_op_same _ _ _ [b; b]) by (exact H || reflexivity).
  f_equal. apply tabulate_tab2. intros i j Hi Hj.
  now rewrite item_tab2.
Qed.

Lemma cov2corr_3d (cov : ndarray) (n b : nat) :
  shape cov = [n; b; b] ->
  cov2corr cov = Ok (tab3 n b b (fun k i j =>
    fdiv (item cov [k; i; j])
         (fmul (fsqrt (item cov [k; i; i])) (fsqrt (item cov [k; j; j]))))).
Proof.
  intros H. unfold cov2corr. rewrite (cov2err_3d _ n b H). cbn [bind].
  unfold rank. rewrite H. cbn [length Nat.eqb].
  rewrite (einsum_ki_kj _ n b) by reflexivity. cbn [bind].
  rewrite (broadcast_op_same _ _ _ [n; b; b]) by (exact H || reflexivity).
  f_equal. apply tabulate_tab3. intros k i j Hk Hi Hj.
  now rewrite item_tab3, !item_tab2.
Qed.

Lemma corr2cov_2d (corr err : ndarray) (b : nat) :
  shape corr = [b; b] -> shape err = [b] ->
  corr2cov corr err = Ok (tab2 b b (fun i j =>
    fmul (fmul (item corr [i; j]) (item err [i])) (item err [j]))).
Proof.
  intros Hc He. unfold corr2cov, rank. rewrite Hc. cbn [length Nat.eqb].
  now apply einsum_ij_i_j.
Qed.

Lemma corr2cov_3d (corr err : ndarray) (n b : nat) :
  shape corr = [n; b; b] -> shape err = [n; b] ->
  corr2cov corr err = Ok (tab3 n b b (fun k i j =>
    fmul (fmul (item corr [k; i; j]) (item err [k; i])) (item err [k; j]))).
Proof.
  intros Hc He. unfold corr2cov, rank. rewrite Hc. cbn [length Nat.eqb].
  now apply einsum_kij_ki_kj.
Qed.

(* ------------------------------------------------------------------ *)
(** * A freshly constructed dataset *)

Lemma init_inv (data : ndarray) (dwe : DataWithErrors) :
  __init__ data = Ok dwe ->
  shape data = [n dwe; nbins dwe] /\
  dwe = mkDWE data (n dwe) (nbins dwe) (np_zeros [n dwe; nbins dwe; nbins dwe]).
Proof.
  unfold __init__. destruct (shape data) as [|n_ [|b_ [|? ?]]]; try discriminate.
  intros [= <-]. cbn. split; reflexivity.
Qed.

(** Construction from a well-formed batch gives a well-formed dataset. *)
Lemma init_wf (data : ndarray) (dwe : DataWithErrors) :
  wf_array data -> __init__ data = Ok dwe -> wf_dwe dwe.
Proof.
  intros W H. apply init_inv in H as [Hs ->].
  repeat split; try assumption. apply wf_tabulate.
Qed.

(** C8. On a freshly constructed dataset (the accumulated covariance is
    still the zero tensor) [err()] returns the all-zero n x b array and
    [corr()] returns the n x b x b array of NaN; both calls return normally. *)
Theorem C8_fresh_dataset_err_zero_corr_nan (data : ndarray) (dwe : DataWithErrors) :
  __init__ data = Ok dwe ->
  err dwe false = Ok (tab2 (n dwe) (nbins dwe) (fun _ _ => Fin 0)) /\
  corr dwe = Ok (tab3 (n dwe) (nbins dwe) (nbins dwe) (fun _ _ _ => NaN)).
Proof.
  intros H. apply init_inv in H as [Hs ->]. cbn [n nbins _cov _data].
  set (m := n dwe). set (b := nbins dwe).
  assert (Z : forall k i j, (k < m)%nat -> (i < b)%nat -> (j < b)%nat ->
              item (np_zeros [m; b; b]) [k; i; j] = Fin 0).
  { intros k i j Hk Hi Hj. unfold np_zeros.
    now rewrite item_tabulate by now apply in_range3. }
  split.
  - unfold err. cbn [negb _cov].
    rewrite (cov2err_3d _ m b) by reflexivity. f_equal.
    apply tab2_ext. intros k i Hk Hi. rewrite Z by assumption.
    rewrite fsqrt_fin by lra. now rewrite sqrt_0.
  - unfold corr. cbn [_cov].
    rewrite (cov2corr_3d _ m b) by reflexivity. f_equal.
    apply tab3_ext. intros k i j Hk Hi Hj. rewrite !Z by assumption.
    rewrite fsqrt_fin by lra. rewrite sqrt_0. cbn [fmul].
    apply fdiv_0_0; lra.
Qed.

(* ------------------------------------------------------------------ *)
(** * Round trip covariance -> (correlation, error) -> covariance *)

Lemma roundtrip_entry (c : num) (ri rj : R) :
  0 < ri -> 0 < rj ->
  fmul (fmul (fdiv c (fmul (fsqrt (Fin ri)) (fsqrt (Fin rj))))
             (fsqrt (Fin ri)))
       (fsqrt (Fin rj)) = c.
Proof.
  intros Hi Hj.
  rewrite !fsqrt_fin by lra.
  pose proof (sqrt_lt_R0 ri Hi) as Si. pose proof (sqrt_lt_R0 rj Hj) as Sj.
  assert (P : 0 < sqrt ri * sqrt rj) by now apply Rmult_lt_0_compat.
  cbn [fmul].
  destruct c as [x| | |].
  - rewrite fdiv_fin by lra. cbn [fmul]. f_equal. field. lra.
  - cbn [fdiv]. rewrite (Rsign_pos _ P). cbn [fmul].
    rewrite (Rsign_pos _ Si). cbn [inf_of_sign fmul].
    now rewrite (Rsign_pos _ Sj).
  - cbn [fdiv]. rewrite (Rsign_pos _ P). cbn [fmul].
    rewrite (Rsign_pos _ Si). cbn [CompOpp inf_of_sign fmul].
    now rewrite (Rsign_pos _ Sj).
  - reflexivity.
Qed.

Lemma tab2_item (a : ndarray) (d0 d1 : nat) :
  wf_array a -> shape a = [d0; d1] -> tab2 d0 d1 (fun i j => item a [i; j]) = a.
Proof.
  intros W H. transitivity (tabulate (shape a) (item a)).
  - rewrite H. symmetry. apply tabulate_tab2. reflexivity.
  - now apply tabulate_item.
Qed.

Lemma tab3_item (a : ndarray) (d0 d1 d2 : nat) :
  wf_array a -> shape a = [d0; d1; d2] ->
  tab3 d0 d1 d2 (fun k i j => item a [k; i; j]) = a.
Proof.
  intros W H. transitivity (tabulate (shape a) (item a)).
  - rewrite H. symmetry. apply tabulate_tab3. reflexivity.
  - now apply tabulate_item.
Qed.

(** C6. For a b x b covariance matrix with strictly positive diagonal,
    [corr2cov(cov2corr(C), cov2err(C))] is [C] again: the three calls return
    normally and, in exact arithmetic, the result equals [C] entry for
    entry. *)
Theorem C6_corr2cov_cov2corr_roundtrip (C : ndarray) (b : nat) :
  wf_array C -> shape C = [b; b] ->
  (forall i, (i < b)%nat -> exists r, item C [i; i] = Fin r /\ 0 < r) ->
  exists corr err,
    cov2corr C = Ok corr /\ cov2err C = Ok err /\ corr2cov corr err = Ok C.
Proof.
  intros W H D.
  eexists. eexists. split; [apply (cov2corr_2d _ b H)|].
  split; [apply (cov2err_2d _ b H)|].
  rewrite (corr2cov_2d _ _ b) by reflexivity. f_equal.
  transitivity (tab2 b b (fun i j => item C [i; j])); [|now apply tab2_item].
  apply tab2_ext. intros i j Hi Hj.
  rewrite item_tab2, !item_tab1 by assumption.
  destruct (D i Hi) as (ri & -> & Pi). destruct (D j Hj) as (rj & -> & Pj).
  now apply roundtrip_entry.
Qed.

(* ------------------------------------------------------------------ *)
(** * Uncorrelated errors *)

Lemma tile_identity (m b : nat) :
  np_tile (np_identity b) [m; 1; 1]%nat
  = tab3 m b b (fun _ i j => if (i =? j)%nat then Fin 1 else Fin 0).
Proof.
  unfold np_tile, rank. cbn [np_identity tabulate shape length Nat.max buf].
  cbn [pad_left length Nat.sub repeat app map2 combine map fst snd].
  replace (1 * m)%nat with m by lia. replace (b * 1)%nat with b by lia.
  apply tabulate_tab3. intros k i j Hk Hi Hj.
  cbn [map2 combine map fst snd].
  rewrite Nat.mod_1_r, !Nat.mod_small by assumption.
  change (item {| shape := [1%nat; b; b];
                  buf := map (fun idx => if (nth 0 idx 0 =? nth 1 idx 0)%nat
                                         then Fin 1 else Fin 0)
                             (indices [b; b]) |} [0%nat; i; j])
    with (item (np_identity b) [i; j]).
  unfold np_identity. now rewrite item_tabulate by now apply in_range2.
Qed.

Lemma add_err_cov_same (c : ndarray) (dwe : DataWithErrors) (s : list nat) :
  shape (_cov dwe) = s -> shape c = s ->
  add_err_cov c dwe
  = (Ok tt, set_cov dwe (tabulate s (fun idx =>
                fadd (item (_cov dwe) idx) (item c idx)))).
Proof.
  intros H1 H2. unfold add_err_cov, with_value.
  now rewrite (inplace_op_same _ _ _ s H1 H2).
Qed.

Lemma add_err_uncorr_ok (e : ndarray) (dwe : DataWithErrors) :
  wf_dwe dwe -> shape e = [n dwe; nbins dwe] ->
  add_err_uncorr e dwe
  = (Ok tt, set_cov dwe (tab3 (n dwe) (nbins dwe) (nbins dwe) (fun k i j =>
       fadd (item (_cov dwe) [k; i; j])
            (fmul (fmul (if (i =? j)%nat then Fin 1 else Fin 0) (item e [k; i]))
                  (item e [k; j]))))).
Proof.
  intros (Hd & Wd & Hc & Wc) He.
  unfold add_err_uncorr, add_err_corr, with_value.
  rewrite tile_identity.
  rewrite (corr2cov_3d _ _ (n dwe) (nbins dwe)) by (reflexivity || exact He).
  rewrite (add_err_cov_same _ _ [n dwe; nbins dwe; nbins dwe]) by (exact Hc || reflexivity).
  f_equal. f_equal. apply tabulate_tab3. intros k i j Hk Hi Hj.
  now rewrite !item_tab3.
Qed.

Lemma wf_set_cov (dwe : DataWithErrors) (c : ndarray) :
  wf_dwe dwe -> shape c = [n dwe; nbins dwe; nbins dwe] -> wf_array c ->
  wf_dwe (set_cov dwe c).
Proof. intros (Hd & Wd & _ & _) Hs W. repeat split; assumption. Qed.

Lemma item_nonneg (a : ndarray) (idx : list nat) :
  nonneg_entries a -> wf_array a -> in_range (shape a) idx ->
  exists r, item a idx = Fin r /\ 0 <= r.
Proof.
  intros N W R. unfold nonneg_entries in N. rewrite Forall_forall in N.
  apply N. unfold item. apply nth_In. rewrite W. now apply offset_lt.
Qed.

Lemma fadd_fin_fin (c : num) (x y : R) :
  fadd (fadd c (Fin x)) (Fin y) = fadd c (Fin (x + y)).
Proof. destruct c; cbn; try reflexivity. f_equal. lra. Qed.

Lemma quadrature_ok (e1 e2 : ndarray) (m b : nat) :
  shape e1 = [m; b] -> shape e2 = [m; b] ->
  quadrature e1 e2
  = Ok (tab2 m b (fun k i =>
          fsqrt (fadd (fsquare (item e1 [k; i])) (fsquare (item e2 [k; i]))))).
Proof.
  intros H1 H2. unfold quadrature.
  rewrite (broadcast_op_same _ _ _ [m; b]) by assumption. cbn [bind].
  unfold np_sqrt. rewrite map_arr_tabulate. f_equal.
  apply tabulate_tab2. intros k i Hk Hi.
  unfold np_square. now rewrite !item_map_arr by reflexivity.
Qed.

(** C7. Starting from any dataset, adding two uncorrelated n x b errors of
    finite non-negative entries by two calls of [add_err_uncorr] leaves the
    same accumulated covariance as one call with [sqrt(e1^2 + e2^2)]. *)
Theorem C7_add_err_uncorr_quadrature (dwe : DataWithErrors) (e1 e2 : ndarray) :
  wf_dwe dwe ->
  shape e1 = [n dwe; nbins dwe] -> wf_array e1 -> nonneg_entries e1 ->
  shape e2 = [n dwe; nbins dwe] -> wf_array e2 -> nonneg_entries e2 ->
  exists e12 dwe1 dwe2 dwe12,
    quadrature e1 e2 = Ok e12 /\
    add_err_uncorr e1 dwe = (Ok tt, dwe1) /\
    add_err_uncorr e2 dwe1 = (Ok tt, dwe2) /\
    add_err_uncorr e12 dwe = (Ok tt, dwe12) /\
    _cov dwe2 = _cov dwe12.
Proof.
  intros Wf H1 W1 N1 H2 W2 N2.
  set (m := n dwe) in *. set (b := nbins dwe) in *.
  eexists. eexists. eexists. eexists.
  split; [apply (quadrature_ok _ _ m b H1 H2)|].
  split; [apply (add_err_uncorr_ok _ _ Wf H1)|].
  split.
  { apply add_err_uncorr_ok; [|exact H2].
    apply wf_set_cov; [exact Wf|reflexivity|apply wf_tab3]. }
  split; [apply (add_err_uncorr_ok _ _ Wf); reflexivity|].
  cbn [set_cov _cov n nbins]. fold m b.
  apply tab3_ext. intros k i j Hk Hi Hj.
  rewrite item_tab3, !item_tab2 by assumption.
  assert (F : forall e i', shape e = [m; b] -> wf_array e -> nonneg_entries e ->
                (i' < b)%nat -> exists r, item e [k; i'] = Fin r /\ 0 <= r).
  { intros e i' He We Ne Hi'. apply item_nonneg; try assumption.
    rewrite He. now apply in_range2. }
  destruct (Nat.eqb_spec i j) as [E|E].
  - subst j.
    destruct (F e1 i H1 W1 N1 Hi) as (a1 & -> & P1).
    destruct (F e2 i H2 W2 N2 Hi) as (a2 & -> & P2).
    cbn [fsquare fmul fadd]. rewrite fsqrt_fin by nra.
    cbn [fmul]. rewrite fadd_fin_fin. do 2 f_equal.
    assert (D : 0 <= a1 * a1 + a2 * a2) by nra.
    pose proof (sqrt_sqrt _ D) as S. nra.
  - destruct (F e1 i H1 W1 N1 Hi) as (a1 & -> & P1).
    destruct (F e1 j H1 W1 N1 Hj) as (a1' & -> & P1').
    destruct (F e2 i H2 W2 N2 Hi) as (a2 & -> & P2).
    destruct (F e2 j H2 W2 N2 Hj) as (a2' & -> & P2').
    cbn [fsquare fmul fadd]. rewrite !fsqrt_fin by nra.
    cbn [fmul]. rewrite fadd_fin_fin. do 2 f_equal. ring.
Qed.

(* ------------------------------------------------------------------ *)
(** * The accessors of a well-formed dataset *)

Lemma np_sum_axis1_2d (a : ndarray) (m b : nat) :
  shape a = [m; b] ->
  np_sum_axis1 a
  = Ok (tab1 m (fun k => fsum (map (fun i => item a [k; i]) (seq 0 b)))).
Proof.
  intros H. unfold np_sum_axis1. rewrite H. f_equal.
  apply tabulate_tab1. reflexivity.
Qed.

Lemma norms_ok (dwe : DataWithErrors) :
  wf_dwe dwe ->
  norms dwe = Ok (tab1 (n dwe) (fun k =>
                 fsum (map (fun i => item (_data dwe) [k; i]) (seq 0 (nbins dwe))))).
Proof. intros (Hd & _). now apply np_sum_axis1_2d. Qed.

Lemma err_ok (dwe : DataWithErrors) :
  wf_dwe dwe ->
  err dwe false = Ok (tab2 (n dwe) (nbins dwe) (fun k i =>
                     fsqrt (item (_cov dwe) [k; i; i]))).
Proof. intros (_ & _ & Hc & _). now apply cov2err_3d. Qed.

Lemma corr_ok (dwe : DataWithErrors) :
  wf_dwe dwe ->
  corr dwe = Ok (tab3 (n dwe) (nbins dwe) (nbins dwe) (fun k i j =>
    fdiv (item (_cov dwe) [k; i; j])
         (fmul (fsqrt (item (_cov dwe) [k; i; i]))
               (fsqrt (item (_cov dwe) [k; j; j]))))).
Proof. intros (_ & _ & Hc & _). now apply cov2corr_3d. Qed.

Lemma broadcast_op_tab3 f d0 d1 d2 g h :
  broadcast_op f (tab3 d0 d1 d2 g) (tab3 d0 d1 d2 h)
  = Ok (tab3 d0 d1 d2 (fun k i j => f (g k i j) (h k i j))).
Proof.
  rewrite (broadcast_op_same _ _ _ [d0; d1; d2]) by reflexivity.
  f_equal. apply tabulate_tab3. intros. now rewrite !item_tab3.
Qed.

Lemma np_transpose_tab3 d0 d1 d2 g :
  np_transpose (tab3 d0 d1 d2 g) [1; 0; 2]%nat
  = Ok (tab3 d1 d0 d2 (fun l k i => g k l i)).
Proof.
  rewrite (np_transpose_102 _ d0 d1 d2) by reflexivity. f_equal.
  apply tab3_ext. intros. now rewrite item_tab3.
Qed.

Lemma einsum_kli_tab3 d0 d1 d2 g :
  einsum "kli->kl"%string [tab3 d0 d1 d2 g]
  = Ok (tab2 d0 d1 (fun k l => fsum (map (fun i => g k l i) (seq 0 d2)))).
Proof.
  rewrite (einsum_kli _ d0 d1 d2) by reflexivity. f_equal.
  apply tab2_ext. intros k l Hk Hl. f_equal. apply map_ext_in.
  intros i Hi. apply in_seq in Hi. rewrite item_tab3; (reflexivity || lia).
Qed.

Lemma broadcast_op_tab2_scalar f d0 d1 g (x : num) :
  broadcast_op f (tab2 d0 d1 g) (scalar x)
  = Ok (tab2 d0 d1 (fun k l => f (g k l) x)).
Proof.
  rewrite broadcast_op_scalar. f_equal. cbn [tab2 tabulate shape].
  apply tabulate_tab2. intros. now rewrite item_tab2.
Qed.

Lemma fdiv_as_fmul (s : num) (b : nat) :
  fdiv s (Fin (INR b)) = fmul (fdiv (Fin 1) (Fin (INR b))) s.
Proof.
  destruct b as [|b].
  - cbn [INR fdiv]. rewrite (Rsign_zero 0 eq_refl), (Rsign_pos 1) by lra.
    destruct s; cbn; rewrite ?(Rsign_zero 0 eq_refl); reflexivity.
  - pose proof (lt_0_INR (S b) ltac:(lia)) as P.
    assert (Q : 0 < 1 / INR (S b)) by (apply Rdiv_lt_0_compat; lra).
    rewrite (fdiv_fin 1) by lra.
    destruct s as [x| | |].
    + rewrite fdiv_fin by lra. cbn [fmul]. f_equal. field. lra.
    + cbn [fdiv fmul]. now rewrite (Rsign_pos _ P), (Rsign_pos _ Q).
    + cbn [fdiv fmul]. now rewrite (Rsign_pos _ P), (Rsign_pos _ Q).
    + reflexivity.
Qed.

Lemma fadd_comm (a b : num) : fadd a b = fadd b a.
Proof. destruct a, b; cbn; try reflexivity. f_equal. lra. Qed.

Lemma fsquare_fsub_swap (a b : num) : fsquare (fsub a b) = fsquare (fsub b a).
Proof.
  destruct a, b; cbn; try reflexivity. f_equal. ring.
Qed.

Lemma fsum_all_zero (l : list num) :
  (forall x, In x l -> x = Fin 0) -> fsum l = Fin 0.
Proof.
  unfold fsum. induction l as [|x l IH]; intros H; [reflexivity|].
  cbn [fold_left]. rewrite fadd_0_l, (H x (or_introl eq_refl)).
  apply IH. intros y Hy. apply H. now right.
Qed.

Lemma fold_fadd_nan (l : list num) : fold_left fadd l NaN = NaN.
Proof. induction l as [|x l IH]; [reflexivity|]. cbn [fold_left fadd]. exact IH. Qed.

Lemma fsum_all_nan (l : list num) :
  l <> [] -> (forall x, In x l -> x = NaN) -> fsum l = NaN.
Proof.
  unfold fsum. destruct l as [|x l]; [congruence|]. intros _ H.
  cbn [fold_left]. rewrite (H x (or_introl eq_refl)). cbn [fadd].
  apply fold_fadd_nan.
Qed.

Section Metric.

Variable linalg_inv : ndarray -> result ndarray.

(** [np.linalg.inv] returns an array of the shape of its argument. *)
Hypothesis linalg_inv_shape :
  forall a r, linalg_inv a = Ok r -> shape r = shape a.

Lemma data_decorrelate_inv (dwe : DataWithErrors) (D : ndarray) :
  wf_dwe dwe ->
  data linalg_inv dwe false true = Ok D ->
  exists c inverses,
    corr dwe = Ok c /\ linalg_inv c = Ok inverses /\
    D = tab2 (n dwe) (nbins dwe) (fun k i =>
          fsum (map (fun j => fmul (item inverses [k; i; j])
                                   (item (_data dwe) [k; j]))
                    (seq 0 (nbins dwe)))).
Proof.
  intros Wf. pose proof Wf as (Hd & _).
  unfold data, np_array. cbv zeta. cbn [bind]. rewrite (corr_ok _ Wf). cbn [bind].
  destruct (linalg_inv _) as [inverses|e] eqn:E; [|discriminate].
  cbn [bind]. apply linalg_inv_shape in E as S. cbn [tab3 tabulate shape] in S.
  rewrite (einsum_kij_kj _ _ (n dwe) (nbins dwe) S Hd).
  intros [= <-]. eexists. eexists. repeat split. exact E.
Qed.

(** What [chi2_metric] computes, step by step, from the three arrays it
    starts from. *)
Lemma chi2_metric_steps (dwe : DataWithErrors) (N D E : ndarray) :
  wf_dwe dwe ->
  norms dwe = Ok N ->
  data linalg_inv dwe false true = Ok D ->
  err dwe false = Ok E ->
  chi2_metric linalg_inv dwe
  = Ok (tab2 (n dwe) (n dwe) (fun k l =>
      fdiv (fsum (map (fun i =>
              fdiv (fsquare (fsub (fmul (item N [k]) (item D [l; i]))
                                  (fmul (item N [l]) (item D [k; i]))))
                   (fadd (fsquare (fmul (item N [k]) (item E [l; i])))
                         (fsquare (fmul (item N [l]) (item E [k; i])))))
              (seq 0 (nbins dwe))))
           (Fin (INR (nbins dwe))))).
Proof.
  intros Wf HN HD HE.
  assert (SN : shape N = [n dwe]).
  { rewrite (norms_ok _ Wf) in HN. now injection HN as <-. }
  assert (SD : shape D = [n dwe; nbins dwe]).
  { destruct (data_decorrelate_inv _ _ Wf HD) as (c & iv & _ & _ & ->).
    reflexivity. }
  assert (SE : shape E = [n dwe; nbins dwe]).
  { rewrite (err_ok _ Wf) in HE. now injection HE as <-. }
  unfold chi2_metric. rewrite HN, HD, HE. cbn [bind].
  rewrite (einsum_k_li _ _ (n dwe) (n dwe) (nbins dwe) SN SD). cbn [bind].
  rewrite np_transpose_tab3. cbn [bind].
  rewrite broadcast_op_tab3. cbn [bind].
  rewrite (einsum_k_li _ _ (n dwe) (n dwe) (nbins dwe) SN SE). cbn [bind].
  rewrite np_transpose_tab3. cbn [bind].
  rewrite !np_square_tab3, broadcast_op_tab3. cbn [bind].
  rewrite broadcast_op_tab3. cbn [bind].
  rewrite einsum_kli_tab3. cbn [bind].
  now rewrite broadcast_op_tab2_scalar.
Qed.

(** C1. Whenever the whitened data [D = data(decorrelate=True)] exists (the
    correlation matrices could be inverted), [chi2_metric] returns the n x n
    matrix whose entry (k, l) is (1/b) times the sum over the bins of
    (N[k] D[l,i] - N[l] D[k,i])^2 / ((N[k] E[l,i])^2 + (N[l] E[k,i])^2),
    with [N = norms()] and [E = err()], the errors before decorrelation. *)
Theorem C1_chi2_metric_formula (dwe : DataWithErrors) (D : ndarray) :
  wf_dwe dwe ->
  data linalg_inv dwe false true = Ok D ->
  exists N E M,
    norms dwe = Ok N /\ err dwe false = Ok E /\
    chi2_metric linalg_inv dwe = Ok M /\
    shape M = [n dwe; n dwe] /\
    forall k l, (k < n dwe)%nat -> (l < n dwe)%nat ->
      item M [k; l] = chi2_formula N D E (nbins dwe) k l.
Proof.
  intros Wf HD.
  eexists. eexists. eexists.
  split; [apply (norms_ok _ Wf)|]. split; [apply (err_ok _ Wf)|].
  split; [apply (chi2_metric_steps _ _ _ _ Wf (norms_ok _ Wf) HD (err_ok _ Wf))|].
  split; [reflexivity|].
  intros k l Hk Hl. rewrite item_tab2 by assumption.
  unfold chi2_formula. apply fdiv_as_fmul.
Qed.

(** C2 (amended). The matrix returned by [chi2_metric] is symmetric.  Its
    diagonal entry (k, k) is zero when there is at least one bin, the norm
    N[k] is finite and not zero, and in every bin the whitened content
    D[k,i] is finite and the error E[k,i] is finite and not zero; it is NaN
    (0/0 in every bin) when there is at least one bin, N[k] is zero and
    D[k,i], E[k,i] are finite. *)
Theorem C2_chi2_metric_symmetric_diagonal
  (dwe : DataWithErrors) (N D E M : ndarray) :
  wf_dwe dwe ->
  norms dwe = Ok N ->
  data linalg_inv dwe false true = Ok D ->
  err dwe false = Ok E ->
  chi2_metric linalg_inv dwe = Ok M ->
  (forall k l, (k < n dwe)%nat -> (l < n dwe)%nat ->
     item M [k; l] = item M [l; k]) /\
  (forall k, (k < n dwe)%nat -> (1 <= nbins dwe)%nat ->
     (exists x, item N [k] = Fin x /\ x <> 0) ->
     (forall i, (i < nbins dwe)%nat ->
        exists d e, item D [k; i] = Fin d /\ item E [k; i] = Fin e /\ e <> 0) ->
     item M [k; k] = Fin 0) /\
  (forall k, (k < n dwe)%nat -> (1 <= nbins dwe)%nat ->
     item N [k] = Fin 0 ->
     (forall i, (i < nbins dwe)%nat ->
        exists d e, item D [k; i] = Fin d /\ item E [k; i] = Fin e) ->
     item M [k; k] = NaN).
Proof.
  intros Wf HN HD HE HM.
  rewrite (chi2_metric_steps _ _ _ _ Wf HN HD HE) in HM.
  injection HM as <-.
  split; [|split].
  - intros k l Hk Hl. rewrite !item_tab2 by assumption.
    f_equal. f_equal. apply map_ext. intros i.
    now rewrite fsquare_fsub_swap, fadd_comm.
  - intros k Hk Hb (x & Nx & Px) Hbins.
    rewrite item_tab2 by assumption.
    rewrite fsum_all_zero.
    + pose proof (lt_0_INR (nbins dwe) ltac:(lia)).
      rewrite fdiv_fin by lra. f_equal. unfold Rdiv. apply Rmult_0_l.
    + intros y Hy. apply in_map_iff in Hy as (i & <- & Hi).
      apply in_seq in Hi. destruct (Hbins i ltac:(lia)) as (d & e & -> & -> & Pe).
      rewrite Nx. cbn [fmul fneg fsub fadd fsquare].
      assert (Q : x * e <> 0) by now apply Rmult_integral_contrapositive_currified.
      assert (0 < (x * e) * (x * e)) by (apply Rsqr_pos_lt in Q; exact Q).
      rewrite fdiv_fin by lra. f_equal.
      replace ((x * d + - (x * d)) * (x * d + - (x * d))) with 0 by ring.
      unfold Rdiv. apply Rmult_0_l.
  - intros k Hk Hb Nk Hbins.
    rewrite item_tab2 by assumption.
    rewrite fsum_all_nan; [reflexivity| |].
    + destruct (nbins dwe); [lia|]. cbn. discriminate.
    + intros y Hy. apply in_map_iff in Hy as (i & <- & Hi).
      apply in_seq in Hi. destruct (Hbins i ltac:(lia)) as (d & e & -> & ->).
      rewrite Nk. cbn [fmul fneg fsub fadd fsquare].
      apply fdiv_0_0; ring.
Qed.

End Metric.

(* ------------------------------------------------------------------ *)
(** * The condensed distance matrix *)

Lemma filter_gt_seq (i : nat) :
  forall len a,
    filter (fun j => i <? j)%nat (seq a len)
    = seq (Nat.max a (S i)) (a + len - Nat.max a (S i)).
Proof.
  induction len as [|len IH]; intros a.
  - cbn [seq filter]. replace (a + 0 - Nat.max a (S i))%nat with 0%nat by lia.
    reflexivity.
  - cbn [seq filter]. rewrite IH. destruct (Nat.ltb_spec i a) as [H|H].
    + replace (Nat.max a (S i)) with a by lia.
      replace (Nat.max (S a) (S i)) with (S a) by lia.
      replace (a + S len - a)%nat with (S len) by lia.
      replace (S a + len - S a)%nat with len by lia. reflexivity.
    + replace (Nat.max a (S i)) with (S i) by lia.
      replace (Nat.max (S a) (S i)) with (S i) by lia.
      f_equal. lia.
Qed.

Lemma filter_flat_map {A B : Type} (p : B -> bool) (g : A -> list B) (l : list A) :
  filter p (flat_map g l) = flat_map (fun x => filter p (g x)) l.
Proof.
  induction l as [|x l IH]; [reflexivity|].
  cbn [flat_map]. now rewrite filter_app, IH.
Qed.

Lemma filter_map_comm {A B : Type} (p : B -> bool) (g : A -> B) (l : list A) :
  filter p (map g l) = map g (filter (fun x => p (g x)) l).
Proof.
  induction l as [|x l IH]; [reflexivity|].
  cbn [map filter]. destruct (p (g x)); cbn [map]; now rewrite IH.
Qed.

Lemma flat_map_ext_in {A B : Type} (f g : A -> list B) (l : list A) :
  (forall x, In x l -> f x = g x) -> flat_map f l = flat_map g l.
Proof.
  induction l as [|x l IH]; intros H; [reflexivity|].
  cbn [flat_map]. rewrite (H x (or_introl eq_refl)), IH; [reflexivity|].
  intros y Hy. apply H. now right.
Qed.

Lemma triu_hits (m : nat) :
  filter (fun idx => negb (tri (1 - 1) (nth 0 idx 0%nat) (nth 1 idx 0%nat)))
         (indices [m; m])
  = upper_hits m.
Proof.
  unfold upper_hits. cbn [indices]. rewrite filter_flat_map.
  apply flat_map_ext_in. intros i Hi. apply in_seq in Hi.
  fold (indices [m]). rewrite indices1, map_map, filter_map_comm.
  cbn [nth].
  replace (filter _ (seq 0 m)) with (filter (fun j => i <? j)%nat (seq 0 m)).
  - rewrite filter_gt_seq. cbn [Nat.max Nat.add]. reflexivity.
  - apply filter_ext. intros j. unfold tri.
    destruct (Nat.ltb_spec i j); destruct (Z.leb_spec (Z.of_nat j - (1 - 1)) (Z.of_nat i));
      cbn; try reflexivity; lia.
Qed.

Lemma upper_hits_in_range (m : nat) (h : list nat) :
  In h (upper_hits m) ->
  exists i j, h = [i; j] /\ (i < j)%nat /\ (j < m)%nat.
Proof.
  unfold upper_hits. rewrite in_flat_map. intros (i & Hi & H).
  apply in_map_iff in H as (j & <- & Hj). apply in_seq in Hi, Hj.
  exists i, j. repeat split; lia.
Qed.

Lemma length_upper_hits_prefix (m k : nat) :
  (k <= m)%nat ->
  (2 * length (flat_map (fun i => map (fun j => [i; j]) (seq (S i) (m - S i)))
                        (seq 0 k))
   + k * k + k
   = 2 * k * m)%nat.
Proof.
  induction k as [|k IH]; intros H; [reflexivity|].
  rewrite seq_S, flat_map_app, length_app. cbn [Nat.add flat_map].
  rewrite app_nil_r, length_map, length_seq.
  specialize (IH ltac:(lia)).
  destruct (Nat.le_exists_sub (S k) m H) as (d & E & _).
  replace (m - S k)%nat with d by lia.
  rewrite E in IH |- *. lia.
Qed.

Lemma length_upper_hits (m : nat) : length (upper_hits m) = (m * (m - 1) / 2)%nat.
Proof.
  pose proof (length_upper_hits_prefix m m (le_n m)) as H.
  fold (upper_hits m) in H.
  replace (m * (m - 1))%nat with (length (upper_hits m) * 2)%nat.
  - now rewrite Nat.div_mul.
  - destruct m as [|p]; [cbn [upper_hits seq flat_map length]; lia|].
    replace (S p - 1)%nat with p by lia. lia.
Qed.

Lemma map_nth2_seq {A B : Type} (g : nat -> nat -> B) (f1 f2 : A -> nat)
  (l : list A) :
  map (fun p => g (nth p (map f1 l) 0%nat) (nth p (map f2 l) 0%nat))
      (seq 0 (length l))
  = map (fun x => g (f1 x) (f2 x)) l.
Proof.
  induction l as [|x l IH]; [reflexivity|].
  cbn [length seq map nth]. f_equal.
  rewrite <- seq_shift, map_map. exact IH.
Qed.

Lemma map_flat_map {A B C : Type} (f : B -> C) (g : A -> list B) (l : list A) :
  map f (flat_map g l) = flat_map (fun x => map f (g x)) l.
Proof.
  induction l as [|x l IH]; [reflexivity|].
  cbn [flat_map]. now rewrite map_app, IH.
Qed.

(** C9. For an m x m matrix, [condense_distance_matrix] returns a flat
    vector of exactly m(m-1)/2 entries: the entries strictly above the
    diagonal, in row-major order. *)
Theorem C9_condense_distance_matrix (M : ndarray) (m : nat) :
  shape M = [m; m] ->
  exists v,
    condense_distance_matrix M = Ok v /\
    shape v = [(m * (m - 1) / 2)%nat] /\
    length (buf v) = (m * (m - 1) / 2)%nat /\
    buf v = strict_upper_row_major M m.
Proof.
  intros H. unfold condense_distance_matrix, triu_indices. rewrite H.
  rewrite triu_hits. unfold take_pairs. rewrite H.
  set (rows := map (fun idx => nth 0 idx 0%nat) (upper_hits m)).
  set (cols := map (fun idx => nth 1 idx 0%nat) (upper_hits m)).
  assert (B : forallb (fun r => (r <? m)%nat) rows
              && forallb (fun c => (c <? m)%nat) cols = true).
  { apply andb_true_intro. split; apply forallb_forall; intros x Hx;
      apply in_map_iff in Hx as (h & <- & Hh);
      apply upper_hits_in_range in Hh as (i & j & -> & Hij & Hj);
      cbn [nth]; apply Nat.ltb_lt; lia. }
  rewrite B. eexists. split; [reflexivity|].
  assert (L : length rows = (m * (m - 1) / 2)%nat).
  { unfold rows. rewrite length_map. apply length_upper_hits. }
  cbn [tabulate shape buf].
  split; [now rewrite L|].
  split.
  { rewrite length_map, length_indices. cbn [size fold_right]. lia. }
  rewrite indices1, map_map. cbn [hd tl].
  replace (length rows) with (length (upper_hits m))
    by (unfold rows; now rewrite length_map).
  unfold rows, cols.
  rewrite (map_nth2_seq (fun r c => item M [r; c])).
  unfold upper_hits, strict_upper_row_major.
  rewrite map_flat_map. apply flat_map_ext_in. intros i _.
  now rewrite map_map.
Qed.

(* ------------------------------------------------------------------ *)
(** * Relative covariance *)

Section Relative.

Variable linalg_inv : ndarray -> result ndarray.

(** C4 (amended). [cov(relative=True)] never returns a covariance: it
    delegates to [abs2rel_cov], which raises [NotImplementedError] whatever
    it is given.  [cov(relative=False)] returns the stored covariance. *)
Theorem C4_cov_relative_not_implemented (dwe : DataWithErrors) :
  cov linalg_inv dwe true = Raise NotImplementedError /\
  cov linalg_inv dwe false = Ok (_cov dwe).
Proof. split; reflexivity. Qed.

End Relative.

(* ------------------------------------------------------------------ *)
(** * Error injection: what a failing call leaves behind *)

Lemma einsum_raises (sub : string) (ops : list ndarray) (e : exn) :
  einsum sub ops = Raise e -> e = ValueError.
Proof.
  unfold einsum. destruct (parse_subscripts sub) as [[ins out]|]; [|congruence].
  unfold einsum_labels.
  repeat match goal with
         | |- context [if ?c then _ else _] => destruct c
         | |- context [match ?c with Some _ => _ | None => _ end] => destruct c
         end; congruence.
Qed.

Lemma corr2cov_raises (corr err : ndarray) (e : exn) :
  corr2cov corr err = Raise e -> e = ValueError.
Proof.
  unfold corr2cov.
  destruct (rank corr =? 2)%nat; [apply einsum_raises|].
  destruct (rank corr =? 3)%nat; [apply einsum_raises|congruence].
Qed.

Lemma rel2abs_cov_raises (cov data : ndarray) (e : exn) :
  rel2abs_cov cov data = Raise e -> e = ValueError.
Proof. apply einsum_raises. Qed.

Lemma frame_add_err_cov (cov : ndarray) : frame_ok (add_err_cov cov).
Proof.
  intros dwe. unfold add_err_cov, with_value.
  destruct (inplace_op fadd (_cov dwe) cov) as [c|e] eqn:E.
  - right. apply inplace_op_shape in E as [E1 E2]. cbn. eauto.
  - left. apply inplace_op_raises in E as ->. cbn. auto.
Qed.

Lemma frame_with_value {A : Type} (r : result A) (k : A -> action) :
  (forall e, r = Raise e -> e = ValueError) ->
  (forall a, frame_ok (k a)) ->
  frame_ok (with_value r k).
Proof.
  intros Hr Hk dwe. unfold with_value. destruct r as [a|e].
  - apply Hk.
  - left. rewrite (Hr e eq_refl). cbn. auto.
Qed.

Lemma frame_add_err_corr (err corr : ndarray) : frame_ok (add_err_corr err corr).
Proof.
  apply frame_with_value; [apply corr2cov_raises|apply frame_add_err_cov].
Qed.

Lemma frame_add_rel_err_cov (cov : ndarray) : frame_ok (add_rel_err_cov cov).
Proof.
  intros dwe. unfold add_rel_err_cov.
  apply (frame_with_value (rel2abs_cov cov (_data dwe)) add_err_cov);
    [apply rel2abs_cov_raises|apply frame_add_err_cov].
Qed.

Lemma frame_add_rel_err_corr (err corr : ndarray) :
  frame_ok (add_rel_err_corr err corr).
Proof.
  apply frame_with_value; [apply corr2cov_raises|apply frame_add_rel_err_cov].
Qed.

Lemma frame_inject (c : injection) : frame_ok (inject c).
Proof.
  destruct c; cbn [inject].
  - apply frame_add_err_cov.
  - intros dwe. apply frame_add_err_corr.
  - apply frame_add_err_corr.
  - apply frame_add_rel_err_cov.
  - intros dwe. apply frame_add_rel_err_corr.
  - intros dwe. apply frame_add_rel_err_corr.
  - apply frame_add_rel_err_corr.
Qed.

(** Error injection keeps the dataset well formed and never touches the
    data. *)
Lemma inject_preserves_wf (c : injection) (dwe : DataWithErrors) :
  wf_dwe dwe ->
  wf_dwe (snd (inject c dwe)) /\ _data (snd (inject c dwe)) = _data dwe.
Proof.
  intros Wf. destruct (frame_inject c dwe) as [[_ ->]|[_ (x & -> & S & W)]].
  - split; [exact Wf|reflexivity].
  - split; [|reflexivity]. destruct Wf as (Hd & Wd & Hc & Wc).
    repeat split; try assumption. cbn [set_cov _cov n nbins]. congruence.
Qed.

(** C5 (amended). The error-injection methods validate nothing themselves:
    a call fails only where numpy rejects the shapes, with [ValueError], and
    then the dataset, its stored covariance included, is exactly as before
    the call.  A call that returns has replaced the stored covariance and
    nothing else. *)
Theorem C5_failed_injection_leaves_dataset (dwe : DataWithErrors)
  (c : injection) (e : exn) :
  fst (inject c dwe) = Raise e ->
  e = ValueError /\ snd (inject c dwe) = dwe.
Proof.
  intros H. destruct (frame_inject c dwe) as [[H1 H2]|[H1 _]].
  - split; [congruence|exact H2].
  - congruence.
Qed.

(* ------------------------------------------------------------------ *)
(** * Normalisation: [ret /= self.norms()] *)

Lemma broadcast_shapes_2_1 (m b : nat) :
  broadcast_shapes [m; b] [m]
  = match bdim b m with Some d => Some [m; d] | None => None end.
Proof.
  unfold broadcast_shapes. cbn [rev app bshape_rev].
  destruct (bdim b m); reflexivity.
Qed.

Lemma bindex_2_1 (m k i : nat) :
  (i < m)%nat -> bindex [m] [k; i] = [i].
Proof.
  intros H. unfold bindex, map2. cbn [length Nat.sub skipn combine map fst snd].
  now rewrite bsel.
Qed.

Section Normalize.

Variable linalg_inv : ndarray -> result ndarray.

(** What [data(normalize=True)] does with the n x b data and the n norms:
    numpy aligns the norms with the last axis, the bins.  On a square batch
    entry (k, i) is divided by the norm of histogram [i]; with a single
    histogram it is divided by that histogram's norm; otherwise the shapes
    do not broadcast and the call raises. *)
Lemma data_normalize_cases (dwe : DataWithErrors) (N : ndarray) :
  wf_dwe dwe ->
  norms dwe = Ok N ->
  (n dwe = nbins dwe ->
   data linalg_inv dwe true false
   = Ok (tab2 (n dwe) (nbins dwe) (fun k i =>
           fdiv (item (_data dwe) [k; i]) (item N [i])))) /\
  (n dwe = 1%nat ->
   data linalg_inv dwe true false
   = Ok (tab2 (n dwe) (nbins dwe) (fun k i =>
           fdiv (item (_data dwe) [k; i]) (item N [k])))) /\
  (n dwe <> nbins dwe -> n dwe <> 1%nat ->
   data linalg_inv dwe true false = Raise ValueError).
Proof.
  intros Wf HN. pose proof Wf as (Hd & _).
  assert (SN : shape N = [n dwe]).
  { rewrite (norms_ok _ Wf) in HN. now injection HN as <-. }
  unfold data, np_array. cbv zeta. rewrite HN. cbn [bind].
  unfold inplace_op. rewrite Hd, SN, broadcast_shapes_2_1.
  set (m := n dwe) in *. set (b := nbins dwe) in *.
  split; [|split].
  - intros E. rewrite <- E. rewrite bdim_same, shape_eqb_refl. cbn [bind].
    f_equal. apply tabulate_tab2. intros k i Hk Hi.
    rewrite bindex_same by now apply in_range2.
    now rewrite bindex_2_1.
  - intros E. rewrite E. unfold bdim.
    destruct (Nat.eqb_spec b 1) as [B|B].
    + rewrite shape_eqb_refl. cbn [bind]. f_equal. rewrite <- B.
      apply tabulate_tab2. intros k i Hk Hi.
      rewrite bindex_same by now apply in_range2.
      rewrite bindex_2_1 by assumption. do 3 f_equal. lia.
    + cbn [Nat.eqb]. rewrite shape_eqb_refl. cbn [bind]. f_equal.
      apply tabulate_tab2. intros k i Hk Hi.
      rewrite bindex_same by (apply in_range2; lia).
      unfold bindex, map2. cbn. do 3 f_equal. lia.
  - intros E1 E2. unfold bdim.
    destruct (Nat.eqb_spec b m) as [?|_]; [congruence|].
    destruct (Nat.eqb_spec b 1) as [B|_].
    + cbn [shape_eqb]. rewrite Nat.eqb_refl. cbn [andb].
      destruct (Nat.eqb_spec m b) as [?|_]; [congruence|]. reflexivity.
    + destruct (Nat.eqb_spec m 1) as [?|_]; [congruence|]. reflexivity.
Qed.

End Normalize.

(** [normalized()] divides in the same way, without the in-place step. *)
Lemma normalized_square (dwe : DataWithErrors) (N : ndarray) :
  wf_dwe dwe -> norms dwe = Ok N -> n dwe = nbins dwe ->
  normalized dwe
  = Ok (tab2 (n dwe) (nbins dwe) (fun k i =>
          fdiv (item (_data dwe) [k; i]) (item N [i]))).
Proof.
  intros Wf HN E. pose proof Wf as (Hd & _).
  assert (SN : shape N = [n dwe]).
  { rewrite (norms_ok _ Wf) in HN. now injection HN as <-. }
  unfold normalized. rewrite HN. cbn [bind].
  unfold broadcast_op. rewrite Hd, SN, broadcast_shapes_2_1.
  rewrite <- E, bdim_same. f_equal.
  apply tabulate_tab2. intros k i Hk Hi.
  rewrite bindex_same by now apply in_range2.
  now rewrite bindex_2_1.
Qed.

(* ------------------------------------------------------------------ *)
(** * Aliasing: what an accessor hands out *)

Lemma deref_alloc_old (h : heap) (a : ndarray) (l : loc) :
  (l < length h)%nat -> deref (h ++ [a]) l = deref h l.
Proof. intros H. unfold deref. now apply nth_error_app1. Qed.

Lemma deref_overwrite_other (h : heap) (l l' : loc) (X : ndarray) :
  l <> l' -> deref (overwrite h l X) l' = deref h l'.
Proof.
  unfold deref. revert l l'. induction h as [|x h IH]; intros l l' H.
  - reflexivity.
  - destruct l as [|l], l' as [|l']; cbn; try reflexivity; try congruence.
    apply IH. congruence.
Qed.

Lemma deref_overwrite_same (h : heap) (l : loc) (X : ndarray) :
  (l < length h)%nat -> deref (overwrite h l X) l = Some X.
Proof.
  unfold deref. revert l. induction h as [|x h IH]; intros l H; cbn in H; [lia|].
  destruct l as [|l]; cbn; [reflexivity|]. apply IH. lia.
Qed.

Lemma deref_lt (h : heap) (l : loc) (a : ndarray) :
  deref h l = Some a -> (l < length h)%nat.
Proof. unfold deref. intros H. apply nth_error_Some. congruence. Qed.

Lemma view_inv (h : heap) (o : instance) (dwe : DataWithErrors) :
  view h o = Some dwe ->
  deref h (data_at o) = Some (_data dwe) /\
  deref h (cov_at o) = Some (_cov dwe) /\
  n dwe = n_of o /\ nbins dwe = nbins_of o.
Proof.
  unfold view. destruct (deref h (data_at o)) as [d|]; [|discriminate].
  destruct (deref h (cov_at o)) as [c|]; [|discriminate].
  intros [= <-]. cbn. auto.
Qed.

Lemma view_alloc (h : heap) (o : instance) (dwe : DataWithErrors) (a : ndarray) :
  view h o = Some dwe -> view (h ++ [a]) o = Some dwe.
Proof.
  intros H. pose proof (view_inv _ _ _ H) as (Hd & Hc & _).
  unfold view in *.
  rewrite !deref_alloc_old by (eapply deref_lt; eassumption). exact H.
Qed.

Lemma view_overwrite_fresh (h : heap) (o : instance) (dwe : DataWithErrors)
  (a X : ndarray) :
  view h o = Some dwe ->
  view (overwrite (h ++ [a]) (length h) X) o = Some dwe.
Proof.
  intros H. pose proof (view_inv _ _ _ H) as (Hd & Hc & _).
  apply deref_lt in Hd as Ld. apply deref_lt in Hc as Lc.
  pose proof (view_alloc _ _ _ a H) as V. unfold view in *.
  rewrite !deref_overwrite_other by lia. exact V.
Qed.

Lemma fresh_inv (h h' : heap) (r : result ndarray) (r' : result loc) :
  fresh h r = (r', h') ->
  (exists e, r' = Raise e /\ h' = h) \/
  (exists a, r' = Ok (length h) /\ h' = h ++ [a]).
Proof.
  unfold fresh, alloc. destruct r as [a|e]; intros [= <- <-]; eauto.
Qed.

Section Aliasing.

Variable linalg_inv : ndarray -> result ndarray.

(** C10 (amended). No accessor call changes the arrays the dataset holds.
    The arrays returned by [data()], [corr()], [err()] and [chi2_metric] are
    newly allocated: overwriting one leaves the dataset as it is.
    [cov()] with [relative=False] returns the stored covariance array itself:
    overwriting what it returned overwrites the covariance of the dataset. *)
Theorem C10_accessor_aliasing (acc : accessor) (o : instance)
  (dwe : DataWithErrors) (h : heap) :
  view h o = Some dwe ->
  (forall r h', call linalg_inv acc o dwe h = (r, h') -> view h' o = Some dwe) /\
  (forall l h', call linalg_inv acc o dwe h = (Ok l, h') ->
     acc <> GetCov false ->
     forall X, view (overwrite h' l X) o = Some dwe) /\
  (forall l h', call linalg_inv acc o dwe h = (Ok l, h') ->
     acc = GetCov false ->
     l = cov_at o /\
     (data_at o <> cov_at o ->
      forall X, view (overwrite h' l X) o = Some (set_cov dwe X))).
Proof.
  intros V.
  assert (F : forall r r' h',
             fresh h r = (r', h') ->
             view h' o = Some dwe /\
             (forall l, r' = Ok l -> forall X, view (overwrite h' l X) o = Some dwe)).
  { intros r r' h' H. apply fresh_inv in H as [(e & -> & ->)|(a & -> & ->)].
    - split; [exact V|discriminate].
    - split; [now apply view_alloc|].
      intros l [= <-] X. now apply view_overwrite_fresh. }
  split; [|split].
  - intros r h' H. destruct acc as [nz dc|[|]| |rel|]; cbn [call negb] in H;
      try (now apply F in H); now injection H as <- <-.
  - intros l h' H NA X.
    destruct acc as [nz dc|[|]| |rel|]; cbn [call negb] in H;
      try (apply F in H as [_ H]; now apply H); congruence.
  - intros l h' H ->. cbn [call negb] in H. injection H as <- <-.
    split; [reflexivity|]. intros NE X.
    pose proof (view_inv _ _ _ V) as (Hd & Hc & Hn & Hb).
    unfold view. rewrite deref_overwrite_other by congruence.
    rewrite deref_overwrite_same by (eapply deref_lt; eassumption).
    rewrite Hd. unfold set_cov. now rewrite Hn, Hb.
Qed.

End Aliasing.

(* ------------------------------------------------------------------ *)
(** * The example datasets, evaluated *)

Ltac fin_list :=
  repeat match goal with
  | |- Ok _ = Ok _ => apply f_equal
  | |- mkarr _ _ = mkarr _ _ => f_equal
  | |- _ :: _ = _ :: _ => f_equal
  | |- Fin _ = Fin _ =>
      apply f_equal; first [reflexivity | lra | field; lra | field]
  end.

Ltac num_norm :=
  repeat first
    [ rewrite sqrt_1
    | rewrite sqrt_0
    | rewrite fsqrt_fin by lra
    | rewrite fdiv_fin by lra
    | progress cbn [fmul fadd fsub fneg fsum fold_left fsquare] ].

Lemma linalg_inv_exact_shape (a r : ndarray) :
  linalg_inv_exact a = Ok r -> shape r = shape a.
Proof.
  unfold linalg_inv_exact.
  destruct (shape a) as [|d0 [|d1 [|d2 [|? ?]]]]; try discriminate.
  - destruct (negb (d0 =? d1)%nat || _); [discriminate|]. now intros [= <-].
  - destruct (negb (d1 =? d2)%nat || _); [discriminate|]. now intros [= <-].
Qed.

Lemma inv_units :
  linalg_inv_exact (mkarr [2; 1; 1]%nat [Fin 1; Fin 1])
  = Ok (mkarr [2; 1; 1]%nat [Fin 1; Fin 1]).
Proof.
  unfold linalg_inv_exact. cbn -[fdiv fsqrt Rsign].
  rewrite !(Rsign_pos (0 + 1 * 1 * 1)) by lra. cbn [orb].
  unfold tabulate, inv_entry. cbn -[fdiv Rsign]. num_norm. fin_list.
Qed.

Lemma wf_square_batch : wf_dwe square_batch.
Proof. repeat split. Qed.

Lemma wf_empty_and_full : wf_dwe empty_and_full.
Proof. repeat split. Qed.

Lemma wf_two_full : wf_dwe two_full.
Proof. repeat split. Qed.

Lemma unit_variance_corr (dwe : DataWithErrors) :
  wf_dwe dwe -> n dwe = 2%nat -> nbins dwe = 1%nat ->
  _cov dwe = mkarr [2; 1; 1]%nat [Fin 1; Fin 1] ->
  corr dwe = Ok (mkarr [2; 1; 1]%nat [Fin 1; Fin 1]).
Proof.
  intros Wf Hn Hb Hc. rewrite (corr_ok _ Wf), Hn, Hb, Hc.
  unfold tab3, tabulate. cbn -[fdiv fsqrt]. num_norm. fin_list.
Qed.

Lemma unit_variance_err (dwe : DataWithErrors) :
  wf_dwe dwe -> n dwe = 2%nat -> nbins dwe = 1%nat ->
  _cov dwe = mkarr [2; 1; 1]%nat [Fin 1; Fin 1] ->
  err dwe false = Ok (mkarr [2; 1]%nat [Fin 1; Fin 1]).
Proof.
  intros Wf Hn Hb Hc. rewrite (err_ok _ Wf), Hn, Hb, Hc.
  unfold tab2, tabulate. cbn -[fdiv fsqrt]. num_norm. fin_list.
Qed.

Lemma unit_variance_data (dwe : DataWithErrors) :
  wf_dwe dwe -> n dwe = 2%nat -> nbins dwe = 1%nat ->
  _cov dwe = mkarr [2; 1; 1]%nat [Fin 1; Fin 1] ->
  data linalg_inv_exact dwe false true
  = Ok (tab2 2 1 (fun k i =>
          fsum (map (fun j => fmul (item (mkarr [2; 1; 1]%nat [Fin 1; Fin 1]) [k; i; j])
                                   (item (_data dwe) [k; j]))
                    (seq 0 1)))).
Proof.
  intros Wf Hn Hb Hc. pose proof Wf as (Hd & _). rewrite Hn, Hb in Hd.
  unfold data, np_array. cbv zeta. cbn [bind].
  rewrite (unit_variance_corr _ Wf Hn Hb Hc). cbn [bind].
  rewrite inv_units. cbn [bind].
  now rewrite (einsum_kij_kj _ _ 2 1) by (reflexivity || exact Hd).
Qed.

Lemma norms_two_full : norms two_full = Ok two_full_norms.
Proof.
  rewrite (norms_ok _ wf_two_full). unfold tab1, tabulate, two_full_norms.
  cbn -[fdiv fsqrt]. fin_list.
Qed.

Lemma data_two_full :
  data linalg_inv_exact two_full false true = Ok two_full_data.
Proof.
  rewrite (unit_variance_data _ wf_two_full) by reflexivity.
  unfold tab2, tabulate, two_full_data. cbn -[fdiv fsqrt]. fin_list.
Qed.

Lemma err_two_full : err two_full false = Ok two_full_err.
Proof. now apply unit_variance_err; [apply wf_two_full| | |]. Qed.

Lemma chi2_two_full : chi2_metric linalg_inv_exact two_full = Ok two_full_chi2.
Proof.
  rewrite (chi2_metric_steps _ linalg_inv_exact_shape _ _ _ _ wf_two_full
             norms_two_full data_two_full err_two_full).
  unfold tab2, tabulate, two_full_chi2, two_full_norms, two_full_data, two_full_err.
  cbn -[fdiv fsqrt]. num_norm. fin_list.
Qed.

Lemma norms_empty_and_full :
  norms empty_and_full = Ok (mkarr [2]%nat [Fin 0; Fin 3]).
Proof.
  rewrite (norms_ok _ wf_empty_and_full). unfold tab1, tabulate.
  cbn -[fdiv fsqrt]. fin_list.
Qed.

Lemma data_empty_and_full :
  data linalg_inv_exact empty_and_full false true
  = Ok (mkarr [2; 1]%nat [Fin 0; Fin 3]).
Proof.
  rewrite (unit_variance_data _ wf_empty_and_full) by reflexivity.
  unfold tab2, tabulate. cbn -[fdiv fsqrt]. fin_list.
Qed.

Lemma err_empty_and_full :
  err empty_and_full false = Ok (mkarr [2; 1]%nat [Fin 1; Fin 1]).
Proof. now apply unit_variance_err; [apply wf_empty_and_full| | |]. Qed.

(** The example datasets with unit variance are what construction followed
    by [add_err_uncorr] of unit errors gives. *)
Lemma unit_errors_reach (d0 d1 : R) :
  exists dwe0,
    __init__ (mkarr [2; 1]%nat [Fin d0; Fin d1]) = Ok dwe0 /\
    add_err_uncorr (mkarr [2; 1]%nat [Fin 1; Fin 1]) dwe0
    = (Ok tt, mkDWE (mkarr [2; 1]%nat [Fin d0; Fin d1]) 2 1
                    (mkarr [2; 1; 1]%nat [Fin 1; Fin 1])).
Proof.
  eexists. split; [reflexivity|].
  rewrite add_err_uncorr_ok by (repeat split).
  unfold set_cov, tab3, tabulate. cbn -[fdiv fsqrt].
  do 2 f_equal. fin_list.
Qed.

Lemma empty_and_full_reachable :
  exists dwe0,
    __init__ (_data empty_and_full) = Ok dwe0 /\
    add_err_uncorr (mkarr [2; 1]%nat [Fin 1; Fin 1]) dwe0 = (Ok tt, empty_and_full).
Proof. apply (unit_errors_reach 0 3). Qed.

Lemma two_full_reachable :
  exists dwe0,
    __init__ (_data two_full) = Ok dwe0 /\
    add_err_uncorr (mkarr [2; 1]%nat [Fin 1; Fin 1]) dwe0 = (Ok tt, two_full).
Proof. apply (unit_errors_reach 2 3). Qed.

(* ------------------------------------------------------------------ *)
(** * The properties at the example datasets *)

(** C1 at [two_full]. *)
Lemma C1_chi2_metric_formula_witness :
  wf_dwe two_full /\
  data linalg_inv_exact two_full false true = Ok two_full_data /\
  exists N E M,
    norms two_full = Ok N /\ err two_full false = Ok E /\
    chi2_metric linalg_inv_exact two_full = Ok M /\
    shape M = [n two_full; n two_full] /\
    forall k l, (k < n two_full)%nat -> (l < n two_full)%nat ->
      item M [k; l] = chi2_formula N two_full_data E (nbins two_full) k l.
Proof.
  split; [exact wf_two_full|]. split; [exact data_two_full|].
  apply (C1_chi2_metric_formula linalg_inv_exact linalg_inv_exact_shape
           two_full two_full_data wf_two_full data_two_full).
Defined.

(** C2 as stated fails: [empty_and_full] has invertible (unit) correlation
    matrices and [chi2_metric] returns, yet the diagonal entry of the
    histogram whose norm is zero is NaN. *)
Lemma C2_zero_norm_diagonal_is_nan :
  wf_dwe empty_and_full /\
  corr empty_and_full = Ok (mkarr [2; 1; 1]%nat [Fin 1; Fin 1]) /\
  exists M,
    chi2_metric linalg_inv_exact empty_and_full = Ok M /\
    item M [0; 0]%nat = NaN /\ item M [0; 0]%nat <> Fin 0.
Proof.
  split; [exact wf_empty_and_full|].
  split; [now apply unit_variance_corr; [apply wf_empty_and_full| | |]|].
  eexists. split.
  - apply (chi2_metric_steps _ linalg_inv_exact_shape _ _ _ _ wf_empty_and_full
             norms_empty_and_full data_empty_and_full err_empty_and_full).
  - assert (E : forall x, x = NaN -> x = NaN /\ x <> Fin 0)
      by (intros x ->; split; [reflexivity|discriminate]).
    apply E. rewrite item_tab2 by (cbn; lia).
    cbn -[fdiv fsqrt]. rewrite (fdiv_0_0 _ _) by lra. reflexivity.
Qed.

(** C2 (amended) at [two_full]. *)
Lemma C2_chi2_metric_symmetric_diagonal_witness :
  wf_dwe two_full /\
  norms two_full = Ok two_full_norms /\
  data linalg_inv_exact two_full false true = Ok two_full_data /\
  err two_full false = Ok two_full_err /\
  chi2_metric linalg_inv_exact two_full = Ok two_full_chi2 /\
  item two_full_chi2 [0; 1]%nat = item two_full_chi2 [1; 0]%nat /\
  item two_full_chi2 [0; 0]%nat = Fin 0.
Proof.
  split; [exact wf_two_full|]. split; [exact norms_two_full|].
  split; [exact data_two_full|]. split; [exact err_two_full|].
  split; [exact chi2_two_full|].
  destruct (C2_chi2_metric_symmetric_diagonal linalg_inv_exact
              linalg_inv_exact_shape two_full two_full_norms two_full_data
              two_full_err two_full_chi2 wf_two_full norms_two_full
              data_two_full err_two_full chi2_two_full) as (S & Dg & _).
  split.
  - apply S; cbn; lia.
  - apply Dg; cbn [n nbins two_full]; try lia.
    + exists 2. split; [reflexivity|lra].
    + intros i Hi. assert (i = 0%nat) as -> by lia.
      exists 2, 1. repeat split. lra.
Defined.

(** C3 fails on a square batch: on [[1, 1], [2, 2]], whose norms are 2 and
    4, [data(normalize=True)] returns [[1/2, 1/4], [1, 1/2]]: entry (k, i)
    is divided by the norm of histogram [i].  Dividing each histogram by its
    own norm gives 1/2 everywhere. *)
Theorem C3_data_normalize_square_batch :
  norms square_batch = Ok (mkarr [2]%nat [Fin 2; Fin 4]) /\
  data linalg_inv_exact square_batch true false
  = Ok (mkarr [2; 2]%nat [Fin (1 / 2); Fin (1 / 4); Fin 1; Fin (1 / 2)]) /\
  fdiv (item (_data square_batch) [0; 1]%nat) (Fin 2) = Fin (1 / 2).
Proof.
  split; [|split].
  - rewrite (norms_ok _ wf_square_batch). unfold tab1, tabulate.
    cbn -[fdiv fsqrt]. fin_list.
  - destruct (data_normalize_cases linalg_inv_exact square_batch _
                wf_square_batch (norms_ok _ wf_square_batch)) as (H & _ & _).
    rewrite (H eq_refl). unfold tab2, tab1, tabulate.
    cbn -[fdiv]. num_norm. fin_list.
  - cbn -[fdiv]. num_norm. fin_list.
Qed.

(** C4 as stated fails: [cov(relative=True)] returns no array. *)
Lemma C4_cov_relative_returns_nothing :
  ~ exists T, cov linalg_inv_exact square_batch true = Ok T.
Proof. intros (T & H). discriminate H. Qed.

(** C5 as stated fails: a 2 x 2 matrix handed to [add_err_cov] of a dataset
    of two histograms with two bins does not have the shape 2 x 2 x 2, yet
    the call returns and the stored covariance has changed. *)
Lemma C5_mismatched_shape_is_accumulated :
  shape (_cov square_batch) = [2; 2; 2]%nat /\
  shape cov_2x2 <> [2; 2; 2]%nat /\
  fst (inject (AddErrCov cov_2x2) square_batch) = Ok tt /\
  _cov (snd (inject (AddErrCov cov_2x2) square_batch)) <> _cov square_batch.
Proof.
  split; [reflexivity|]. split; [discriminate|]. split; [reflexivity|].
  cbn. intros [= H _]. lra.
Qed.

(** C5 (amended) at a call that fails. *)
Lemma C5_failed_injection_leaves_dataset_witness :
  fst (inject (AddErrCov vec_3) square_batch) = Raise ValueError /\
  ValueError = ValueError /\
  snd (inject (AddErrCov vec_3) square_batch) = square_batch.
Proof.
  split; [reflexivity|].
  apply (C5_failed_injection_leaves_dataset square_batch (AddErrCov vec_3)
           ValueError).
  reflexivity.
Defined.

(** C6 at [cov_2x2]. *)
Lemma C6_corr2cov_cov2corr_roundtrip_witness :
  wf_array cov_2x2 /\ shape cov_2x2 = [2; 2]%nat /\
  (forall i, (i < 2)%nat -> exists r, item cov_2x2 [i; i] = Fin r /\ 0 < r) /\
  exists corr err,
    cov2corr cov_2x2 = Ok corr /\ cov2err cov_2x2 = Ok err /\
    corr2cov corr err = Ok cov_2x2.
Proof.
  assert (D : forall i, (i < 2)%nat ->
                exists r, item cov_2x2 [i; i] = Fin r /\ 0 < r).
  { intros i Hi. destruct i as [|[|i]]; [exists 4|exists 9|lia];
      (split; [reflexivity|lra]). }
  split; [reflexivity|]. split; [reflexivity|]. split; [exact D|].
  apply (C6_corr2cov_cov2corr_roundtrip cov_2x2 2 eq_refl eq_refl D).
Defined.

Lemma nonneg_err_a : nonneg_entries err_a.
Proof.
  unfold nonneg_entries, err_a. cbn [buf].
  repeat constructor; eexists; (split; [reflexivity|lra]).
Qed.

Lemma nonneg_err_b : nonneg_entries err_b.
Proof.
  unfold nonneg_entries, err_b. cbn [buf].
  repeat constructor; eexists; (split; [reflexivity|lra]).
Qed.

(** C7 at [square_batch] with the errors [err_a] and [err_b]. *)
Lemma C7_add_err_uncorr_quadrature_witness :
  wf_dwe square_batch /\
  shape err_a = [n square_batch; nbins square_batch] /\ wf_array err_a /\
  nonneg_entries err_a /\
  shape err_b = [n square_batch; nbins square_batch] /\ wf_array err_b /\
  nonneg_entries err_b /\
  exists e12 dwe1 dwe2 dwe12,
    quadrature err_a err_b = Ok e12 /\
    add_err_uncorr err_a square_batch = (Ok tt, dwe1) /\
    add_err_uncorr err_b dwe1 = (Ok tt, dwe2) /\
    add_err_uncorr e12 square_batch = (Ok tt, dwe12) /\
    _cov dwe2 = _cov dwe12.
Proof.
  split; [exact wf_square_batch|]. split; [reflexivity|]. split; [reflexivity|].
  split; [exact nonneg_err_a|]. split; [reflexivity|]. split; [reflexivity|].
  split; [exact nonneg_err_b|].
  apply (C7_add_err_uncorr_quadrature square_batch err_a err_b
           wf_square_batch eq_refl eq_refl nonneg_err_a
           eq_refl eq_refl nonneg_err_b).
Defined.

(** C8 at [square_batch], which is what construction from its data gives. *)
Lemma C8_fresh_dataset_err_zero_corr_nan_witness :
  __init__ (_data square_batch) = Ok square_batch /\
  err square_batch false
  = Ok (tab2 (n square_batch) (nbins square_batch) (fun _ _ => Fin 0)) /\
  corr square_batch
  = Ok (tab3 (n square_batch) (nbins square_batch) (nbins square_batch)
             (fun _ _ _ => NaN)).
Proof.
  split; [reflexivity|].
  apply (C8_fresh_dataset_err_zero_corr_nan (_data square_batch) square_batch).
  reflexivity.
Defined.

(** C9 at [dist_3x3]. *)
Lemma C9_condense_distance_matrix_witness :
  shape dist_3x3 = [3; 3]%nat /\
  exists v,
    condense_distance_matrix dist_3x3 = Ok v /\
    shape v = [(3 * (3 - 1) / 2)%nat] /\
    length (buf v) = (3 * (3 - 1) / 2)%nat /\
    buf v = strict_upper_row_major dist_3x3 3.
Proof.
  split; [reflexivity|].
  apply (C9_condense_distance_matrix dist_3x3 3 eq_refl).
Defined.

(** C10 as stated fails: the array [cov()] returns is the stored covariance;
    overwriting it changes the dataset. *)
Lemma C10_cov_returns_the_stored_array :
  view square_heap square_instance = Some square_batch /\
  call linalg_inv_exact (GetCov false) square_instance square_batch square_heap
  = (Ok 1%nat, square_heap) /\
  view (overwrite square_heap 1%nat (np_ones [2; 2; 2]%nat)) square_instance
  <> Some square_batch.
Proof.
  split; [reflexivity|]. split; [reflexivity|].
  cbn. intros [= H _]. lra.
Qed.

(** C10 (amended) at [square_batch]: [err()] hands out a new array. *)
Lemma C10_accessor_aliasing_witness :
  view square_heap square_instance = Some square_batch /\
  exists l h',
    call linalg_inv_exact (GetErr false) square_instance square_batch square_heap
    = (Ok l, h') /\
    view h' square_instance = Some square_batch /\
    forall X, view (overwrite h' l X) square_instance = Some square_batch.
Proof.
  split; [reflexivity|].
  destruct (C10_accessor_aliasing linalg_inv_exact (GetErr false)
              square_instance square_batch square_heap eq_refl)
    as (Keep & Fresh & _).
  destruct (call linalg_inv_exact (GetErr false) square_instance square_batch
              square_heap) as [r h'] eqn:E.
  assert (R : exists l, r = Ok l).
  { cbn [call] in E. rewrite (err_ok _ wf_square_batch) in E.
    cbn in E. injection E as <- _. eauto. }
  destruct R as (l & ->).
  exists l, h'. split; [reflexivity|]. split.
  - now apply (Keep (Ok l)).
  - apply Fresh; [reflexivity|discriminate].
Defined.

(* ------------------------------------------------------------------ *)
(** * More on the covariance algebra *)

Lemma fadd_assoc (a b c : num) : fadd (fadd a b) c = fadd a (fadd b c).
Proof. destruct a, b, c; cbn; try reflexivity. f_equal. lra. Qed.

Lemma fmul_comm (a b : num) : fmul a b = fmul b a.
Proof. destruct a, b; cbn; try reflexivity. f_equal. lra. Qed.

Lemma fadd_zero_r (c : num) (z : R) : z = 0 -> fadd c (Fin z) = c.
Proof. intros ->. destruct c; cbn; try reflexivity. f_equal. lra. Qed.

Lemma item_in_buf (P : num -> Prop) (a : ndarray) (idx : list nat) :
  Forall P (buf a) -> wf_array a -> in_range (shape a) idx -> P (item a idx).
Proof.
  intros F W R. rewrite Forall_forall in F. apply F.
  unfold item. apply nth_In. rewrite W. now apply offset_lt.
Qed.

(** X1. The three conversions accept a matrix or a batch of matrices only:
    on an array of any other rank each of them raises [ValueError]
    ([cov2corr] through its call of [cov2err]). *)
Theorem cov_algebra_rejects_other_ranks (a other : ndarray) :
  rank a <> 2%nat -> rank a <> 3%nat ->
  cov2err a = Raise ValueError /\
  cov2corr a = Raise ValueError /\
  corr2cov a other = Raise ValueError.
Proof.
  intros H2 H3.
  apply Nat.eqb_neq in H2, H3.
  unfold cov2corr, cov2err, corr2cov. rewrite H2, H3. cbn [bind]. auto.
Qed.

Lemma cov_algebra_rejects_other_ranks_witness :
  rank vec_3 <> 2%nat /\ rank vec_3 <> 3%nat /\
  cov2err vec_3 = Raise ValueError /\
  cov2corr vec_3 = Raise ValueError /\
  corr2cov vec_3 vec_3 = Raise ValueError.
Proof.
  split; [cbn; lia|]. split; [cbn; lia|].
  apply (cov_algebra_rejects_other_ranks vec_3 vec_3); cbn; lia.
Defined.

(** X2. The round trip of C6 on a batch: for n covariance matrices with
    strictly positive diagonals, [corr2cov(cov2corr(cov), cov2err(cov))] is
    [cov] again. *)
Theorem batch_roundtrip (cov : ndarray) (m b : nat) :
  wf_array cov -> shape cov = [m; b; b] ->
  (forall k i, (k < m)%nat -> (i < b)%nat ->
     exists r, item cov [k; i; i] = Fin r /\ 0 < r) ->
  exists corr err,
    cov2corr cov = Ok corr /\ cov2err cov = Ok err /\ corr2cov corr err = Ok cov.
Proof.
  intros W H D.
  eexists. eexists. split; [apply (cov2corr_3d _ m b H)|].
  split; [apply (cov2err_3d _ m b H)|].
  rewrite (corr2cov_3d _ _ m b) by reflexivity. f_equal.
  transitivity (tab3 m b b (fun k i j => item cov [k; i; j]));
    [|now apply tab3_item].
  apply tab3_ext. intros k i j Hk Hi Hj.
  rewrite item_tab3, !item_tab2 by assumption.
  destruct (D k i Hk Hi) as (ri & -> & Pi).
  destruct (D k j Hk Hj) as (rj & -> & Pj).
  now apply roundtrip_entry.
Qed.

Lemma cov_batch_diagonal (k i : nat) :
  (k < 2)%nat -> (i < 2)%nat ->
  exists r, item cov_batch [k; i; i] = Fin r /\ 0 < r.
Proof.
  intros Hk Hi.
  destruct k as [|[|k]]; [| |lia]; (destruct i as [|[|i]]; [| |lia]);
    eexists; (split; [reflexivity|lra]).
Qed.

Lemma batch_roundtrip_witness :
  wf_array cov_batch /\ shape cov_batch = [2; 2; 2]%nat /\
  (forall k i, (k < 2)%nat -> (i < 2)%nat ->
     exists r, item cov_batch [k; i; i] = Fin r /\ 0 < r) /\
  exists corr err,
    cov2corr cov_batch = Ok corr /\ cov2err cov_batch = Ok err /\
    corr2cov corr err = Ok cov_batch.
Proof.
  split; [reflexivity|]. split; [reflexivity|]. split; [exact cov_batch_diagonal|].
  apply (batch_roundtrip cov_batch 2 2 eq_refl eq_refl cov_batch_diagonal).
Defined.

(** X3. The correlation of a batch of covariance matrices with strictly
    positive diagonals has ones on every diagonal, and it is symmetric where
    the covariance is. *)
Theorem cov2corr_unit_diagonal (cov : ndarray) (m b : nat) :
  shape cov = [m; b; b] ->
  (forall k i, (k < m)%nat -> (i < b)%nat ->
     exists r, item cov [k; i; i] = Fin r /\ 0 < r) ->
  exists corr,
    cov2corr cov = Ok corr /\
    (forall k i, (k < m)%nat -> (i < b)%nat -> item corr [k; i; i] = Fin 1) /\
    (forall k i j, (k < m)%nat -> (i < b)%nat -> (j < b)%nat ->
       item cov [k; i; j] = item cov [k; j; i] ->
       item corr [k; i; j] = item corr [k; j; i]).
Proof.
  intros H D. eexists. split; [apply (cov2corr_3d _ m b H)|]. split.
  - intros k i Hk Hi. rewrite item_tab3 by assumption.
    destruct (D k i Hk Hi) as (r & -> & P).
    rewrite fsqrt_fin by lra. cbn [fmul].
    pose proof (sqrt_lt_R0 r P) as S. pose proof (sqrt_sqrt r (Rlt_le _ _ P)) as Q.
    rewrite fdiv_fin by nra. f_equal. rewrite Q. field. lra.
  - intros k i j Hk Hi Hj E. rewrite !item_tab3 by assumption.
    rewrite E. f_equal. apply fmul_comm.
Qed.

Lemma cov2corr_unit_diagonal_witness :
  shape cov_batch = [2; 2; 2]%nat /\
  (forall k i, (k < 2)%nat -> (i < 2)%nat ->
     exists r, item cov_batch [k; i; i] = Fin r /\ 0 < r) /\
  exists corr,
    cov2corr cov_batch = Ok corr /\
    (forall k i, (k < 2)%nat -> (i < 2)%nat -> item corr [k; i; i] = Fin 1) /\
    (forall k i j, (k < 2)%nat -> (i < 2)%nat -> (j < 2)%nat ->
       item cov_batch [k; i; j] = item cov_batch [k; j; i] ->
       item corr [k; i; j] = item corr [k; j; i]).
Proof.
  split; [reflexivity|]. split; [exact cov_batch_diagonal|].
  apply (cov2corr_unit_diagonal cov_batch 2 2 eq_refl cov_batch_diagonal).
Defined.

(** Reading back what [corr2cov] was given. *)
Lemma read_back_entry (c : num) (ei ej : R) :
  0 < ei -> 0 < ej ->
  fdiv (fmul (fmul c (Fin ei)) (Fin ej))
       (fmul (fsqrt (fmul (fmul (Fin 1) (Fin ei)) (Fin ei)))
             (fsqrt (fmul (fmul (Fin 1) (Fin ej)) (Fin ej)))) = c.
Proof.
  intros Pi Pj. cbn [fmul].
  assert (Si : sqrt (1 * ei * ei) = ei).
  { replace (1 * ei * ei) with (ei * ei) by ring. apply sqrt_square. lra. }
  assert (Sj : sqrt (1 * ej * ej) = ej).
  { replace (1 * ej * ej) with (ej * ej) by ring. apply sqrt_square. lra. }
  rewrite !fsqrt_fin by nra. rewrite Si, Sj. cbn [fmul].
  assert (P : 0 < ei * ej) by now apply Rmult_lt_0_compat.
  destruct c as [x| | |].
  - cbn [fmul]. rewrite fdiv_fin by lra. f_equal. field. lra.
  - cbn [fmul]. rewrite (Rsign_pos _ Pi). cbn [inf_of_sign fmul].
    rewrite (Rsign_pos _ Pj). cbn [inf_of_sign fdiv]. now rewrite (Rsign_pos _ P).
  - cbn [fmul]. rewrite (Rsign_pos _ Pi). cbn [CompOpp inf_of_sign fmul].
    rewrite (Rsign_pos _ Pj). cbn [CompOpp inf_of_sign fdiv].
    now rewrite (Rsign_pos _ P).
  - reflexivity.
Qed.

Lemma read_back_error (e : R) :
  0 <= e -> fsqrt (fmul (fmul (Fin 1) (Fin e)) (Fin e)) = Fin e.
Proof.
  intros P. cbn [fmul]. rewrite fsqrt_fin by nra. f_equal.
  replace (1 * e * e) with (e * e) by ring. now apply sqrt_square.
Qed.

Lemma corr2cov_read_back_3d (corr err : ndarray) (m b : nat) :
  wf_array corr -> shape corr = [m; b; b] ->
  wf_array err -> shape err = [m; b] -> positive_entries err ->
  (forall k i, (k < m)%nat -> (i < b)%nat -> item corr [k; i; i] = Fin 1) ->
  exists cov,
    corr2cov corr err = Ok cov /\ shape cov = [m; b; b] /\ wf_array cov /\
    cov2err cov = Ok err /\ cov2corr cov = Ok corr.
Proof.
  intros Wc Hc We He Pe U.
  assert (F : forall k i, (k < m)%nat -> (i < b)%nat ->
                exists e, item err [k; i] = Fin e /\ 0 < e).
  { intros k i Hk Hi.
    apply (item_in_buf (fun x => exists r, x = Fin r /\ 0 < r)); try assumption.
    rewrite He. now apply in_range2. }
  eexists. split; [apply (corr2cov_3d _ _ m b Hc He)|].
  split; [reflexivity|]. split; [apply wf_tab3|]. split.
  - rewrite (cov2err_3d _ m b) by reflexivity. f_equal.
    transitivity (tab2 m b (fun k i => item err [k; i])); [|now apply tab2_item].
    apply tab2_ext. intros k i Hk Hi. rewrite item_tab3 by assumption.
    rewrite (U k i Hk Hi). destruct (F k i Hk Hi) as (e & -> & P).
    apply read_back_error. lra.
  - rewrite (cov2corr_3d _ m b) by reflexivity. f_equal.
    transitivity (tab3 m b b (fun k i j => item corr [k; i; j]));
      [|now apply tab3_item].
    apply tab3_ext. intros k i j Hk Hi Hj. rewrite !item_tab3 by assumption.
    rewrite (U k i Hk Hi), (U k j Hk Hj).
    destruct (F k i Hk Hi) as (ei & -> & Pi).
    destruct (F k j Hk Hj) as (ej & -> & Pj).
    now apply read_back_entry.
Qed.

(** X4. The round trip in the other direction: from a batch of correlation
    matrices with unit diagonal and a batch of strictly positive errors,
    [corr2cov] builds a covariance from which [cov2err] gives the errors
    back and [cov2corr] the correlations. *)
Theorem corr2cov_read_back (corr err : ndarray) (m b : nat) :
  wf_array corr -> shape corr = [m; b; b] ->
  wf_array err -> shape err = [m; b] -> positive_entries err ->
  (forall k i, (k < m)%nat -> (i < b)%nat -> item corr [k; i; i] = Fin 1) ->
  exists cov,
    corr2cov corr err = Ok cov /\
    cov2err cov = Ok err /\ cov2corr cov = Ok corr.
Proof.
  intros Wc Hc We He Pe U.
  destruct (corr2cov_read_back_3d corr err m b Wc Hc We He Pe U)
    as (cov & H1 & _ & _ & H2 & H3).
  exists cov. auto.
Qed.

Lemma positive_err_pos : positive_entries err_pos.
Proof.
  unfold positive_entries, err_pos. cbn [buf].
  repeat constructor; eexists; (split; [reflexivity|lra]).
Qed.

Lemma corr_batch_diagonal (k i : nat) :
  (k < 2)%nat -> (i < 2)%nat -> item corr_batch [k; i; i] = Fin 1.
Proof.
  intros Hk Hi.
  destruct k as [|[|k]]; [| |lia]; (destruct i as [|[|i]]; [| |lia]); reflexivity.
Qed.

Lemma corr2cov_read_back_witness :
  wf_array corr_batch /\ shape corr_batch = [2; 2; 2]%nat /\
  wf_array err_pos /\ shape err_pos = [2; 2]%nat /\ positive_entries err_pos /\
  (forall k i, (k < 2)%nat -> (i < 2)%nat -> item corr_batch [k; i; i] = Fin 1) /\
  exists cov,
    corr2cov corr_batch err_pos = Ok cov /\
    cov2err cov = Ok err_pos /\ cov2corr cov = Ok corr_batch.
Proof.
  split; [reflexivity|]. split; [reflexivity|]. split; [reflexivity|].
  split; [reflexivity|]. split; [exact positive_err_pos|].
  split; [exact corr_batch_diagonal|].
  apply (corr2cov_read_back corr_batch err_pos 2 2 eq_refl eq_refl eq_refl eq_refl
           positive_err_pos corr_batch_diagonal).
Defined.

(** X5. [rel2abs_cov] turns one b x b relative covariance and n x b data
    into n absolute covariances: entry (k, i, j) is the relative entry
    (i, j) times the contents of bins i and j of histogram k. *)
Theorem rel2abs_cov_entries (cov data : ndarray) (m b : nat) :
  shape cov = [b; b] -> shape data = [m; b] ->
  exists a,
    rel2abs_cov cov data = Ok a /\ shape a = [m; b; b] /\
    forall k i j, (k < m)%nat -> (i < b)%nat -> (j < b)%nat ->
      item a [k; i; j]
      = fmul (fmul (item cov [i; j]) (item data [k; i])) (item data [k; j]).
Proof.
  intros Hc Hd. eexists. split; [apply (einsum_ij_ki_kj _ _ m b Hc Hd)|].
  split; [reflexivity|]. intros k i j Hk Hi Hj. now rewrite item_tab3.
Qed.

Lemma rel2abs_cov_entries_witness :
  shape cov_2x2 = [2; 2]%nat /\ shape (_data square_batch) = [2; 2]%nat /\
  exists a,
    rel2abs_cov cov_2x2 (_data square_batch) = Ok a /\ shape a = [2; 2; 2]%nat /\
    forall k i j, (k < 2)%nat -> (i < 2)%nat -> (j < 2)%nat ->
      item a [k; i; j]
      = fmul (fmul (item cov_2x2 [i; j]) (item (_data square_batch) [k; i]))
             (item (_data square_batch) [k; j]).
Proof.
  split; [reflexivity|]. split; [reflexivity|].
  apply (rel2abs_cov_entries cov_2x2 (_data square_batch) 2 2 eq_refl eq_refl).
Defined.

Lemma rel2abs_cov_rank (cov data : ndarray) :
  rank cov <> 2%nat -> rel2abs_cov cov data = Raise ValueError.
Proof.
  intros Hr. unfold rel2abs_cov, einsum.
  match goal with
  | |- context [parse_subscripts ?s] =>
      let p := eval vm_compute in (parse_subscripts s) in
      change (parse_subscripts s) with p
  end.
  cbv beta iota. unfold einsum_labels.
  cbn [length combine forallb fst snd].
  apply Nat.eqb_neq in Hr. rewrite Nat.eqb_sym in Hr. rewrite Hr.
  reflexivity.
Qed.

(** X6. [add_rel_err_cov] takes one relative covariance matrix for the
    whole batch: given an array of any other rank, a batch of matrices for
    instance, it raises [ValueError] and leaves the dataset as it was. *)
Theorem add_rel_err_cov_rejects_batch (dwe : DataWithErrors) (cov : ndarray) :
  rank cov <> 2%nat ->
  add_rel_err_cov cov dwe = (Raise ValueError, dwe).
Proof.
  intros Hr. unfold add_rel_err_cov, with_value.
  now rewrite (rel2abs_cov_rank _ _ Hr).
Qed.

Lemma add_rel_err_cov_rejects_batch_witness :
  rank cov_batch <> 2%nat /\
  add_rel_err_cov cov_batch square_batch = (Raise ValueError, square_batch).
Proof.
  split; [cbn; lia|].
  apply (add_rel_err_cov_rejects_batch square_batch cov_batch). cbn. lia.
Defined.

(* ------------------------------------------------------------------ *)
(** * Error injection: order, invariants, broadcasting *)

Lemma shape_eqb_neq (s t : list nat) : shape_eqb s t = false -> s <> t.
Proof. intros H ->. now rewrite shape_eqb_refl in H. Qed.

(** [a op= b] succeeds exactly when the broadcast of the two shapes is the
    shape of [a]. *)
Lemma inplace_op_cases f (a b : ndarray) :
  (broadcast_shapes (shape a) (shape b) = Some (shape a) /\
   inplace_op f a b
   = Ok (tabulate (shape a) (fun idx =>
           f (item a idx) (item b (bindex (shape b) idx))))) \/
  (broadcast_shapes (shape a) (shape b) <> Some (shape a) /\
   inplace_op f a b = Raise ValueError).
Proof.
  unfold inplace_op. destruct (broadcast_shapes (shape a) (shape b)) as [s|].
  - destruct (shape_eqb s (shape a)) eqn:E.
    + apply shape_eqb_eq in E. subst s. left. split; [reflexivity|].
      f_equal. apply tabulate_ext. intros idx Hr. now rewrite bindex_same.
    + right. split; [|reflexivity]. intros [= H]. now apply shape_eqb_neq in E.
  - right. split; [discriminate|reflexivity].
Qed.

Lemma add_err_cov_cases (c : ndarray) (dwe : DataWithErrors) :
  (broadcast_shapes (shape (_cov dwe)) (shape c) = Some (shape (_cov dwe)) /\
   add_err_cov c dwe
   = (Ok tt, set_cov dwe (tabulate (shape (_cov dwe)) (fun idx =>
               fadd (item (_cov dwe) idx) (item c (bindex (shape c) idx)))))) \/
  (broadcast_shapes (shape (_cov dwe)) (shape c) <> Some (shape (_cov dwe)) /\
   add_err_cov c dwe = (Raise ValueError, dwe)).
Proof.
  unfold add_err_cov, with_value.
  destruct (inplace_op_cases fadd (_cov dwe) c) as [[H ->]|[H ->]]; auto.
Qed.

Lemma add_err_cov_after (b X : ndarray) (dwe : DataWithErrors) :
  shape X = shape (_cov dwe) ->
  (broadcast_shapes (shape (_cov dwe)) (shape b) = Some (shape (_cov dwe)) ->
   add_err_cov b (set_cov dwe X)
   = (Ok tt, set_cov dwe (tabulate (shape (_cov dwe)) (fun idx =>
               fadd (item X idx) (item b (bindex (shape b) idx)))))) /\
  (broadcast_shapes (shape (_cov dwe)) (shape b) <> Some (shape (_cov dwe)) ->
   add_err_cov b (set_cov dwe X) = (Raise ValueError, set_cov dwe X)).
Proof.
  intros HX.
  destruct (add_err_cov_cases b (set_cov dwe X)) as [[F E]|[F E]];
    cbn [set_cov _cov _data n nbins] in F, E; rewrite HX in F; rewrite E.
  - split; [|congruence]. intros _. unfold set_cov. cbn [_data n nbins].
    now rewrite HX.
  - split; [congruence|reflexivity].
Qed.

Lemma add_err_cov_commute (a b : ndarray) (dwe : DataWithErrors) :
  snd (add_err_cov b (snd (add_err_cov a dwe)))
  = snd (add_err_cov a (snd (add_err_cov b dwe))) /\
  fst (add_err_cov b (snd (add_err_cov a dwe))) = fst (add_err_cov b dwe).
Proof.
  set (s := shape (_cov dwe)).
  set (Xa := tabulate s (fun idx =>
               fadd (item (_cov dwe) idx) (item a (bindex (shape a) idx)))).
  set (Xb := tabulate s (fun idx =>
               fadd (item (_cov dwe) idx) (item b (bindex (shape b) idx)))).
  destruct (add_err_cov_after b Xa dwe eq_refl) as [Ab1 Ab2].
  destruct (add_err_cov_after a Xb dwe eq_refl) as [Aa1 Aa2].
  destruct (add_err_cov_cases a dwe) as [[Fa Ea]|[Fa Ea]];
  destruct (add_err_cov_cases b dwe) as [[Fb Eb]|[Fb Eb]];
    rewrite Ea, Eb; cbn [fst snd]; fold s Xa Xb.
  - rewrite (Ab1 Fb), (Aa1 Fa). cbn [fst snd]. split; [|reflexivity].
    f_equal. apply tabulate_ext. intros idx Hr. unfold Xa, Xb.
    rewrite !item_tabulate by assumption.
    rewrite !fadd_assoc. f_equal. apply fadd_comm.
  - rewrite (Ab2 Fb), Ea. auto.
  - rewrite (Aa2 Fa), Eb. auto.
  - rewrite Ea, Eb. auto.
Qed.

Lemma inject_increment (c : injection) (dwe : DataWithErrors) :
  inject c dwe = with_value (increment c dwe) add_err_cov dwe.
Proof.
  destruct c as [cov|err|err corr|cov|err|err|err corr];
    cbn [inject increment]; try reflexivity.
  - unfold add_rel_err_uncorr, add_rel_err_corr, add_rel_err_cov, with_value.
    now destruct (corr2cov _ _).
  - unfold add_rel_err_maxcorr, add_rel_err_corr, add_rel_err_cov, with_value.
    now destruct (corr2cov _ _).
  - unfold add_rel_err_corr, add_rel_err_cov, with_value.
    now destruct (corr2cov _ _).
Qed.

Lemma increment_set_cov (c : injection) (dwe : DataWithErrors) (x : ndarray) :
  increment c (set_cov dwe x) = increment c dwe.
Proof. now destruct c. Qed.

Lemma increment_after_inject (c c' : injection) (dwe : DataWithErrors) :
  increment c (snd (inject c' dwe)) = increment c dwe.
Proof.
  destruct (frame_inject c' dwe) as [[_ ->]|[_ (x & -> & _)]];
    [reflexivity|apply increment_set_cov].
Qed.

Lemma inject_via (dwe : DataWithErrors) (c : injection) (d : DataWithErrors) :
  increment c d = increment c dwe ->
  inject c d = match increment c dwe with
               | Ok a => add_err_cov a d
               | Raise e => (Raise e, d)
               end.
Proof. intros H. rewrite inject_increment, H. reflexivity. Qed.

(** X7. Error injection does not depend on the order of the calls: for any
    two calls, failing ones included, the dataset after both is the same in
    either order, and whether the second call fails does not depend on the
    first having been made. *)
Theorem inject_commute (dwe : DataWithErrors) (c1 c2 : injection) :
  snd (inject c2 (snd (inject c1 dwe))) = snd (inject c1 (snd (inject c2 dwe))) /\
  fst (inject c2 (snd (inject c1 dwe))) = fst (inject c2 dwe).
Proof.
  pose proof (inject_via dwe c2 _ (increment_after_inject c2 c1 dwe)) as E12.
  pose proof (inject_via dwe c1 _ (increment_after_inject c1 c2 dwe)) as E21.
  pose proof (inject_via dwe c1 dwe eq_refl) as E1.
  pose proof (inject_via dwe c2 dwe eq_refl) as E2.
  rewrite E12, E21. clear E12 E21. rewrite E1, E2. clear E1 E2.
  destruct (increment c1 dwe) as [a|e1], (increment c2 dwe) as [b|e2];
    cbn [fst snd]; auto.
  apply add_err_cov_commute.
Qed.

Lemma mutate_frame (m : mutation) (dwe : DataWithErrors) :
  wf_dwe dwe ->
  wf_dwe (snd (mutate m dwe)) /\ _data (snd (mutate m dwe)) = _data dwe /\
  n (snd (mutate m dwe)) = n dwe /\ nbins (snd (mutate m dwe)) = nbins dwe.
Proof.
  intros Wf.
  assert (F : forall c, wf_dwe (snd (inject c dwe)) /\
                        _data (snd (inject c dwe)) = _data dwe /\
                        n (snd (inject c dwe)) = n dwe /\
                        nbins (snd (inject c dwe)) = nbins dwe).
  { intros c. destruct (inject_preserves_wf c dwe Wf) as [H1 H2].
    split; [exact H1|]. split; [exact H2|].
    destruct (frame_inject c dwe) as [[_ ->]|[_ (x & -> & _)]]; auto. }
  destruct m as [c|]; [apply F|].
  apply (F (AddErrUncorr (np_sqrt (_data dwe)))).
Qed.

(** X8. What every reachable dataset satisfies: after construction from an
    n x b array and any sequence of error-injection calls
    ([add_poisson_error] included, failed calls included) the stored data is
    still the array given to the constructor, [n] and [nbins] are its two
    dimensions, and the covariance is an n x b x b array. *)
Theorem reachable_dataset_invariant (data : ndarray) (dwe0 : DataWithErrors)
  (ms : list mutation) :
  wf_array data -> __init__ data = Ok dwe0 ->
  wf_dwe (run_all ms dwe0) /\
  _data (run_all ms dwe0) = data /\
  shape data = [n (run_all ms dwe0); nbins (run_all ms dwe0)].
Proof.
  intros W H. pose proof (init_wf _ _ W H) as Wf0.
  apply init_inv in H as [Hs E0].
  assert (D0 : _data dwe0 = data) by (rewrite E0; reflexivity).
  clear E0. revert dwe0 Wf0 Hs D0. unfold run_all.
  induction ms as [|m ms IH]; intros dwe Wf Hs D; cbn [fold_left].
  - auto.
  - destruct (mutate_frame m dwe Wf) as (W1 & D1 & N1 & B1).
    apply IH; [exact W1|now rewrite N1, B1|congruence].
Qed.

Lemma reachable_dataset_invariant_witness :
  wf_array (_data square_batch) /\
  __init__ (_data square_batch) = Ok square_batch /\
  wf_dwe (run_all [Inject (AddErrCov vec_3); AddPoissonError] square_batch) /\
  _data (run_all [Inject (AddErrCov vec_3); AddPoissonError] square_batch)
  = _data square_batch /\
  shape (_data square_batch)
  = [n (run_all [Inject (AddErrCov vec_3); AddPoissonError] square_batch);
     nbins (run_all [Inject (AddErrCov vec_3); AddPoissonError] square_batch)].
Proof.
  split; [reflexivity|]. split; [reflexivity|].
  apply (reachable_dataset_invariant (_data square_batch) square_batch
           [Inject (AddErrCov vec_3); AddPoissonError] eq_refl eq_refl).
Defined.

Lemma broadcast_shapes_3_2 (m b : nat) :
  broadcast_shapes [m; b; b] [b; b] = Some [m; b; b].
Proof.
  unfold broadcast_shapes. cbn [rev app bshape_rev].
  rewrite !bdim_same. reflexivity.
Qed.

Lemma bindex_3_2 (b k i j : nat) :
  (i < b)%nat -> (j < b)%nat -> bindex [b; b] [k; i; j] = [i; j].
Proof.
  intros Hi Hj. unfold bindex, map2.
  cbn [length Nat.sub skipn combine map fst snd]. now rewrite !bsel.
Qed.

(** X9. [add_err_cov] broadcasts: given one b x b matrix instead of a batch
    of n, it returns normally and has added that matrix to the covariance
    of every histogram. *)
Theorem add_err_cov_broadcasts_matrix (dwe : DataWithErrors) (c : ndarray) :
  wf_dwe dwe -> shape c = [nbins dwe; nbins dwe] ->
  add_err_cov c dwe
  = (Ok tt, set_cov dwe (tab3 (n dwe) (nbins dwe) (nbins dwe) (fun k i j =>
              fadd (item (_cov dwe) [k; i; j]) (item c [i; j])))).
Proof.
  intros (_ & _ & Hc & _) Hs.
  destruct (add_err_cov_cases c dwe) as [[_ ->]|[N _]].
  - f_equal. f_equal. rewrite Hc, Hs. apply tabulate_tab3.
    intros k i j Hk Hi Hj. now rewrite bindex_3_2.
  - rewrite Hc, Hs, broadcast_shapes_3_2 in N. congruence.
Qed.

Lemma add_err_cov_broadcasts_matrix_witness :
  wf_dwe square_batch /\
  shape cov_2x2 = [nbins square_batch; nbins square_batch] /\
  add_err_cov cov_2x2 square_batch
  = (Ok tt, set_cov square_batch
              (tab3 (n square_batch) (nbins square_batch) (nbins square_batch)
                    (fun k i j => fadd (item (_cov square_batch) [k; i; j])
                                       (item cov_2x2 [i; j])))).
Proof.
  split; [exact wf_square_batch|]. split; [reflexivity|].
  apply (add_err_cov_broadcasts_matrix square_batch cov_2x2 wf_square_batch eq_refl).
Defined.

Lemma item_finite (a : ndarray) (idx : list nat) :
  finite_entries a -> wf_array a -> in_range (shape a) idx ->
  exists r, item a idx = Fin r.
Proof. intros F. now apply (item_in_buf (fun x => exists r, x = Fin r)). Qed.

(** X10. [add_err_uncorr] with an n x b array of finite errors adds the
    square of each error to the diagonal entry of its bin and leaves every
    off-diagonal covariance, and the data, as they are. *)
Theorem add_err_uncorr_entries (dwe : DataWithErrors) (e : ndarray) :
  wf_dwe dwe -> shape e = [n dwe; nbins dwe] -> wf_array e -> finite_entries e ->
  exists dwe',
    add_err_uncorr e dwe = (Ok tt, dwe') /\ _data dwe' = _data dwe /\
    forall k i j, (k < n dwe)%nat -> (i < nbins dwe)%nat -> (j < nbins dwe)%nat ->
      item (_cov dwe') [k; i; j]
      = if (i =? j)%nat
        then fadd (item (_cov dwe) [k; i; i]) (fsquare (item e [k; i]))
        else item (_cov dwe) [k; i; j].
Proof.
  intros Wf He We Fe. eexists.
  split; [apply (add_err_uncorr_ok _ _ Wf He)|]. split; [reflexivity|].
  intros k i j Hk Hi Hj. cbn [set_cov _cov]. rewrite item_tab3 by assumption.
  assert (F : forall i', (i' < nbins dwe)%nat -> exists r, item e [k; i'] = Fin r).
  { intros i' H. apply item_finite; try assumption.
    rewrite He. now apply in_range2. }
  destruct (F i Hi) as (ei & Ei). destruct (F j Hj) as (ej & Ej).
  destruct (Nat.eqb_spec i j) as [<-|N].
  - rewrite Ei. cbn [fmul fsquare]. do 2 f_equal. ring.
  - rewrite Ei, Ej. cbn [fmul]. apply fadd_zero_r. ring.
Qed.

Lemma finite_err_a : finite_entries err_a.
Proof.
  unfold finite_entries, err_a. cbn [buf]. repeat constructor; eexists; reflexivity.
Qed.

Lemma add_err_uncorr_entries_witness :
  wf_dwe square_batch /\ shape err_a = [n square_batch; nbins square_batch] /\
  wf_array err_a /\ finite_entries err_a /\
  exists dwe',
    add_err_uncorr err_a square_batch = (Ok tt, dwe') /\
    _data dwe' = _data square_batch /\
    forall k i j, (k < n square_batch)%nat -> (i < nbins square_batch)%nat ->
                  (j < nbins square_batch)%nat ->
      item (_cov dwe') [k; i; j]
      = if (i =? j)%nat
        then fadd (item (_cov square_batch) [k; i; i]) (fsquare (item err_a [k; i]))
        else item (_cov square_batch) [k; i; j].
Proof.
  split; [exact wf_square_batch|]. split; [reflexivity|]. split; [reflexivity|].
  split; [exact finite_err_a|].
  apply (add_err_uncorr_entries square_batch err_a wf_square_batch eq_refl eq_refl
           finite_err_a).
Defined.

(* ------------------------------------------------------------------ *)
(** * Errors added to a fresh dataset, read back *)

Lemma item_zeros3 (d0 d1 d2 k i j : nat) :
  (k < d0)%nat -> (i < d1)%nat -> (j < d2)%nat ->
  item (np_zeros [d0; d1; d2]) [k; i; j] = Fin 0.
Proof.
  intros. unfold np_zeros. now rewrite item_tabulate by now apply in_range3.
Qed.

(** On a fresh dataset the first covariance added is the covariance stored. *)
Lemma fresh_add_err_cov (data : ndarray) (dwe0 : DataWithErrors) (c : ndarray) :
  __init__ data = Ok dwe0 ->
  wf_array c -> shape c = [n dwe0; nbins dwe0; nbins dwe0] ->
  add_err_cov c dwe0 = (Ok tt, set_cov dwe0 c).
Proof.
  intros H W S. apply init_inv in H as [_ E].
  rewrite (add_err_cov_same c dwe0 [n dwe0; nbins dwe0; nbins dwe0]);
    [|rewrite E; reflexivity|exact S].
  f_equal. f_equal.
  transitivity (tab3 (n dwe0) (nbins dwe0) (nbins dwe0)
                     (fun k i j => item c [k; i; j])); [|now apply tab3_item].
  apply tabulate_tab3. intros k i j Hk Hi Hj.
  rewrite E at 1. cbn [_cov]. rewrite item_zeros3 by assumption.
  apply fadd_0_l.
Qed.

Lemma wf_set_cov_fresh (data : ndarray) (dwe0 : DataWithErrors) (c : ndarray) :
  wf_array data -> __init__ data = Ok dwe0 ->
  wf_array c -> shape c = [n dwe0; nbins dwe0; nbins dwe0] ->
  wf_dwe (set_cov dwe0 c).
Proof.
  intros W H Wc Sc. apply wf_set_cov; try assumption. now apply (init_wf data).
Qed.

Lemma fresh_add_err_corr (data : ndarray) (dwe0 : DataWithErrors)
  (e c : ndarray) :
  wf_array data -> __init__ data = Ok dwe0 ->
  wf_array c -> shape c = [n dwe0; nbins dwe0; nbins dwe0] ->
  wf_array e -> shape e = [n dwe0; nbins dwe0] -> positive_entries e ->
  (forall k i, (k < n dwe0)%nat -> (i < nbins dwe0)%nat ->
     item c [k; i; i] = Fin 1) ->
  exists dwe,
    add_err_corr e c dwe0 = (Ok tt, dwe) /\
    err dwe false = Ok e /\ corr dwe = Ok c.
Proof.
  intros W H Wc Sc We Se Pe U.
  destruct (corr2cov_read_back_3d c e _ _ Wc Sc We Se Pe U)
    as (x & E & S & Wcov & R1 & R2).
  exists (set_cov dwe0 x). split; [|split].
  - unfold add_err_corr, with_value. rewrite E.
    now apply (fresh_add_err_cov data).
  - exact R1.
  - exact R2.
Qed.

(** X11. Correlated errors read back: on a fresh dataset,
    [add_err_corr(err, corr)] with strictly positive errors and correlation
    matrices of unit diagonal returns normally, and afterwards [err()] is
    [err] and [corr()] is [corr]. *)
Theorem add_err_corr_read_back (data : ndarray) (dwe0 : DataWithErrors)
  (e c : ndarray) :
  wf_array data -> __init__ data = Ok dwe0 ->
  wf_array c -> shape c = [n dwe0; nbins dwe0; nbins dwe0] ->
  wf_array e -> shape e = [n dwe0; nbins dwe0] -> positive_entries e ->
  (forall k i, (k < n dwe0)%nat -> (i < nbins dwe0)%nat ->
     item c [k; i; i] = Fin 1) ->
  exists dwe,
    add_err_corr e c dwe0 = (Ok tt, dwe) /\
    err dwe false = Ok e /\ corr dwe = Ok c.
Proof. apply fresh_add_err_corr. Qed.

Lemma add_err_corr_read_back_witness :
  wf_array (_data square_batch) /\
  __init__ (_data square_batch) = Ok square_batch /\
  wf_array corr_batch /\
  shape corr_batch
  = [n square_batch; nbins square_batch; nbins square_batch] /\
  wf_array err_pos /\ shape err_pos = [n square_batch; nbins square_batch] /\
  positive_entries err_pos /\
  (forall k i, (k < n square_batch)%nat -> (i < nbins square_batch)%nat ->
     item corr_batch [k; i; i] = Fin 1) /\
  exists dwe,
    add_err_corr err_pos corr_batch square_batch = (Ok tt, dwe) /\
    err dwe false = Ok err_pos /\ corr dwe = Ok corr_batch.
Proof.
  split; [reflexivity|]. split; [reflexivity|]. split; [reflexivity|].
  split; [reflexivity|]. split; [reflexivity|]. split; [reflexivity|].
  split; [exact positive_err_pos|]. split; [exact corr_batch_diagonal|].
  apply (add_err_corr_read_back (_data square_batch) square_batch err_pos
           corr_batch eq_refl eq_refl eq_refl eq_refl eq_refl eq_refl
           positive_err_pos corr_batch_diagonal).
Defined.

(** X12. Uncorrelated errors give the identity correlation: on a fresh
    dataset, after [add_err_uncorr] with strictly positive errors, [corr()]
    is the identity matrix in every histogram. *)
Theorem uncorr_errors_identity_correlation (data : ndarray)
  (dwe0 : DataWithErrors) (e : ndarray) :
  wf_array data -> __init__ data = Ok dwe0 ->
  wf_array e -> shape e = [n dwe0; nbins dwe0] -> positive_entries e ->
  exists dwe,
    add_err_uncorr e dwe0 = (Ok tt, dwe) /\
    corr dwe
    = Ok (tab3 (n dwe0) (nbins dwe0) (nbins dwe0)
               (fun _ i j => if (i =? j)%nat then Fin 1 else Fin 0)).
Proof.
  intros W H We Se Pe.
  destruct (fresh_add_err_corr data dwe0 e
              (np_tile (np_identity (nbins dwe0)) [n dwe0; 1; 1]%nat))
    as (dwe & E & _ & R); try assumption.
  - rewrite tile_identity. apply wf_tab3.
  - rewrite tile_identity. reflexivity.
  - intros k i Hk Hi. rewrite tile_identity, item_tab3 by assumption.
    now rewrite Nat.eqb_refl.
  - exists dwe. split; [exact E|]. now rewrite <- tile_identity.
Qed.

Lemma uncorr_errors_identity_correlation_witness :
  wf_array (_data square_batch) /\
  __init__ (_data square_batch) = Ok square_batch /\
  wf_array err_pos /\ shape err_pos = [n square_batch; nbins square_batch] /\
  positive_entries err_pos /\
  exists dwe,
    add_err_uncorr err_pos square_batch = (Ok tt, dwe) /\
    corr dwe
    = Ok (tab3 (n square_batch) (nbins square_batch) (nbins square_batch)
               (fun _ i j => if (i =? j)%nat then Fin 1 else Fin 0)).
Proof.
  split; [reflexivity|]. split; [reflexivity|]. split; [reflexivity|].
  split; [reflexivity|]. split; [exact positive_err_pos|].
  apply (uncorr_errors_identity_correlation (_data square_batch) square_batch
           err_pos eq_refl eq_refl eq_refl eq_refl positive_err_pos).
Defined.

Lemma fresh_add_err_uncorr (data : ndarray) (dwe0 : DataWithErrors) (e : ndarray) :
  wf_array data -> __init__ data = Ok dwe0 ->
  wf_array e -> shape e = [n dwe0; nbins dwe0] -> nonneg_entries e ->
  exists dwe,
    add_err_uncorr e dwe0 = (Ok tt, dwe) /\
    err dwe false = Ok e /\
    (forall k i, (k < n dwe0)%nat -> (i < nbins dwe0)%nat ->
       item (_cov dwe) [k; i; i] = fsquare (item e [k; i])).
Proof.
  intros W H We Se Ne. pose proof (init_wf _ _ W H) as Wf0.
  pose proof H as H'. apply init_inv in H' as [_ E0].
  assert (F : forall k i, (k < n dwe0)%nat -> (i < nbins dwe0)%nat ->
                exists r, item e [k; i] = Fin r /\ 0 <= r).
  { intros k i Hk Hi. apply item_nonneg; try assumption.
    rewrite Se. now apply in_range2. }
  assert (Z : forall k i, (k < n dwe0)%nat -> (i < nbins dwe0)%nat ->
                item (_cov dwe0) [k; i; i] = Fin 0).
  { intros k i Hk Hi. rewrite E0. cbn [_cov]. now apply item_zeros3. }
  eexists. split; [apply (add_err_uncorr_ok _ _ Wf0 Se)|]. split.
  - unfold err. cbn [negb set_cov _cov].
    rewrite (cov2err_3d _ (n dwe0) (nbins dwe0)) by reflexivity. f_equal.
    transitivity (tab2 (n dwe0) (nbins dwe0) (fun k i => item e [k; i]));
      [|now apply tab2_item].
    apply tab2_ext. intros k i Hk Hi. rewrite item_tab3 by assumption.
    rewrite Nat.eqb_refl, (Z k i Hk Hi), fadd_0_l.
    destruct (F k i Hk Hi) as (r & -> & P). now apply read_back_error.
  - intros k i Hk Hi. cbn [set_cov _cov]. rewrite item_tab3 by assumption.
    rewrite Nat.eqb_refl, (Z k i Hk Hi), fadd_0_l.
    destruct (F k i Hk Hi) as (r & -> & P). cbn [fmul fsquare]. f_equal. ring.
Qed.

(** X13. Uncorrelated errors read back: on a fresh dataset, after
    [add_err_uncorr(e)] with finite non-negative errors, [err()] is [e]. *)
Theorem add_err_uncorr_read_back (data : ndarray) (dwe0 : DataWithErrors)
  (e : ndarray) :
  wf_array data -> __init__ data = Ok dwe0 ->
  wf_array e -> shape e = [n dwe0; nbins dwe0] -> nonneg_entries e ->
  exists dwe,
    add_err_uncorr e dwe0 = (Ok tt, dwe) /\ err dwe false = Ok e.
Proof.
  intros W H We Se Ne.
  destruct (fresh_add_err_uncorr data dwe0 e W H We Se Ne) as (dwe & E & R & _).
  exists dwe. auto.
Qed.

Lemma add_err_uncorr_read_back_witness :
  wf_array (_data square_batch) /\
  __init__ (_data square_batch) = Ok square_batch /\
  wf_array err_b /\ shape err_b = [n square_batch; nbins square_batch] /\
  nonneg_entries err_b /\
  exists dwe,
    add_err_uncorr err_b square_batch = (Ok tt, dwe) /\ err dwe false = Ok err_b.
Proof.
  split; [reflexivity|]. split; [reflexivity|]. split; [reflexivity|].
  split; [reflexivity|]. split; [exact nonneg_err_b|].
  apply (add_err_uncorr_read_back (_data square_batch) square_batch err_b
           eq_refl eq_refl eq_refl eq_refl nonneg_err_b).
Defined.

Lemma nonneg_np_sqrt (a : ndarray) : nonneg_entries a -> nonneg_entries (np_sqrt a).
Proof.
  unfold nonneg_entries, np_sqrt, map_arr. cbn [buf]. intros H.
  apply Forall_map. eapply Forall_impl; [|exact H].
  intros x (r & -> & P). exists (sqrt r).
  split; [now apply fsqrt_fin|apply sqrt_pos].
Qed.

(** X14. Poisson errors: on a fresh dataset with finite non-negative bin
    contents, [add_poisson_error] returns normally; afterwards every
    variance equals its bin content and [err()] is the square root of the
    data. *)
Theorem poisson_error_on_fresh_dataset (data : ndarray) (dwe0 : DataWithErrors) :
  wf_array data -> nonneg_entries data -> __init__ data = Ok dwe0 ->
  exists dwe,
    add_poisson_error dwe0 = (Ok tt, dwe) /\
    err dwe false = Ok (np_sqrt data) /\
    (forall k i, (k < n dwe0)%nat -> (i < nbins dwe0)%nat ->
       item (_cov dwe) [k; i; i] = item data [k; i]).
Proof.
  intros W Nn H. pose proof H as H'. apply init_inv in H' as [Hs E0].
  assert (D : _data dwe0 = data) by (rewrite E0; reflexivity).
  destruct (fresh_add_err_uncorr data dwe0 (np_sqrt data) W H)
    as (dwe & E & R & C).
  - now apply wf_map_arr.
  - exact Hs.
  - now apply nonneg_np_sqrt.
  - exists dwe. unfold add_poisson_error. rewrite D.
    split; [exact E|]. split; [exact R|].
    intros k i Hk Hi. rewrite (C k i Hk Hi).
    unfold np_sqrt. rewrite item_map_arr by reflexivity.
    destruct (item_nonneg data [k; i] Nn W) as (r & -> & P);
      [rewrite Hs; now apply in_range2|].
    rewrite fsqrt_fin by assumption. cbn [fsquare fmul]. f_equal.
    now apply sqrt_sqrt.
Qed.

Lemma nonneg_square_data : nonneg_entries (_data square_batch).
Proof.
  unfold nonneg_entries. cbn [square_batch _data buf].
  repeat constructor; eexists; (split; [reflexivity|lra]).
Qed.

Lemma poisson_error_on_fresh_dataset_witness :
  wf_array (_data square_batch) /\ nonneg_entries (_data square_batch) /\
  __init__ (_data square_batch) = Ok square_batch /\
  exists dwe,
    add_poisson_error square_batch = (Ok tt, dwe) /\
    err dwe false = Ok (np_sqrt (_data square_batch)) /\
    (forall k i, (k < n square_batch)%nat -> (i < nbins square_batch)%nat ->
       item (_cov dwe) [k; i; i] = item (_data square_batch) [k; i]).
Proof.
  split; [reflexivity|]. split; [exact nonneg_square_data|].
  split; [reflexivity|].
  apply (poisson_error_on_fresh_dataset (_data square_batch) square_batch
           eq_refl nonneg_square_data eq_refl).
Defined.

(* ------------------------------------------------------------------ *)
(** * Relative errors *)

Lemma add_rel_err_corr_ok (dwe : DataWithErrors) (e c : ndarray) :
  wf_dwe dwe -> shape c = [nbins dwe; nbins dwe] -> shape e = [nbins dwe] ->
  add_rel_err_corr e c dwe
  = (Ok tt, set_cov dwe (tab3 (n dwe) (nbins dwe) (nbins dwe) (fun k i j =>
       fadd (item (_cov dwe) [k; i; j])
            (fmul (fmul (fmul (fmul (item c [i; j]) (item e [i])) (item e [j]))
                        (item (_data dwe) [k; i]))
                  (item (_data dwe) [k; j]))))).
Proof.
  intros (Hd & _ & Hc & _) Sc Se.
  unfold add_rel_err_corr, with_value.
  rewrite (corr2cov_2d _ _ (nbins dwe) Sc Se).
  unfold add_rel_err_cov, rel2abs_cov, with_value.
  rewrite (einsum_ij_ki_kj _ _ (n dwe) (nbins dwe)) by (reflexivity || exact Hd).
  rewrite (add_err_cov_same _ _ [n dwe; nbins dwe; nbins dwe])
    by (exact Hc || reflexivity).
  f_equal. f_equal. apply tabulate_tab3. intros k i j Hk Hi Hj.
  now rewrite item_tab3, item_tab2.
Qed.

(** X15. A fully correlated relative error given as a float [x]: with
    finite data, [add_rel_err_maxcorr(x)] returns normally, leaves the data
    as they are and adds (x d[k,i]) (x d[k,j]) to the covariance of bins i
    and j of histogram k. *)
Theorem add_rel_err_maxcorr_float (dwe : DataWithErrors) (x : R) :
  wf_dwe dwe -> finite_entries (_data dwe) ->
  exists dwe',
    add_rel_err_maxcorr (PyFloat (Fin x)) dwe = (Ok tt, dwe') /\
    _data dwe' = _data dwe /\
    forall k i j, (k < n dwe)%nat -> (i < nbins dwe)%nat -> (j < nbins dwe)%nat ->
      exists di dj,
        item (_data dwe) [k; i] = Fin di /\ item (_data dwe) [k; j] = Fin dj /\
        item (_cov dwe') [k; i; j]
        = fadd (item (_cov dwe) [k; i; j]) (Fin ((x * di) * (x * dj))).
Proof.
  intros Wf Fd. pose proof Wf as (Hd & Wd & _).
  eexists. split.
  { unfold add_rel_err_maxcorr. apply (add_rel_err_corr_ok _ _ _ Wf); reflexivity. }
  split; [reflexivity|].
  intros k i j Hk Hi Hj.
  destruct (item_finite (_data dwe) [k; i] Fd Wd) as (di & Ei);
    [rewrite Hd; now apply in_range2|].
  destruct (item_finite (_data dwe) [k; j] Fd Wd) as (dj & Ej);
    [rewrite Hd; now apply in_range2|].
  exists di, dj. split; [exact Ei|]. split; [exact Ej|].
  cbn [set_cov _cov]. rewrite item_tab3 by assumption.
  unfold np_ones.
  rewrite !item_tabulate by (apply in_range2 || apply in_range1; assumption).
  rewrite Ei, Ej. cbn [fmul]. do 2 f_equal. ring.
Qed.

Lemma finite_square_data : finite_entries (_data square_batch).
Proof.
  unfold finite_entries. cbn [square_batch _data buf].
  repeat constructor; eexists; reflexivity.
Qed.

Lemma add_rel_err_maxcorr_float_witness :
  wf_dwe square_batch /\ finite_entries (_data square_batch) /\
  exists dwe',
    add_rel_err_maxcorr (PyFloat (Fin (1 / 10))) square_batch = (Ok tt, dwe') /\
    _data dwe' = _data square_batch /\
    forall k i j, (k < n square_batch)%nat -> (i < nbins square_batch)%nat ->
                  (j < nbins square_batch)%nat ->
      exists di dj,
        item (_data square_batch) [k; i] = Fin di /\
        item (_data square_batch) [k; j] = Fin dj /\
        item (_cov dwe') [k; i; j]
        = fadd (item (_cov square_batch) [k; i; j])
               (Fin ((1 / 10 * di) * (1 / 10 * dj))).
Proof.
  split; [exact wf_square_batch|]. split; [exact finite_square_data|].
  apply (add_rel_err_maxcorr_float square_batch (1 / 10) wf_square_batch
           finite_square_data).
Defined.

(** X16. [add_rel_err_maxcorr] takes a float or a vector: a scalar that is
    not a Python float (it reaches [einsum] as an array of rank 0) makes the
    call raise [ValueError], and the dataset stays as it was. *)
Theorem add_rel_err_maxcorr_rejects_other_scalars (dwe : DataWithErrors)
  (x : num) :
  add_rel_err_maxcorr (PyArray (scalar x)) dwe = (Raise ValueError, dwe).
Proof. reflexivity. Qed.

(** X17. An uncorrelated relative error: with finite data and a vector [e]
    of b finite relative errors, [add_rel_err_uncorr(e)] returns normally and
    adds (e[i] d[k,i])^2 to the variance of bin i of histogram k; every
    off-diagonal covariance and the data stay as they were. *)
Theorem add_rel_err_uncorr_entries (dwe : DataWithErrors) (e : ndarray) :
  wf_dwe dwe -> finite_entries (_data dwe) ->
  shape e = [nbins dwe] -> wf_array e -> finite_entries e ->
  exists dwe',
    add_rel_err_uncorr e dwe = (Ok tt, dwe') /\ _data dwe' = _data dwe /\
    forall k i j, (k < n dwe)%nat -> (i < nbins dwe)%nat -> (j < nbins dwe)%nat ->
      item (_cov dwe') [k; i; j]
      = if (i =? j)%nat
        then fadd (item (_cov dwe) [k; i; i])
                  (fsquare (fmul (item e [i]) (item (_data dwe) [k; i])))
        else item (_cov dwe) [k; i; j].
Proof.
  intros Wf Fd Se We Fe. pose proof Wf as (Hd & Wd & _).
  eexists. split.
  { unfold add_rel_err_uncorr.
    apply (add_rel_err_corr_ok _ _ _ Wf); [reflexivity|exact Se]. }
  split; [reflexivity|].
  intros k i j Hk Hi Hj.
  assert (FD : forall i', (i' < nbins dwe)%nat ->
                 exists r, item (_data dwe) [k; i'] = Fin r).
  { intros i' H. apply item_finite; try assumption.
    rewrite Hd. now apply in_range2. }
  assert (FE : forall i', (i' < nbins dwe)%nat -> exists r, item e [i'] = Fin r).
  { intros i' H. apply item_finite; try assumption.
    rewrite Se. now apply in_range1. }
  cbn [set_cov _cov]. rewrite item_tab3 by assumption.
  unfold np_identity. rewrite item_tabulate by now apply in_range2.
  cbn [nth].
  destruct (FD i Hi) as (di & Di). destruct (FD j Hj) as (dj & Dj).
  destruct (FE i Hi) as (ei & Ei). destruct (FE j Hj) as (ej & Ej).
  destruct (Nat.eqb_spec i j) as [<-|N].
  - rewrite Ei, Di. cbn [fmul fsquare]. do 2 f_equal. ring.
  - rewrite Ei, Ej, Di, Dj. cbn [fmul]. apply fadd_zero_r. ring.
Qed.


Lemma finite_rel_err_2 : finite_entries rel_err_2.
Proof.
  unfold finite_entries, rel_err_2. cbn [buf].
  repeat constructor; eexists; reflexivity.
Qed.

Lemma add_rel_err_uncorr_entries_witness :
  wf_dwe square_batch /\ finite_entries (_data square_batch) /\
  shape rel_err_2 = [nbins square_batch] /\ wf_array rel_err_2 /\
  finite_entries rel_err_2 /\
  exists dwe',
    add_rel_err_uncorr rel_err_2 square_batch = (Ok tt, dwe') /\
    _data dwe' = _data square_batch /\
    forall k i j, (k < n square_batch)%nat -> (i < nbins square_batch)%nat ->
                  (j < nbins square_batch)%nat ->
      item (_cov dwe') [k; i; j]
      = if (i =? j)%nat
        then fadd (item (_cov square_batch) [k; i; i])
                  (fsquare (fmul (item rel_err_2 [i])
                                 (item (_data square_batch) [k; i])))
        else item (_cov square_batch) [k; i; j].
Proof.
  split; [exact wf_square_batch|]. split; [exact finite_square_data|].
  split; [reflexivity|]. split; [reflexivity|]. split; [exact finite_rel_err_2|].
  apply (add_rel_err_uncorr_entries square_batch rel_err_2 wf_square_batch
           finite_square_data eq_refl eq_refl finite_rel_err_2).
Defined.

(* ------------------------------------------------------------------ *)
(** * Relative errors and normalised data *)

Lemma np_tile_row (v : ndarray) (m b : nat) :
  shape v = [m] ->
  np_tile v [b; 1]%nat = tab2 b m (fun _ k => item v [k]).
Proof.
  destruct v as [s bf]. cbn [shape]. intros ->.
  unfold np_tile, rank.
  cbn [shape length Nat.max pad_left Nat.sub repeat app map2 combine map fst snd buf].
  rewrite Nat.mul_1_l, Nat.mul_1_r.
  apply tabulate_tab2. intros i k Hi Hk.
  cbn [map2 combine map fst snd].
  rewrite Nat.mod_1_r, Nat.mod_small by assumption.
  unfold item. cbn [shape buf offset size fold_right]. f_equal; lia.
Qed.

Lemma np_T_tab2 (d0 d1 : nat) g :
  np_T (tab2 d0 d1 g) = Ok (tab2 d1 d0 (fun i j => g j i)).
Proof.
  unfold np_T, np_transpose, rank.
  cbn [tab2 tabulate shape length seq rev app is_permutation].
  cbn -[tabulate item]. f_equal.
  apply tabulate_tab2. intros i j Hi Hj. cbn [nth].
  fold (tab2 d0 d1 g). now rewrite item_tab2.
Qed.

(** X18. [err(relative=True)] divides the error of every bin by the norm
    of its own histogram, for a batch of any shape. *)
Theorem err_relative_divides_by_own_norm (dwe : DataWithErrors) :
  wf_dwe dwe ->
  exists N E R,
    norms dwe = Ok N /\ err dwe false = Ok E /\ err dwe true = Ok R /\
    shape R = [n dwe; nbins dwe] /\
    forall k i, (k < n dwe)%nat -> (i < nbins dwe)%nat ->
      item R [k; i] = fdiv (item E [k; i]) (item N [k]).
Proof.
  intros Wf. pose proof Wf as (_ & _ & Hc & _).
  eexists. eexists. eexists.
  split; [apply (norms_ok _ Wf)|]. split; [apply (err_ok _ Wf)|].
  split.
  { unfold err. cbn [negb]. rewrite (cov2err_3d _ _ _ Hc), (norms_ok _ Wf).
    cbn [bind]. rewrite (np_tile_row _ (n dwe)) by reflexivity.
    rewrite np_T_tab2. cbn [bind].
    apply (broadcast_op_same _ _ _ [n dwe; nbins dwe]); reflexivity. }
  split; [reflexivity|].
  intros k i Hk Hi. rewrite item_tabulate by now apply in_range2.
  now rewrite !item_tab2 by assumption.
Qed.

Lemma wf_wide_batch : wf_dwe wide_batch.
Proof. repeat split. Qed.

Lemma wf_single_histogram : wf_dwe single_histogram.
Proof. repeat split. Qed.

Lemma wf_column_batch : wf_dwe column_batch.
Proof. repeat split. Qed.

Lemma err_relative_divides_by_own_norm_witness :
  wf_dwe wide_batch /\
  exists N E R,
    norms wide_batch = Ok N /\ err wide_batch false = Ok E /\
    err wide_batch true = Ok R /\
    shape R = [n wide_batch; nbins wide_batch] /\
    forall k i, (k < n wide_batch)%nat -> (i < nbins wide_batch)%nat ->
      item R [k; i] = fdiv (item E [k; i]) (item N [k]).
Proof.
  split; [exact wf_wide_batch|].
  apply (err_relative_divides_by_own_norm wide_batch wf_wide_batch).
Defined.

Section NormalizeMore.

Variable linalg_inv : ndarray -> result ndarray.

(** X19. On n histograms of b bins with n different from b and from 1,
    [data(normalize=True)] raises [ValueError], with or without
    decorrelation: the n norms do not broadcast against the n x b data. *)
Theorem data_normalize_raises_on_rectangular_batch (dwe : DataWithErrors)
  (decorrelate : bool) :
  wf_dwe dwe -> n dwe <> nbins dwe -> n dwe <> 1%nat ->
  data linalg_inv dwe true decorrelate = Raise ValueError.
Proof.
  intros Wf E1 E2.
  destruct (data_normalize_cases linalg_inv dwe _ Wf (norms_ok _ Wf))
    as (_ & _ & H).
  specialize (H E1 E2). unfold data, np_array in *. cbv zeta in *.
  destruct (nm <- norms dwe;; inplace_op fdiv (_data dwe) nm) as [r|e];
    cbn [bind] in *; [discriminate|exact H].
Qed.

Lemma fsum_fin (f : nat -> R) (l : list nat) (a : R) :
  fold_left fadd (map (fun i => Fin (f i)) l) (Fin a)
  = Fin (fold_left Rplus (map f l) a).
Proof.
  revert a. induction l as [|i l IH]; intros a; [reflexivity|].
  cbn [map fold_left fadd]. apply IH.
Qed.

Lemma fold_Rplus_div (f : nat -> R) (x : R) (l : list nat) (a : R) :
  fold_left Rplus (map (fun i => f i / x) l) (a / x)
  = fold_left Rplus (map f l) a / x.
Proof.
  revert a. induction l as [|i l IH]; intros a; [reflexivity|].
  cbn [map fold_left]. rewrite <- IH. f_equal. unfold Rdiv. ring.
Qed.

(** X20. For a single histogram with finite contents and a non-zero norm,
    [data(normalize=True)] divides every bin by the norm and the
    normalised contents add up to one. *)
Theorem data_normalize_single_histogram (dwe : DataWithErrors) (N : ndarray)
  (x : R) :
  wf_dwe dwe -> n dwe = 1%nat -> finite_entries (_data dwe) ->
  norms dwe = Ok N -> item N [0%nat] = Fin x -> x <> 0 ->
  exists r,
    data linalg_inv dwe true false = Ok r /\
    shape r = [1%nat; nbins dwe] /\
    (forall i, (i < nbins dwe)%nat ->
       item r [0%nat; i] = fdiv (item (_data dwe) [0%nat; i]) (Fin x)) /\
    np_sum_axis1 r = Ok (tab1 1 (fun _ => Fin 1)).
Proof.
  intros Wf Hn Fd HN Hx Px. pose proof Wf as (Hd & Wd & _).
  assert (FD : forall i, (i < nbins dwe)%nat ->
                 exists d, item (_data dwe) [0%nat; i] = Fin d).
  { intros i H. apply item_finite; try assumption.
    rewrite Hd, Hn. apply in_range2; [lia|assumption]. }
  set (d := fun i => match item (_data dwe) [0%nat; i] with Fin r => r | _ => 0 end).
  assert (Dd : forall i, (i < nbins dwe)%nat ->
                 item (_data dwe) [0%nat; i] = Fin (d i)).
  { intros i H. unfold d. destruct (FD i H) as (r & ->). reflexivity. }
  assert (X : x = fold_left Rplus (map d (seq 0 (nbins dwe))) 0).
  { pose proof HN as HN'. rewrite (norms_ok _ Wf) in HN'. injection HN' as <-.
    rewrite item_tab1 in Hx by lia.
    replace (map (fun i => item (_data dwe) [0%nat; i]) (seq 0 (nbins dwe)))
      with (map (fun i => Fin (d i)) (seq 0 (nbins dwe))) in Hx.
    - unfold fsum in Hx. rewrite fsum_fin in Hx. now injection Hx as <-.
    - apply map_ext_in. intros i Hi. apply in_seq in Hi. symmetry. apply Dd. lia. }
  destruct (data_normalize_cases linalg_inv dwe _ Wf HN) as (_ & H1 & _).
  specialize (H1 Hn). rewrite Hn in H1.
  eexists. split; [exact H1|]. split; [reflexivity|]. split.
  - intros i Hi. rewrite item_tab2 by (lia || assumption). now rewrite Hx.
  - rewrite (np_sum_axis1_2d _ 1 (nbins dwe)) by reflexivity. f_equal.
    apply tab1_ext. intros k Hk. assert (k = 0%nat) as -> by lia.
    transitivity (fsum (map (fun i => Fin (d i / x)) (seq 0 (nbins dwe)))).
    + f_equal. apply map_ext_in. intros i Hi. apply in_seq in Hi.
      rewrite item_tab2 by lia. rewrite Hx, Dd by lia.
      now apply fdiv_fin.
    + unfold fsum. rewrite fsum_fin. f_equal.
      replace 0 with (0 / x) at 1 by (unfold Rdiv; ring).
      rewrite fold_Rplus_div, <- X. now field.
Qed.

End NormalizeMore.

Lemma data_normalize_raises_on_rectangular_batch_witness :
  wf_dwe wide_batch /\ n wide_batch <> nbins wide_batch /\
  n wide_batch <> 1%nat /\
  data linalg_inv_exact wide_batch true true = Raise ValueError.
Proof.
  split; [exact wf_wide_batch|]. split; [cbn; lia|]. split; [cbn; lia|].
  apply (data_normalize_raises_on_rectangular_batch linalg_inv_exact wide_batch
           true wf_wide_batch); cbn; lia.
Defined.

Lemma finite_single_histogram : finite_entries (_data single_histogram).
Proof.
  unfold finite_entries. cbn [single_histogram _data buf].
  repeat constructor; eexists; reflexivity.
Qed.

Lemma norms_single_histogram :
  norms single_histogram = Ok (mkarr [1]%nat [Fin (0 + 1 + 2 + 5)]).
Proof. rewrite (norms_ok _ wf_single_histogram). reflexivity. Qed.

Lemma data_normalize_single_histogram_witness :
  wf_dwe single_histogram /\ n single_histogram = 1%nat /\
  finite_entries (_data single_histogram) /\
  norms single_histogram = Ok (mkarr [1]%nat [Fin (0 + 1 + 2 + 5)]) /\
  item (mkarr [1]%nat [Fin (0 + 1 + 2 + 5)]) [0%nat] = Fin (0 + 1 + 2 + 5) /\
  0 + 1 + 2 + 5 <> 0 /\
  exists r,
    data linalg_inv_exact single_histogram true false = Ok r /\
    shape r = [1%nat; nbins single_histogram] /\
    (forall i, (i < nbins single_histogram)%nat ->
       item r [0%nat; i]
       = fdiv (item (_data single_histogram) [0%nat; i]) (Fin (0 + 1 + 2 + 5))) /\
    np_sum_axis1 r = Ok (tab1 1 (fun _ => Fin 1)).
Proof.
  assert (P : 0 + 1 + 2 + 5 <> 0) by lra.
  split; [exact wf_single_histogram|]. split; [reflexivity|].
  split; [exact finite_single_histogram|]. split; [exact norms_single_histogram|].
  split; [reflexivity|]. split; [exact P|].
  apply (data_normalize_single_histogram linalg_inv_exact single_histogram _ _
           wf_single_histogram eq_refl finite_single_histogram
           norms_single_histogram eq_refl P).
Defined.

Lemma broadcast_shapes_col (m : nat) :
  broadcast_shapes [m; 1%nat] [m] = Some [m; m].
Proof. rewrite broadcast_shapes_2_1. now rewrite bdim_1_l. Qed.

(** X21. [normalized()] on n histograms of one bin returns an n x n
    array: entry (k, i) is the content of histogram k divided by the norm of
    histogram i. *)
Theorem normalized_column_batch (dwe : DataWithErrors) (N : ndarray) :
  wf_dwe dwe -> norms dwe = Ok N -> nbins dwe = 1%nat ->
  normalized dwe
  = Ok (tab2 (n dwe) (n dwe) (fun k i =>
          fdiv (item (_data dwe) [k; 0%nat]) (item N [i]))).
Proof.
  intros Wf HN B. pose proof Wf as (Hd & _).
  assert (SN : shape N = [n dwe]).
  { rewrite (norms_ok _ Wf) in HN. now injection HN as <-. }
  unfold normalized. rewrite HN. cbn [bind]. unfold broadcast_op.
  rewrite Hd, SN, B, broadcast_shapes_col. f_equal.
  apply tabulate_tab2. intros k i Hk Hi.
  rewrite bindex_2_1 by assumption. do 2 f_equal.
  unfold bindex, map2. cbn [length Nat.sub skipn combine map fst snd Nat.eqb].
  now rewrite bsel.
Qed.

Lemma norms_column_batch :
  norms column_batch = Ok (mkarr [3]%nat [Fin 1; Fin 2; Fin 5]).
Proof.
  rewrite (norms_ok _ wf_column_batch). unfold tab1, tabulate.
  cbn -[fdiv fsqrt]. fin_list.
Qed.

Lemma normalized_column_batch_witness :
  wf_dwe column_batch /\
  norms column_batch = Ok (mkarr [3]%nat [Fin 1; Fin 2; Fin 5]) /\
  nbins column_batch = 1%nat /\
  normalized column_batch
  = Ok (tab2 (n column_batch) (n column_batch) (fun k i =>
          fdiv (item (_data column_batch) [k; 0%nat])
               (item (mkarr [3]%nat [Fin 1; Fin 2; Fin 5]) [i]))).
Proof.
  split; [exact wf_column_batch|]. split; [exact norms_column_batch|].
  split; [reflexivity|].
  apply (normalized_column_batch column_batch _ wf_column_batch
           norms_column_batch eq_refl).
Defined.

(* ------------------------------------------------------------------ *)
(** * More on the metric *)

Lemma fsum_nonneg (l : list num) :
  (forall y, In y l -> exists r, y = Fin r /\ 0 <= r) ->
  exists s, fsum l = Fin s /\ 0 <= s.
Proof.
  unfold fsum. assert (G : forall a, 0 <= a ->
    (forall y, In y l -> exists r, y = Fin r /\ 0 <= r) ->
    exists s, fold_left fadd l (Fin a) = Fin s /\ 0 <= s).
  { induction l as [|y l IH]; intros a Pa H; cbn [fold_left].
    - exists a. auto.
    - destruct (H y (or_introl eq_refl)) as (r & -> & Pr). cbn [fadd].
      apply IH; [lra|]. intros z Hz. apply H. now right. }
  apply G. lra.
Qed.

Lemma chi2_summand (xk xl dk dl ek el : R) :
  xk <> 0 -> xl <> 0 -> ek <> 0 -> el <> 0 ->
  fdiv (fsquare (fsub (fmul (Fin xk) (Fin dl)) (fmul (Fin xl) (Fin dk))))
       (fadd (fsquare (fmul (Fin xk) (Fin el)))
             (fsquare (fmul (Fin xl) (Fin ek))))
  = Fin ((xk * dl - xl * dk) * (xk * dl - xl * dk)
         / (xk * el * (xk * el) + xl * ek * (xl * ek))) /\
  0 < xk * el * (xk * el) + xl * ek * (xl * ek).
Proof.
  intros Hk Hl Ek El.
  assert (Q : xk * el <> 0) by now apply Rmult_integral_contrapositive_currified.
  assert (P : 0 < xk * el * (xk * el)) by (apply Rsqr_pos_lt in Q; exact Q).
  assert (P' : 0 <= xl * ek * (xl * ek)) by apply Rle_0_sqr.
  split; [|lra].
  cbn [fmul fneg fsub fadd fsquare]. rewrite fdiv_fin by lra.
  first [reflexivity | f_equal; f_equal; ring].
Qed.

Section MetricMore.

Variable linalg_inv : ndarray -> result ndarray.

Hypothesis linalg_inv_shape :
  forall a r, linalg_inv a = Ok r -> shape r = shape a.

(** X22. The metric is a distance in sign: where there is at least one
    bin, every norm is finite and not zero, and every whitened content is
    finite and every error finite and not zero, each entry of the matrix
    returned by [chi2_metric] is a finite number that is not negative. *)
Theorem chi2_metric_nonnegative (dwe : DataWithErrors) (N D E M : ndarray) :
  wf_dwe dwe ->
  norms dwe = Ok N ->
  data linalg_inv dwe false true = Ok D ->
  err dwe false = Ok E ->
  chi2_metric linalg_inv dwe = Ok M ->
  (1 <= nbins dwe)%nat ->
  (forall k, (k < n dwe)%nat -> exists x, item N [k] = Fin x /\ x <> 0) ->
  (forall k i, (k < n dwe)%nat -> (i < nbins dwe)%nat ->
     exists d e, item D [k; i] = Fin d /\ item E [k; i] = Fin e /\ e <> 0) ->
  forall k l, (k < n dwe)%nat -> (l < n dwe)%nat ->
    exists v, item M [k; l] = Fin v /\ 0 <= v.
Proof.
  intros Wf HN HD HE HM Hb FN FDE k l Hk Hl.
  rewrite (chi2_metric_steps _ linalg_inv_shape _ _ _ _ Wf HN HD HE) in HM.
  injection HM as <-. rewrite item_tab2 by assumption.
  destruct (FN k Hk) as (xk & Nk & Pk). destruct (FN l Hl) as (xl & Nl & Pl).
  match goal with
  | |- context [fsum ?l] =>
      destruct (fsum_nonneg l) as (s & -> & Ps)
  end.
  - intros y Hy. apply in_map_iff in Hy as (i & <- & Hi). apply in_seq in Hi.
    destruct (FDE k i Hk ltac:(lia)) as (dk & ek & -> & -> & Ek).
    destruct (FDE l i Hl ltac:(lia)) as (dl & el & -> & -> & El).
    rewrite Nk, Nl.
    destruct (chi2_summand xk xl dk dl ek el Pk Pl Ek El) as [-> P].
    eexists. split; [reflexivity|].
    apply Rmult_le_pos; [apply Rle_0_sqr|].
    left. now apply Rinv_0_lt_compat.
  - pose proof (lt_0_INR (nbins dwe) ltac:(lia)) as Pb.
    rewrite fdiv_fin by lra. eexists. split; [reflexivity|].
    apply Rmult_le_pos; [exact Ps|]. left. now apply Rinv_0_lt_compat.
Qed.

(** X23. The metric compares shapes, not sizes: under the same
    conditions, the distance between two histograms whose whitened contents
    are proportional to their norms, N[k] D[l,i] = N[l] D[k,i] in every
    bin, is zero. *)
Theorem chi2_metric_zero_for_proportional (dwe : DataWithErrors)
  (N D E M : ndarray) (k l : nat) :
  wf_dwe dwe ->
  norms dwe = Ok N ->
  data linalg_inv dwe false true = Ok D ->
  err dwe false = Ok E ->
  chi2_metric linalg_inv dwe = Ok M ->
  (1 <= nbins dwe)%nat -> (k < n dwe)%nat -> (l < n dwe)%nat ->
  (forall k, (k < n dwe)%nat -> exists x, item N [k] = Fin x /\ x <> 0) ->
  (forall k i, (k < n dwe)%nat -> (i < nbins dwe)%nat ->
     exists d e, item D [k; i] = Fin d /\ item E [k; i] = Fin e /\ e <> 0) ->
  (forall i, (i < nbins dwe)%nat ->
     fmul (item N [k]) (item D [l; i]) = fmul (item N [l]) (item D [k; i])) ->
  item M [k; l] = Fin 0.
Proof.
  intros Wf HN HD HE HM Hb Hk Hl FN FDE Hp.
  rewrite (chi2_metric_steps _ linalg_inv_shape _ _ _ _ Wf HN HD HE) in HM.
  injection HM as <-. rewrite item_tab2 by assumption.
  destruct (FN k Hk) as (xk & Nk & Pk). destruct (FN l Hl) as (xl & Nl & Pl).
  rewrite fsum_all_zero.
  - pose proof (lt_0_INR (nbins dwe) ltac:(lia)).
    rewrite fdiv_fin by lra. f_equal. unfold Rdiv. apply Rmult_0_l.
  - intros y Hy. apply in_map_iff in Hy as (i & <- & Hi). apply in_seq in Hi.
    specialize (Hp i ltac:(lia)).
    destruct (FDE k i Hk ltac:(lia)) as (dk & ek & Dk & Ek' & Ek).
    destruct (FDE l i Hl ltac:(lia)) as (dl & el & Dl & El' & El).
    rewrite Nk, Nl, Dk, Dl in Hp. cbn [fmul] in Hp. injection Hp as Hp.
    rewrite Nk, Nl, Dk, Dl, Ek', El'.
    destruct (chi2_summand xk xl dk dl ek el Pk Pl Ek El) as [-> P].
    f_equal. rewrite Hp.
    replace (xl * dk - xl * dk) with 0 by ring. unfold Rdiv. ring.
Qed.

(** X24. A failing inverse is not caught: on a well-formed dataset, when
    [np.linalg.inv] raises on the correlation tensor, both
    [data(decorrelate=True)] and [chi2_metric] raise the same exception. *)
Theorem inverse_failure_propagates (dwe : DataWithErrors) (c : ndarray)
  (e : exn) :
  wf_dwe dwe -> corr dwe = Ok c -> linalg_inv c = Raise e ->
  data linalg_inv dwe false true = Raise e /\
  chi2_metric linalg_inv dwe = Raise e.
Proof.
  intros Wf Hc He.
  assert (HD : data linalg_inv dwe false true = Raise e).
  { unfold data, np_array. cbv zeta. cbn [bind]. rewrite Hc. cbn [bind].
    now rewrite He. }
  split; [exact HD|].
  unfold chi2_metric. rewrite (norms_ok _ Wf). cbn [bind]. now rewrite HD.
Qed.

End MetricMore.

Lemma two_full_norms_nonzero (k : nat) :
  (k < n two_full)%nat -> exists x, item two_full_norms [k] = Fin x /\ x <> 0.
Proof.
  cbn [n two_full]. intros Hk.
  destruct k as [|[|k]]; [exists 2|exists 3|lia]; (split; [reflexivity|lra]).
Qed.

Lemma two_full_entries (k i : nat) :
  (k < n two_full)%nat -> (i < nbins two_full)%nat ->
  exists d e, item two_full_data [k; i] = Fin d /\
              item two_full_err [k; i] = Fin e /\ e <> 0.
Proof.
  cbn [n nbins two_full]. intros Hk Hi. assert (i = 0%nat) as -> by lia.
  destruct k as [|[|k]]; [exists 2, 1|exists 3, 1|lia];
    (split; [reflexivity|split; [reflexivity|lra]]).
Qed.

Lemma chi2_metric_nonnegative_witness :
  wf_dwe two_full /\
  norms two_full = Ok two_full_norms /\
  data linalg_inv_exact two_full false true = Ok two_full_data /\
  err two_full false = Ok two_full_err /\
  chi2_metric linalg_inv_exact two_full = Ok two_full_chi2 /\
  (1 <= nbins two_full)%nat /\
  (forall k, (k < n two_full)%nat ->
     exists x, item two_full_norms [k] = Fin x /\ x <> 0) /\
  (forall k i, (k < n two_full)%nat -> (i < nbins two_full)%nat ->
     exists d e, item two_full_data [k; i] = Fin d /\
                 item two_full_err [k; i] = Fin e /\ e <> 0) /\
  forall k l, (k < n two_full)%nat -> (l < n two_full)%nat ->
    exists v, item two_full_chi2 [k; l] = Fin v /\ 0 <= v.
Proof.
  split; [exact wf_two_full|]. split; [exact norms_two_full|].
  split; [exact data_two_full|]. split; [exact err_two_full|].
  split; [exact chi2_two_full|]. split; [cbn; lia|].
  split; [exact two_full_norms_nonzero|]. split; [exact two_full_entries|].
  apply (chi2_metric_nonnegative linalg_inv_exact linalg_inv_exact_shape two_full
           two_full_norms two_full_data two_full_err two_full_chi2
           wf_two_full norms_two_full data_two_full err_two_full chi2_two_full
           (le_n 1) two_full_norms_nonzero two_full_entries).
Defined.

Lemma two_full_proportional (i : nat) :
  (i < nbins two_full)%nat ->
  fmul (item two_full_norms [0%nat]) (item two_full_data [1%nat; i])
  = fmul (item two_full_norms [1%nat]) (item two_full_data [0%nat; i]).
Proof.
  cbn [nbins two_full]. intros Hi. assert (i = 0%nat) as -> by lia.
  cbn. f_equal. ring.
Qed.

Lemma chi2_metric_zero_for_proportional_witness :
  wf_dwe two_full /\
  norms two_full = Ok two_full_norms /\
  data linalg_inv_exact two_full false true = Ok two_full_data /\
  err two_full false = Ok two_full_err /\
  chi2_metric linalg_inv_exact two_full = Ok two_full_chi2 /\
  (1 <= nbins two_full)%nat /\ (0 < n two_full)%nat /\ (1 < n two_full)%nat /\
  (forall k, (k < n two_full)%nat ->
     exists x, item two_full_norms [k] = Fin x /\ x <> 0) /\
  (forall k i, (k < n two_full)%nat -> (i < nbins two_full)%nat ->
     exists d e, item two_full_data [k; i] = Fin d /\
                 item two_full_err [k; i] = Fin e /\ e <> 0) /\
  (forall i, (i < nbins two_full)%nat ->
     fmul (item two_full_norms [0%nat]) (item two_full_data [1%nat; i])
     = fmul (item two_full_norms [1%nat]) (item two_full_data [0%nat; i])) /\
  item two_full_chi2 [0; 1]%nat = Fin 0.
Proof.
  assert (L0 : (0 < n two_full)%nat) by (cbn; lia).
  assert (L1 : (1 < n two_full)%nat) by (cbn; lia).
  split; [exact wf_two_full|]. split; [exact norms_two_full|].
  split; [exact data_two_full|]. split; [exact err_two_full|].
  split; [exact chi2_two_full|]. split; [cbn; lia|].
  split; [exact L0|]. split; [exact L1|].
  split; [exact two_full_norms_nonzero|]. split; [exact two_full_entries|].
  split; [exact two_full_proportional|].
  apply (chi2_metric_zero_for_proportional linalg_inv_exact
           linalg_inv_exact_shape two_full
           two_full_norms two_full_data two_full_err two_full_chi2 0 1
           wf_two_full norms_two_full data_two_full err_two_full chi2_two_full
           (le_n 1) L0 L1 two_full_norms_nonzero two_full_entries
           two_full_proportional).
Defined.

Lemma wf_fully_correlated : wf_dwe fully_correlated.
Proof. repeat split. Qed.

Lemma corr_fully_correlated :
  corr fully_correlated = Ok (mkarr [1; 2; 2]%nat [Fin 1; Fin 1; Fin 1; Fin 1]).
Proof.
  rewrite (corr_ok _ wf_fully_correlated).
  unfold tab3, tabulate. cbn -[fdiv fsqrt]. num_norm. fin_list.
Qed.

Lemma inv_fully_correlated :
  linalg_inv_exact (mkarr [1; 2; 2]%nat [Fin 1; Fin 1; Fin 1; Fin 1])
  = Raise LinAlgError.
Proof.
  unfold linalg_inv_exact. cbn -[fdiv fsqrt Rsign].
  match goal with
  | |- context [Rsign ?x] => rewrite (Rsign_zero x) by lra
  end.
  reflexivity.
Qed.

Lemma inverse_failure_propagates_witness :
  wf_dwe fully_correlated /\
  corr fully_correlated = Ok (mkarr [1; 2; 2]%nat [Fin 1; Fin 1; Fin 1; Fin 1]) /\
  linalg_inv_exact (mkarr [1; 2; 2]%nat [Fin 1; Fin 1; Fin 1; Fin 1])
  = Raise LinAlgError /\
  data linalg_inv_exact fully_correlated false true = Raise LinAlgError /\
  chi2_metric linalg_inv_exact fully_correlated = Raise LinAlgError.
Proof.
  split; [exact wf_fully_correlated|]. split; [exact corr_fully_correlated|].
  split; [exact inv_fully_correlated|].
  apply (inverse_failure_propagates linalg_inv_exact fully_correlated _
           LinAlgError wf_fully_correlated corr_fully_correlated
           inv_fully_correlated).
Defined.

(* ------------------------------------------------------------------ *)
(** * The condensed form of arrays that are not square matrices *)

(** X25. [condense_distance_matrix] needs at least two axes: on a scalar
    it raises [TypeError] (from [len]), on a vector [IndexError] (from the
    indexing with two index arrays), whatever the length of the vector. *)
Theorem condense_rejects_non_matrix (M : ndarray) :
  (rank M < 2)%nat ->
  condense_distance_matrix M
  = Raise (if (rank M =? 0)%nat then TypeError else IndexError).
Proof.
  unfold rank, condense_distance_matrix, take_pairs.
  destruct (shape M) as [|len [|d1 rest]]; cbn [length]; intros H.
  - reflexivity.
  - cbn [Nat.eqb]. now destruct (triu_indices len 1).
  - lia.
Qed.

Lemma condense_rejects_non_matrix_witness :
  (rank vec_3 < 2)%nat /\
  condense_distance_matrix vec_3
  = Raise (if (rank vec_3 =? 0)%nat then TypeError else IndexError).
Proof.
  split; [cbn; lia|].
  apply (condense_rejects_non_matrix vec_3). cbn. lia.
Defined.

Lemma in_upper_hits (m i j : nat) :
  (i < j)%nat -> (j < m)%nat -> In [i; j] (upper_hits m).
Proof.
  intros Hij Hj. unfold upper_hits. apply in_flat_map.
  exists i. split; [apply in_seq; lia|].
  apply in_map_iff. exists j. split; [reflexivity|]. apply in_seq. lia.
Qed.

Lemma condense_rectangular (M : ndarray) (m c : nat) :
  shape M = [m; c] ->
  ((m <= c)%nat ->
   exists v,
     condense_distance_matrix M = Ok v /\
     shape v = [(m * (m - 1) / 2)%nat] /\
     buf v = strict_upper_row_major M m) /\
  ((c < m)%nat -> (2 <= m)%nat ->
   condense_distance_matrix M = Raise IndexError).
Proof.
  intros H. unfold condense_distance_matrix, triu_indices. rewrite H.
  rewrite triu_hits. unfold take_pairs. rewrite H.
  set (rows := map (fun idx => nth 0 idx 0%nat) (upper_hits m)).
  set (cols := map (fun idx => nth 1 idx 0%nat) (upper_hits m)).
  assert (Br : forallb (fun r => (r <? m)%nat) rows = true).
  { apply forallb_forall. intros x Hx.
    apply in_map_iff in Hx as (h & <- & Hh).
    apply upper_hits_in_range in Hh as (i & j & -> & Hij & Hj).
    cbn [nth]. apply Nat.ltb_lt. lia. }
  rewrite Br. cbn [andb]. split.
  - intros Hle.
    assert (Bc : forallb (fun x => (x <? c)%nat) cols = true).
    { apply forallb_forall. intros x Hx.
      apply in_map_iff in Hx as (h & <- & Hh).
      apply upper_hits_in_range in Hh as (i & j & -> & Hij & Hj).
      cbn [nth]. apply Nat.ltb_lt. lia. }
    rewrite Bc. eexists. split; [reflexivity|].
    assert (L : length rows = (m * (m - 1) / 2)%nat).
    { unfold rows. rewrite length_map. apply length_upper_hits. }
    cbn [tabulate shape buf]. split; [now rewrite L|].
    rewrite indices1, map_map. cbn [hd tl].
    replace (length rows) with (length (upper_hits m))
      by (unfold rows; now rewrite length_map).
    unfold rows, cols.
    rewrite (map_nth2_seq (fun r x => item M [r; x])).
    unfold upper_hits, strict_upper_row_major.
    rewrite map_flat_map. apply flat_map_ext_in. intros i _.
    now rewrite map_map.
  - intros Hlt H2.
    destruct (forallb (fun x => (x <? c)%nat) cols) eqn:Bc; [|reflexivity].
    rewrite forallb_forall in Bc.
    assert (Hin : In (m - 1)%nat cols).
    { unfold cols. apply in_map_iff. exists [0%nat; (m - 1)%nat].
      split; [reflexivity|]. apply in_upper_hits; lia. }
    apply Bc in Hin. apply Nat.ltb_lt in Hin. lia.
Qed.

(** X26. On an array with at least as many columns as rows,
    [condense_distance_matrix] takes the pairs (i, j), i < j < n, from the
    number n of rows alone: it returns the n(n-1)/2 entries above the
    diagonal of the leading n x n block and ignores the other columns. *)
Theorem condense_wide_matrix (M : ndarray) (m c : nat) :
  shape M = [m; c] -> (m <= c)%nat ->
  exists v,
    condense_distance_matrix M = Ok v /\
    shape v = [(m * (m - 1) / 2)%nat] /\
    buf v = strict_upper_row_major M m.
Proof. intros H Hle. now apply (condense_rectangular M m c H). Qed.

Lemma condense_wide_matrix_witness :
  shape wide_2x3 = [2; 3]%nat /\ (2 <= 3)%nat /\
  exists v,
    condense_distance_matrix wide_2x3 = Ok v /\
    shape v = [(2 * (2 - 1) / 2)%nat] /\
    buf v = strict_upper_row_major wide_2x3 2.
Proof.
  split; [reflexivity|]. split; [lia|].
  apply (condense_wide_matrix wide_2x3 2 3 eq_refl). lia.
Defined.

(** X27. On an array with fewer columns than rows (and at least two
    rows), [condense_distance_matrix] raises [IndexError]: the pair
    (0, n-1) is out of bounds. *)
Theorem condense_tall_matrix_raises (M : ndarray) (m c : nat) :
  shape M = [m; c] -> (c < m)%nat -> (2 <= m)%nat ->
  condense_distance_matrix M = Raise IndexError.
Proof. intros H Hlt H2. now apply (condense_rectangular M m c H). Qed.

Lemma condense_tall_matrix_raises_witness :
  shape tall_3x2 = [3; 2]%nat /\ (2 < 3)%nat /\ (2 <= 3)%nat /\
  condense_distance_matrix tall_3x2 = Raise IndexError.
Proof.
  split; [reflexivity|]. split; [lia|]. split; [lia|].
  apply (condense_tall_matrix_raises tall_3x2 3 2 eq_refl); lia.
Defined.
